(** * A shallow embedding of the deepgraph core in Rocq

    The modules below embed, function by function, the parts of the Rust
    sources that the storage, write-ahead log, MVCC, index and executor
    properties depend on.  Identifiers ([NodeId], [EdgeId], UUIDs) are
    modelled as [N]; [u64] counters as [N]; [i64] as [Z] with its
    two's-complement range written out; [f64] as the primitive IEEE-754
    binary64 floats of the Standard Library; Rust [HashMap]/[DashMap] as
    stdpp's [gmap], [HashSet] as [gset].  Methods taking [&self] and
    mutating interior state return the new state explicitly. *)

From Stdlib Require Import ZArith Floats Relations.
From stdpp Require Import base gmap sets list strings.

Open Scope Z_scope.
#[local] Set Warnings "-register-all".

(* ------------------------------------------------------------------ *)
(** ** Errors and results ([src/error.rs]) *)

(** The [io::ErrorKind]s the modelled code distinguishes. *)
Inductive IoErrorKind :=
| UnexpectedEof
| OtherIo.

(** [DeepGraphError]: the variants the modelled functions construct.  The
    [NodeNotFound]/[EdgeNotFound] payload is the id the code formats into
    the message. *)
Inductive DeepGraphError :=
| NodeNotFound (id : N)
| EdgeNotFound (id : N)
| StorageError (msg : string)
| InvalidOperation (msg : string)
| TransactionError (msg : string)
| IoError (kind : IoErrorKind).

(** [crate::error::Result<T>]. *)
Inductive result (A : Type) :=
| Ok (a : A)
| Err (e : DeepGraphError).
Arguments Ok {A} a.
Arguments Err {A} e.

Definition is_ok {A} (r : result A) : bool :=
  match r with Ok _ => true | Err _ => false end.

(* ------------------------------------------------------------------ *)
(** ** Machine integers *)

Module I64.
Definition min : Z := - 2 ^ 63.
Definition max : Z := 2 ^ 63 - 1.
(** An exact result that must fit in [i64]: [None] is the overflow panic
    ("attempt to add with overflow" and the like). *)
Definition checked (z : Z) : option Z :=
  if (min <=? z) && (z <=? max) then Some z else None.
(** [+], [-], [*] and unary [-] on [i64] as compiled in the default (debug)
    profile, where overflow checks are on: they panic ([None]) when the
    exact result leaves the [i64] range. *)
Definition add (a b : Z) : option Z := checked (a + b).
Definition sub (a b : Z) : option Z := checked (a - b).
Definition mul (a b : Z) : option Z := checked (a * b).
Definition neg (a : Z) : option Z := checked (- a).
(** [/] on [i64]: truncating division; it panics ([None]) on a zero
    divisor and on [i64::MIN / -1], in every build profile. *)
Definition div (a b : Z) : option Z :=
  if Z.eqb b 0 then None
  else if Z.eqb a min && Z.eqb b (-1) then None
  else Some (Z.quot a b).
(** [i as f64]: round to nearest, ties to even. *)
Definition to_f64 (i : Z) : float :=
  SF2Prim (binary_normalize FloatOps.prec FloatOps.emax i 0 false).
End I64.

(* ------------------------------------------------------------------ *)
(** ** Property values ([src/graph.rs]) *)

Module PropertyValue.
(** [enum PropertyValue]; the [Map] payload is the [HashMap]'s entries. *)
Inductive t :=
| String (s : string)
| Integer (i : Z)
| Float (f : float)
| Boolean (b : bool)
| Null
| List (l : list t)
| Map (m : list (string * t)).

Fixpoint assoc {A} (k : string) (m : list (string * A)) : option A :=
  match m with
  | [] => None
  | (k', v) :: m' => if String.eqb k k' then Some v else assoc k m'
  end.

(** The derived [PartialEq]: floats compare with IEEE equality; two maps
    are equal when they have the same size and every entry of the left
    one is found, with an equal value, in the right one. *)
Fixpoint eqb (a b : t) : bool :=
  match a, b with
  | String x, String y => String.eqb x y
  | Integer x, Integer y => Z.eqb x y
  | Float x, Float y => PrimFloat.eqb x y
  | Boolean x, Boolean y => Bool.eqb x y
  | Null, Null => true
  | List xs, List ys =>
      (fix go (xs ys : list t) : bool :=
         match xs, ys with
         | [], [] => true
         | x :: xs', y :: ys' => eqb x y && go xs' ys'
         | _, _ => false
         end) xs ys
  | Map xs, Map ys =>
      Nat.eqb (length xs) (length ys) &&
      (fix all (xs : list (string * t)) : bool :=
         match xs with
         | [] => true
         | (k, v) :: xs' =>
             match assoc k ys with
             | Some w => eqb v w
             | None => false
             end && all xs'
         end) xs
  | _, _ => false
  end.
End PropertyValue.

(* ------------------------------------------------------------------ *)
(** ** Nodes and edges ([src/graph.rs]) *)

(** [NodeId(Uuid)] and [EdgeId(Uuid)]: the 128-bit UUID as a number. *)
Abbreviation NodeId := N (only parsing).
Abbreviation EdgeId := N (only parsing).

Module Node.
Record t := mk {
  id : NodeId;
  labels : list string;
  properties : gmap string PropertyValue.t;
}.

(** [Node::has_label]: [self.labels.iter().any(|l| l == label)] *)
Definition has_label (n : t) (label : string) : bool :=
  existsb (fun l => String.eqb l label) (labels n).

(** [Node::get_property]: [self.properties.get(key)] *)
Definition get_property (n : t) (key : string) : option PropertyValue.t :=
  properties n !! key.
End Node.

Module Edge.
Record t := mk {
  id : EdgeId;
  from : NodeId;
  to : NodeId;
  relationship_type : string;
  properties : gmap string PropertyValue.t;
}.
End Edge.

(* ------------------------------------------------------------------ *)
(** ** The in-memory backend ([src/storage/memory.rs]) *)

Module MemoryStorage.
Record t := mk {
  nodes : gmap NodeId Node.t;
  edges : gmap EdgeId Edge.t;
  outgoing_edges : gmap NodeId (list EdgeId);
  incoming_edges : gmap NodeId (list EdgeId);
}.

Definition new : t := mk ∅ ∅ ∅ ∅.

Definition node_count (s : t) : nat := size (nodes s).
Definition edge_count (s : t) : nat := size (edges s).

Definition set_nodes (s : t) m := mk m (edges s) (outgoing_edges s) (incoming_edges s).
Definition set_edges (s : t) m := mk (nodes s) m (outgoing_edges s) (incoming_edges s).
Definition set_outgoing (s : t) m := mk (nodes s) (edges s) m (incoming_edges s).
Definition set_incoming (s : t) m := mk (nodes s) (edges s) (outgoing_edges s) m.

(** [add_node]: [self.nodes.insert(id, node); Ok(id)]. *)
Definition add_node (node : Node.t) (s : t) : result NodeId * t :=
  let id := Node.id node in
  (Ok id, set_nodes s (<[id := node]> (nodes s))).

Definition get_node (id : NodeId) (s : t) : result Node.t :=
  match nodes s !! id with
  | Some n => Ok n
  | None => Err (NodeNotFound id)
  end.

Definition update_node (node : Node.t) (s : t) : result unit * t :=
  let id := Node.id node in
  match nodes s !! id with
  | Some _ => (Ok tt, set_nodes s (<[id := node]> (nodes s)))
  | None => (Err (NodeNotFound id), s)
  end.

(** [for edge_id in edge_ids { self.edges.remove(&edge_id); }] *)
Definition remove_edges (eids : list EdgeId) (m : gmap EdgeId Edge.t) : gmap EdgeId Edge.t :=
  foldl (fun m eid => delete eid m) m eids.

(** [delete_node]: remove the node (or fail), then take the node's own
    outgoing list and remove those edges, then its incoming list. *)
Definition delete_node (id : NodeId) (s : t) : result unit * t :=
  match nodes s !! id with
  | None => (Err (NodeNotFound id), s)
  | Some _ =>
      let s1 := set_nodes s (delete id (nodes s)) in
      let s2 :=
        match outgoing_edges s1 !! id with
        | Some eids =>
            set_edges (set_outgoing s1 (delete id (outgoing_edges s1)))
                      (remove_edges eids (edges s1))
        | None => s1
        end in
      let s3 :=
        match incoming_edges s2 !! id with
        | Some eids =>
            set_edges (set_incoming s2 (delete id (incoming_edges s2)))
                      (remove_edges eids (edges s2))
        | None => s2
        end in
      (Ok tt, s3)
  end.

(** [entry(k).or_insert_with(Vec::new).push(id)] *)
Definition push_adj (k : NodeId) (eid : EdgeId) (m : gmap NodeId (list EdgeId)) :=
  <[k := default [] (m !! k) ++ [eid]]> m.

Definition add_edge (edge : Edge.t) (s : t) : result EdgeId * t :=
  let id := Edge.id edge in
  let from := Edge.from edge in
  let to := Edge.to edge in
  match nodes s !! from with
  | None => (Err (NodeNotFound from), s)
  | Some _ =>
      match nodes s !! to with
      | None => (Err (NodeNotFound to), s)
      | Some _ =>
          let s1 := set_edges s (<[id := edge]> (edges s)) in
          let s2 := set_outgoing s1 (push_adj from id (outgoing_edges s1)) in
          let s3 := set_incoming s2 (push_adj to id (incoming_edges s2)) in
          (Ok id, s3)
      end
  end.

Definition get_edge (id : EdgeId) (s : t) : result Edge.t :=
  match edges s !! id with
  | Some e => Ok e
  | None => Err (EdgeNotFound id)
  end.

Definition update_edge (edge : Edge.t) (s : t) : result unit * t :=
  let id := Edge.id edge in
  match edges s !! id with
  | Some _ => (Ok tt, set_edges s (<[id := edge]> (edges s)))
  | None => (Err (EdgeNotFound id), s)
  end.

(** [if let Some(mut edges) = map.get_mut(&k) { edges.retain(|&e| e != id) }] *)
Definition retain_adj (k : NodeId) (eid : EdgeId) (m : gmap NodeId (list EdgeId)) :=
  match m !! k with
  | Some l => <[k := filter (fun e => e ≠ eid) l]> m
  | None => m
  end.

Definition delete_edge (id : EdgeId) (s : t) : result unit * t :=
  match edges s !! id with
  | None => (Err (EdgeNotFound id), s)
  | Some e =>
      let s1 := set_edges s (delete id (edges s)) in
      let s2 := set_outgoing s1 (retain_adj (Edge.from e) id (outgoing_edges s1)) in
      let s3 := set_incoming s2 (retain_adj (Edge.to e) id (incoming_edges s2)) in
      (Ok tt, s3)
  end.

(** The ids stored in an adjacency list ([unwrap_or_default]). *)
Definition adj (m : gmap NodeId (list EdgeId)) (n : NodeId) : list EdgeId :=
  default [] (m !! n).

(** The adjacency-consistency property of the spec: the lists
    [outgoing[n]] and [incoming[n]] hold exactly the stored edges whose
    [from] (resp. [to]) is [n]. *)
Definition adjacency_consistent (s : t) : Prop :=
  ∀ n eid,
    (eid ∈ adj (outgoing_edges s) n ↔
       ∃ e, edges s !! eid = Some e ∧ Edge.from e = n) ∧
    (eid ∈ adj (incoming_edges s) n ↔
       ∃ e, edges s !! eid = Some e ∧ Edge.to e = n).

(** The values of a [DashMap] in iteration order ([iter()]).  That order
    is unspecified; the model takes the order of [map_to_list], and the
    properties proved about the functions below do not depend on it. *)
Definition values {K V} `{Countable K} (m : gmap K V) : list V :=
  (map_to_list m).*2.

(** [get_nodes_by_label]: the stored nodes whose [has_label(label)] holds. *)
Definition get_nodes_by_label (label : string) (s : t) : list Node.t :=
  filter (fun n => Node.has_label n label = true) (values (nodes s)).

(** The filter of [get_nodes_by_property]:
    [get_property(key).map(|v| v == value).unwrap_or(false)]. *)
Definition property_matches (key : string) (value : PropertyValue.t) (n : Node.t) : bool :=
  match Node.get_property n key with
  | Some v => PropertyValue.eqb v value
  | None => false
  end.

Definition get_nodes_by_property (key : string) (value : PropertyValue.t) (s : t)
    : list Node.t :=
  filter (fun n => property_matches key value n = true) (values (nodes s)).

(** [get_outgoing_edges]: fail on an unknown node, else look up every id
    of the node's outgoing list, skipping ids with no stored edge
    ([filter_map]). *)
Definition get_outgoing_edges (node_id : NodeId) (s : t) : result (list Edge.t) :=
  match nodes s !! node_id with
  | None => Err (NodeNotFound node_id)
  | Some _ => Ok (omap (fun id => edges s !! id) (adj (outgoing_edges s) node_id))
  end.

Definition get_incoming_edges (node_id : NodeId) (s : t) : result (list Edge.t) :=
  match nodes s !! node_id with
  | None => Err (NodeNotFound node_id)
  | Some _ => Ok (omap (fun id => edges s !! id) (adj (incoming_edges s) node_id))
  end.

Definition get_edges_by_type (relationship_type : string) (s : t) : list Edge.t :=
  filter (fun e => String.eqb (Edge.relationship_type e) relationship_type = true)
         (values (edges s)).

Definition get_all_nodes (s : t) : list Node.t := values (nodes s).
Definition get_all_edges (s : t) : list Edge.t := values (edges s).

(** [clear]: every map emptied. *)
Definition clear (s : t) : t := mk ∅ ∅ ∅ ∅.
End MemoryStorage.

(* ------------------------------------------------------------------ *)
(** ** The storage backend interface ([src/storage/mod.rs]) *)

(** [trait StorageBackend], restricted to the mutations recovery calls;
    each method returns its result and the backend's new state. *)
Class StorageBackend (S : Type) := {
  sb_add_node : Node.t -> S -> result NodeId * S;
  sb_update_node : Node.t -> S -> result unit * S;
  sb_delete_node : NodeId -> S -> result unit * S;
  sb_add_edge : Edge.t -> S -> result EdgeId * S;
  sb_update_edge : Edge.t -> S -> result unit * S;
  sb_delete_edge : EdgeId -> S -> result unit * S;
}.

(** [impl StorageBackend for MemoryStorage]: each method delegates. *)
#[export] Instance MemoryStorage_backend : StorageBackend MemoryStorage.t := {
  sb_add_node := MemoryStorage.add_node;
  sb_update_node := MemoryStorage.update_node;
  sb_delete_node := MemoryStorage.delete_node;
  sb_add_edge := MemoryStorage.add_edge;
  sb_update_edge := MemoryStorage.update_edge;
  sb_delete_edge := MemoryStorage.delete_edge;
}.

(* ------------------------------------------------------------------ *)
(** ** Write-ahead log entries and recovery ([src/wal/log.rs], [src/wal/recovery.rs]) *)

Module Wal.
Inductive WALOperation :=
| BeginTxn
| CommitTxn
| AbortTxn
| InsertNode (node : Node.t)
| UpdateNode (node : Node.t)
| DeleteNode (id : NodeId)
| InsertEdge (edge : Edge.t)
| UpdateEdge (edge : Edge.t)
| DeleteEdge (id : EdgeId)
| Checkpoint.

Record WALEntry := mkEntry {
  lsn : N;
  txn_id : N;
  operation : WALOperation;
  timestamp : N;
}.

Section Recovery.
Context {S : Type} `{StorageBackend S}.

(** [WALRecovery::replay_entry]: the six data operations call the
    backend; every other operation is skipped. *)
Definition replay_entry (storage : S) (entry : WALEntry) : result unit * S :=
  match operation entry with
  | InsertNode node =>
      let '(r, s) := sb_add_node node storage in
      match r with Ok _ => (Ok tt, s) | Err e => (Err e, s) end
  | UpdateNode node => sb_update_node node storage
  | DeleteNode id => sb_delete_node id storage
  | InsertEdge edge =>
      let '(r, s) := sb_add_edge edge storage in
      match r with Ok _ => (Ok tt, s) | Err e => (Err e, s) end
  | UpdateEdge edge => sb_update_edge edge storage
  | DeleteEdge id => sb_delete_edge id storage
  | _ => (Ok tt, storage)
  end.

(** The segment files, in the order [find_segments] returns them, and
    the reader [read_segment] that decodes one of them. *)
Context {Seg : Type} (read_segment : Seg -> result (list WALEntry)).

Definition is_commit (e : WALEntry) : bool :=
  match operation e with CommitTxn => true | _ => false end.

(** First pass: [committed_txns.insert(entry.txn_id)] for every
    [CommitTxn] entry of every segment. *)
Fixpoint collect_commits (segs : list Seg) (committed : gset N) : result (gset N) :=
  match segs with
  | [] => Ok committed
  | seg :: rest =>
      match read_segment seg with
      | Err e => Err e
      | Ok entries =>
          collect_commits rest
            (foldl (fun c e => if is_commit e then {[txn_id e]} ∪ c else c)
                   committed entries)
      end
  end.

(** Second pass, inner loop: replay the entries of committed
    transactions, counting them; the first failing replay is returned. *)
Fixpoint replay_entries (committed : gset N) (entries : list WALEntry)
    (recovered : N) (storage : S) : result N * S :=
  match entries with
  | [] => (Ok recovered, storage)
  | entry :: rest =>
      if decide (txn_id entry ∈ committed) then
        match replay_entry storage entry with
        | (Ok _, s) => replay_entries committed rest (recovered + 1)%N s
        | (Err e, s) => (Err e, s)
        end
      else replay_entries committed rest recovered storage
  end.

Fixpoint replay_segments (committed : gset N) (segs : list Seg)
    (recovered : N) (storage : S) : result N * S :=
  match segs with
  | [] => (Ok recovered, storage)
  | seg :: rest =>
      match read_segment seg with
      | Err e => (Err e, storage)
      | Ok entries =>
          match replay_entries committed entries recovered storage with
          | (Ok r, s) => replay_segments committed rest r s
          | (Err e, s) => (Err e, s)
          end
      end
  end.

(** [WALRecovery::recover], from the list of segments on. *)
Definition recover (segments : list Seg) (storage : S) : result N * S :=
  match segments with
  | [] => (Ok 0%N, storage)
  | _ =>
      match collect_commits segments ∅ with
      | Err e => (Err e, storage)
      | Ok committed => replay_segments committed segments 0%N storage
      end
  end.

(** Reading every segment, as the passes do. *)
Fixpoint read_all (segs : list Seg) : result (list (list WALEntry)) :=
  match segs with
  | [] => Ok []
  | seg :: rest =>
      match read_segment seg, read_all rest with
      | Ok es, Ok ess => Ok (es :: ess)
      | Err e, _ => Err e
      | Ok _, Err e => Err e
      end
  end.
End Recovery.

(** Applying a list of data operations one after the other, stopping at
    the first one that fails. *)
Fixpoint apply_all {S} `{StorageBackend S} (es : list WALEntry) (storage : S)
    : result unit * S :=
  match es with
  | [] => (Ok tt, storage)
  | e :: rest =>
      match replay_entry storage e with
      | (Ok _, s) => apply_all rest s
      | (Err err, s) => (Err err, s)
      end
  end.

Definition is_data_op (e : WALEntry) : bool :=
  match operation e with
  | InsertNode _ | UpdateNode _ | DeleteNode _
  | InsertEdge _ | UpdateEdge _ | DeleteEdge _ => true
  | _ => false
  end.

(** The transaction ids that have a [CommitTxn] record in [es]. *)
Definition committed_ids (es : list WALEntry) : gset N :=
  list_to_set (map txn_id (filter (fun e => is_commit e = true) es)).

(** The committed data operations of a log, in the log's order. *)
Definition committed_data_ops (es : list WALEntry) : list WALEntry :=
  filter (fun e => txn_id e ∈ committed_ids es ∧ is_data_op e = true) es.

Fixpoint insert_by_lsn (e : WALEntry) (es : list WALEntry) : list WALEntry :=
  match es with
  | [] => [e]
  | e' :: rest => if N.leb (lsn e) (lsn e') then e :: es else e' :: insert_by_lsn e rest
  end.

Definition sort_by_lsn (es : list WALEntry) : list WALEntry :=
  foldr insert_by_lsn [] es.

(** The recovery result as the spec states it: the committed data
    operations applied in LSN order. *)
Definition spec_recovered_state {S} `{StorageBackend S}
    (es : list WALEntry) (storage : S) : S :=
  snd (apply_all (sort_by_lsn (committed_data_ops es)) storage).

(** [u32::from_le_bytes] *)
Definition u32_le (b0 b1 b2 b3 : Byte.byte) : N :=
  (Byte.to_N b0 + 256 * Byte.to_N b1 + 65536 * Byte.to_N b2
   + 16777216 * Byte.to_N b3)%N.

Section ReadSegment.
(** [bincode::deserialize::<WALEntry>] on a payload. *)
Variable deserialize : list Byte.byte -> option WALEntry.

(** The loop of [WALRecovery::read_segment] over the file's bytes.
    [read_exact] of the 4-byte prefix with fewer than 4 bytes left
    fails with [UnexpectedEof] and ends the loop; [read_exact] of the
    payload with fewer than [len] bytes left fails with
    [UnexpectedEof], propagated by [?].  Each round consumes at least
    4 bytes, so [fuel = length bytes] is never exhausted
    ([read_entries_fuel]). *)
Fixpoint read_entries (fuel : nat) (bytes : list Byte.byte)
    (entries : list WALEntry) : result (list WALEntry) :=
  match fuel with
  | O => Ok (rev entries)
  | Datatypes.S fuel' =>
      match bytes with
      | b0 :: b1 :: b2 :: b3 :: rest =>
          let len := N.to_nat (u32_le b0 b1 b2 b3) in
          if decide (len ≤ length rest)%nat then
            match deserialize (take len rest) with
            | Some entry => read_entries fuel' (drop len rest) (entry :: entries)
            | None => Err (StorageError "Deserialize error")
            end
          else Err (IoError UnexpectedEof)
      | _ => Ok (rev entries)
      end
  end.

Definition read_segment (bytes : list Byte.byte) : result (list WALEntry) :=
  read_entries (length bytes) bytes [].
End ReadSegment.

(** The writer of [src/wal/log.rs], on entries: [files] maps a segment
    number to the entries of [wal-{:08}.log] in append order (the bytes of
    an entry are its length-prefixed [bincode] frame), as they stand once
    the [BufWriter] is flushed. *)
Record WAL := mkWAL {
  files : gmap N (list WALEntry);
  current_segment : N;
  current_lsn : N;
  segment_number : N;
  entries_in_segment : N;
}.

(** [WAL::rotate_segment]: take the next segment number and open that file
    with [create(true).append(true)], which keeps an existing file's
    entries. *)
Definition rotate_segment (w : WAL) : WAL :=
  let seg := segment_number w in
  mkWAL (if decide (is_Some (files w !! seg)) then files w else <[seg := []]> (files w))
        seg (current_lsn w) (seg + 1) 0.

(** [WAL::new] on a directory already holding [dir]: every counter starts
    at 0, and the first segment is opened. *)
Definition new (dir : gmap N (list WALEntry)) : WAL :=
  rotate_segment (mkWAL dir 0 0 0 0).

(** [WAL::append(txn_id, operation)] with the clock at [now] seconds: the
    entry takes [current_lsn.fetch_add(1)] as its LSN and goes to the end
    of the current segment; then the segment rotates when the count before
    this entry is positive and a multiple of [checkpoint_threshold].  A zero
    threshold makes [%] panic ([None]). *)
Definition append (checkpoint_threshold : N) (txn_id : N) (operation : WALOperation)
    (now : N) (w : WAL) : option (N * WAL) :=
  let lsn := current_lsn w in
  let entry := mkEntry lsn txn_id operation now in
  let seg := current_segment w in
  let w' := mkWAL (<[seg := default [] (files w !! seg) ++ [entry]]> (files w))
                  seg (lsn + 1) (segment_number w) (entries_in_segment w + 1) in
  let entries := entries_in_segment w in
  if (0 <? entries)%N then
    if (checkpoint_threshold =? 0)%N then None
    else if (entries mod checkpoint_threshold =? 0)%N then Some (lsn, rotate_segment w')
    else Some (lsn, w')
  else Some (lsn, w').

(** A run of appends [(txn_id, operation, now)], in order. *)
Fixpoint append_all (checkpoint_threshold : N) (ops : list (N * WALOperation * N)) (w : WAL)
    : option WAL :=
  match ops with
  | [] => Some w
  | (txn, op, now) :: rest =>
      match append checkpoint_threshold txn op now w with
      | Some (_, w') => append_all checkpoint_threshold rest w'
      | None => None
      end
  end.
End Wal.

(* ------------------------------------------------------------------ *)
(** ** MVCC versions and snapshots ([src/mvcc/version.rs], [src/mvcc/snapshot.rs]) *)

Module Mvcc.
(** [TransactionId(u64)] and [Timestamp = u64]. *)
Abbreviation TransactionId := N (only parsing).
Abbreviation Timestamp := N (only parsing).

Record Version (T : Type) := mkVersion {
  data : T;
  xmin : TransactionId;
  xmax : option TransactionId;
  created_at : Timestamp;
  deleted_at : option Timestamp;
}.
Arguments mkVersion {T}.
Arguments data {T}.
Arguments xmin {T}.
Arguments xmax {T}.
Arguments created_at {T}.
Arguments deleted_at {T}.

(** [Version::is_visible(snapshot_ts)] *)
Definition is_visible {T} (v : Version T) (snapshot_ts : Timestamp) : bool :=
  if N.ltb snapshot_ts (created_at v) then false
  else match deleted_at v with
       | Some d => if N.leb d snapshot_ts then false else true
       | None => true
       end.

(** [VersionChain]: the versions, newest first. *)
Definition VersionChain (T : Type) := list (Version T).

(** [VersionChain::get_visible_version(snapshot_ts)]: the data of the
    first version, newest first, that [is_visible] accepts. *)
Fixpoint get_visible_version {T} (versions : VersionChain T)
    (snapshot_ts : Timestamp) : option T :=
  match versions with
  | [] => None
  | v :: rest =>
      if is_visible v snapshot_ts then Some (data v)
      else get_visible_version rest snapshot_ts
  end.

(** [Version::new(data, txn_id, timestamp)] *)
Definition Version_new {T} (data : T) (txn_id : TransactionId) (timestamp : Timestamp)
    : Version T :=
  mkVersion data txn_id None timestamp None.

(** [Version::mark_deleted(txn_id, timestamp)] *)
Definition mark_deleted {T} (v : Version T) (txn_id : TransactionId)
    (timestamp : Timestamp) : Version T :=
  mkVersion (data v) (xmin v) (Some txn_id) (created_at v) (Some timestamp).

(** [Version::is_active]: [self.xmax.is_none()] *)
Definition is_active {T} (v : Version T) : bool :=
  match xmax v with None => true | Some _ => false end.

(** [VersionChain::new] *)
Definition VersionChain_new {T} : VersionChain T := [].

(** [VersionChain::add_version]: [versions.insert(0, version)] *)
Definition add_version {T} (versions : VersionChain T) (version : Version T)
    : VersionChain T :=
  version :: versions.

(** [VersionChain::get_latest_active]: the data of the first active
    version. *)
Fixpoint get_latest_active {T} (versions : VersionChain T) : option T :=
  match versions with
  | [] => None
  | v :: rest => if is_active v then Some (data v) else get_latest_active rest
  end.

(** [VersionChain::mark_latest_deleted]: [first_mut()] is the newest. *)
Definition mark_latest_deleted {T} (versions : VersionChain T)
    (txn_id : TransactionId) (timestamp : Timestamp) : VersionChain T :=
  match versions with
  | [] => []
  | v :: rest => mark_deleted v txn_id timestamp :: rest
  end.

(** [VersionChain::gc]: [retain(|v| v.is_active() ||
    v.deleted_at.map_or(true, |ts| ts >= min_snapshot_ts))] *)
Definition gc_keep {T} (min_snapshot_ts : Timestamp) (v : Version T) : bool :=
  is_active v ||
  match deleted_at v with None => true | Some ts => N.leb min_snapshot_ts ts end.

Definition gc {T} (versions : VersionChain T) (min_snapshot_ts : Timestamp)
    : VersionChain T :=
  filter (fun v => gc_keep min_snapshot_ts v = true) versions.

Definition version_count {T} (versions : VersionChain T) : nat := length versions.

Record Snapshot := mkSnapshot {
  timestamp : Timestamp;
  active_txns : gset TransactionId;
}.

(** [Snapshot::is_txn_visible] *)
Definition is_txn_visible (s : Snapshot) (txn_id : TransactionId) : bool :=
  if N.leb (timestamp s) txn_id then false
  else negb (bool_decide (txn_id ∈ active_txns s)).

(** [Snapshot::is_version_visible] *)
Definition is_version_visible (s : Snapshot) (xmin : TransactionId)
    (xmax : option TransactionId) : bool :=
  if negb (is_txn_visible s xmin) then false
  else match xmax with
       | Some x => if is_txn_visible s x then false else true
       | None => true
       end.

(** The visibility predicate as the spec states it. *)
Definition spec_visible {T} (s : Snapshot) (v : Version T) : Prop :=
  N.lt (xmin v) (timestamp s) ∧ (xmin v ∉ active_txns s) ∧
  (xmax v = None ∨
   (∃ x, xmax v = Some x ∧ N.le (timestamp s) x) ∨
   (∃ x, xmax v = Some x ∧ x ∈ active_txns s)).

(** A chain lookup as the spec states it: the data of the first version,
    newest first, visible to the snapshot. *)
Fixpoint spec_chain_lookup {T} (s : Snapshot) (versions : VersionChain T) : option T :=
  match versions with
  | [] => None
  | v :: rest =>
      if is_version_visible s (xmin v) (xmax v) then Some (data v)
      else spec_chain_lookup s rest
  end.
End Mvcc.

(* ------------------------------------------------------------------ *)
(** ** The deadlock detector ([src/mvcc/deadlock.rs]) *)

Module Deadlock.
Abbreviation TransactionId := N (only parsing).
(** [ResourceId(u64)] *)
Abbreviation ResourceId := N (only parsing).

Record DeadlockDetector := mk {
  wait_for : gmap TransactionId (gset TransactionId);
  lock_holders : gmap ResourceId TransactionId;
}.

Definition new : DeadlockDetector := mk ∅ ∅.

(** The loop of [dfs_cycle_check] over the wait set of a node; [dfs] is
    the recursive call.  [None] is the model's out-of-fuel result. *)
Definition dfs_loop
    (dfs : TransactionId -> gset TransactionId -> gset TransactionId ->
           option (bool * gset TransactionId * gset TransactionId))
    : list TransactionId -> gset TransactionId -> gset TransactionId ->
      option (bool * gset TransactionId * gset TransactionId) :=
  fix loop ns visited rec_stack :=
    match ns with
    | [] => Some (false, visited, rec_stack)
    | neighbor :: ns' =>
        if decide (neighbor ∉ visited) then
          match dfs neighbor visited rec_stack with
          | Some (true, v, r) => Some (true, v, r)
          | Some (false, v, r) => loop ns' v r
          | None => None
          end
        else if decide (neighbor ∈ rec_stack) then
          Some (true, visited, rec_stack)
        else loop ns' visited rec_stack
    end.

(** [dfs_cycle_check(node, visited, rec_stack)]: mark the node, walk its
    wait set, and unmark it from the recursion stack when no back edge
    was found.  The wait set is walked in [elements] order (the
    [HashSet]'s order is unspecified; the proofs below hold for any
    order).  Every recursive call is made on a node not yet visited, so
    the depth never exceeds the number of transactions in the graph;
    [has_cycle] passes that bound as fuel ([has_cycle_fuel_enough]). *)
Fixpoint dfs_cycle_check (fuel : nat) (wf : gmap TransactionId (gset TransactionId))
    (node : TransactionId) (visited rec_stack : gset TransactionId)
    : option (bool * gset TransactionId * gset TransactionId) :=
  match fuel with
  | O => None
  | S fuel' =>
      let visited := {[node]} ∪ visited in
      let rec_stack := {[node]} ∪ rec_stack in
      match dfs_loop (dfs_cycle_check fuel' wf)
              (elements (default ∅ (wf !! node))) visited rec_stack with
      | Some (false, v, r) => Some (false, v, r ∖ {[node]})
      | res => res
      end
  end.

(** Every transaction mentioned by the wait-for graph. *)
Definition txns (wf : gmap TransactionId (gset TransactionId)) : gset TransactionId :=
  dom wf ∪ map_fold (fun _ s acc => s ∪ acc) ∅ wf.

(** [has_cycle(start)]. *)
Definition has_cycle (d : DeadlockDetector) (start : TransactionId) : bool :=
  let wf := wait_for d in
  match dfs_cycle_check (S (size ({[start]} ∪ txns wf))) wf start ∅ ∅ with
  | Some (b, _, _) => b
  | None => true
  end.

Definition deadlock_msg : string := "Deadlock detected".
Definition locked_msg : string := "Resource locked".

(** [request_lock(txn_id, resource_id)]. *)
Definition request_lock (d : DeadlockDetector) (txn_id : TransactionId)
    (resource_id : ResourceId) : result unit * DeadlockDetector :=
  match lock_holders d !! resource_id with
  | Some holder_id =>
      if decide (holder_id = txn_id) then (Ok tt, d)
      else
        let d1 := mk (<[txn_id := {[holder_id]} ∪ default ∅ (wait_for d !! txn_id)]>
                        (wait_for d)) (lock_holders d) in
        if has_cycle d1 txn_id then
          let wf2 := match wait_for d1 !! txn_id with
                     | Some entry => <[txn_id := entry ∖ {[holder_id]}]> (wait_for d1)
                     | None => wait_for d1
                     end in
          (Err (TransactionError deadlock_msg), mk wf2 (lock_holders d1))
        else (Err (TransactionError locked_msg), d1)
  | None => (Ok tt, mk (wait_for d) (<[resource_id := txn_id]> (lock_holders d)))
  end.

(** [release_lock(_txn_id, resource_id)] *)
Definition release_lock (d : DeadlockDetector) (_txn_id : TransactionId)
    (resource_id : ResourceId) : DeadlockDetector :=
  mk (wait_for d) (delete resource_id (lock_holders d)).

(** [release_all_locks(txn_id)] *)
Definition release_all_locks (d : DeadlockDetector) (txn_id : TransactionId)
    : DeadlockDetector :=
  mk (delete txn_id (wait_for d))
     (filter (fun '(_, holder) => holder ≠ txn_id) (lock_holders d)).

(** The public operations, for running sequences of them. *)
Inductive DetectorOp :=
| RequestLock (t : TransactionId) (r : ResourceId)
| ReleaseLock (t : TransactionId) (r : ResourceId)
| ReleaseAllLocks (t : TransactionId).

Definition step (d : DeadlockDetector) (op : DetectorOp) : DeadlockDetector :=
  match op with
  | RequestLock t r => snd (request_lock d t r)
  | ReleaseLock t r => release_lock d t r
  | ReleaseAllLocks t => release_all_locks d t
  end.

Definition run (ops : list DetectorOp) (d : DeadlockDetector) : DeadlockDetector :=
  foldl step d ops.

(** The wait-for relation: [x] waits for [y]. *)
Definition waits (d : DeadlockDetector) (x y : TransactionId) : Prop :=
  ∃ s, wait_for d !! x = Some s ∧ y ∈ s.

Definition acyclic (d : DeadlockDetector) : Prop :=
  ∀ x, ¬ clos_trans TransactionId (waits d) x x.

(** One round of the inner loop of [get_deadlocked_txns]: an unvisited
    neighbour is marked and queued. *)
Definition bfs_visit (acc : gset TransactionId * list TransactionId) (neighbor : TransactionId)
    : gset TransactionId * list TransactionId :=
  let '(visited, queue) := acc in
  if decide (neighbor ∉ visited) then ({[neighbor]} ∪ visited, queue ++ [neighbor])
  else (visited, queue).

(** The [while let Some(txn) = queue.pop_front()] loop; [None] is the
    model's out-of-fuel result. *)
Fixpoint bfs (fuel : nat) (wf : gmap TransactionId (gset TransactionId))
    (queue : list TransactionId) (visited : gset TransactionId) (result : list TransactionId)
    : option (list TransactionId) :=
  match fuel with
  | O => None
  | S fuel' =>
      match queue with
      | [] => Some result
      | txn :: queue' =>
          let '(visited', queue'') :=
            foldl bfs_visit (visited, queue') (elements (default ∅ (wf !! txn))) in
          bfs fuel' wf queue'' visited' (result ++ [txn])
      end
  end.

(** [get_deadlocked_txns(start)]: every transaction is queued at most
    once, so the loop runs at most once per transaction of the graph
    (and [start]), plus the final empty check. *)
Definition get_deadlocked_txns (d : DeadlockDetector) (start : TransactionId)
    : list TransactionId :=
  default [] (bfs (S (size ({[start]} ∪ txns (wait_for d)))) (wait_for d)
                  [start] {[start]} []).
End Deadlock.

(* ------------------------------------------------------------------ *)
(** ** Byte strings *)

Module Bytes.
(** Byte equality is decidable. *)
#[global] Instance byte_eq_decision : EqDecision Byte.byte := Byte.byte_eq_dec.

Definition byte_of_Z (z : Z) : Byte.byte :=
  match Byte.of_N (Z.to_N (Z.land z 255)) with
  | Some b => b
  | None => Byte.x00
  end.

(** The [n] low-order bytes of [z] in two's complement, least
    significant first ([to_le_bytes]). *)
Definition le_bytes (n : nat) (z : Z) : list Byte.byte :=
  map (fun i => byte_of_Z (Z.shiftr z (8 * Z.of_nat i))) (seq 0 n).

(** The number whose big-endian encoding is [bs]. *)
Definition be_value (bs : list Byte.byte) : N :=
  foldl (fun acc b => acc * 256 + Byte.to_N b)%N 0%N bs.

Fixpoint eqb (a b : list Byte.byte) : bool :=
  match a, b with
  | [], [] => true
  | x :: a', y :: b' => Byte.eqb x y && eqb a' b'
  | _, _ => false
  end.

(** The order of [&[u8]] (and of sled keys): lexicographic on bytes. *)
Fixpoint compare (a b : list Byte.byte) : comparison :=
  match a, b with
  | [], [] => Eq
  | [], _ :: _ => Lt
  | _ :: _, [] => Gt
  | x :: a', y :: b' =>
      match N.compare (Byte.to_N x) (Byte.to_N y) with
      | Eq => compare a' b'
      | c => c
      end
  end.

Definition ltb (a b : list Byte.byte) : bool :=
  match compare a b with Lt => true | _ => false end.
Definition leb (a b : list Byte.byte) : bool :=
  match compare a b with Gt => false | _ => true end.

Fixpoint is_prefix (p a : list Byte.byte) : bool :=
  match p, a with
  | [], _ => true
  | x :: p', y :: a' => Byte.eqb x y && is_prefix p' a'
  | _ :: _, [] => false
  end.
End Bytes.

(* ------------------------------------------------------------------ *)
(** ** Secondary indices ([src/index/mod.rs], [btree.rs], [hash.rs], [manager.rs]) *)

Module Index.
(** The bit pattern of an [f64] ([f64::to_bits]); NaNs are all the
    canonical quiet NaN, the model's floats carry no payload. *)
Definition f64_bits (f : float) : Z :=
  match Prim2SF f with
  | S754_zero s => if s then 2 ^ 63 else 0
  | S754_infinity s => (if s then 2 ^ 63 else 0) + 2047 * 2 ^ 52
  | S754_nan => 2047 * 2 ^ 52 + 2 ^ 51
  | S754_finite s m e =>
      let sign := if s then 2 ^ 63 else 0 in
      if Z.pos m <? 2 ^ 52 then sign + Z.pos m
      else sign + (e + 1075) * 2 ^ 52 + (Z.pos m - 2 ^ 52)
  end.

Section Encoding.
(** [serde_json::to_vec(value).unwrap_or_default()], used for lists and
    maps only. *)
Variable serde_json_to_vec : PropertyValue.t -> list Byte.byte.

(** [property_to_bytes] *)
Definition property_to_bytes (value : PropertyValue.t) : list Byte.byte :=
  match value with
  | PropertyValue.String s => String.list_byte_of_string s
  | PropertyValue.Integer i => Bytes.le_bytes 8 i
  | PropertyValue.Float f => Bytes.le_bytes 8 (f64_bits f)
  | PropertyValue.Boolean b => [if b then Byte.x01 else Byte.x00]
  | PropertyValue.Null => [Byte.x00]
  | PropertyValue.List _ | PropertyValue.Map _ => serde_json_to_vec value
  end.
End Encoding.

(** [BTreeIndex]: the sled tree's keys, kept in ascending byte order
    (the payload of every key is empty). *)
Definition BTreeIndex := list (list Byte.byte).

(** [Uuid::as_bytes]: the 16 bytes of the UUID, most significant first. *)
Definition encode_node_id (node_id : NodeId) : list Byte.byte :=
  rev (Bytes.le_bytes 16 (Z.of_N node_id)).

(** [Uuid::from_slice]: exactly 16 bytes. *)
Definition decode_node_id (bytes : list Byte.byte) : result NodeId :=
  if Nat.eqb (length bytes) 16 then Ok (Bytes.be_value bytes)
  else Err (StorageError "invalid node id").

Definition make_key (key : list Byte.byte) (node_id : NodeId) : list Byte.byte :=
  key ++ encode_node_id node_id.

(** [tree.insert(k, &[])] in the ordered key set. *)
Fixpoint tree_insert (k : list Byte.byte) (keys : BTreeIndex) : BTreeIndex :=
  match keys with
  | [] => [k]
  | k' :: rest =>
      match Bytes.compare k k' with
      | Lt => k :: keys
      | Eq => keys
      | Gt => k' :: tree_insert k rest
      end
  end.

Definition btree_insert (key : list Byte.byte) (value : NodeId) (t : BTreeIndex)
    : result unit * BTreeIndex :=
  (Ok tt, tree_insert (make_key key value) t).

(** [BTreeIndex::lookup]: [scan_prefix(key)], the id after the prefix. *)
Definition btree_lookup (key : list Byte.byte) (t : BTreeIndex) : result (list NodeId) :=
  Ok (fold_right (fun ck acc =>
        if Bytes.is_prefix key ck && Nat.ltb (length key) (length ck) then
          match decode_node_id (drop (length key) ck) with
          | Ok id => id :: acc
          | Err _ => acc
          end
        else acc) [] t).

(** [BTreeIndex::range]: [tree.range(start..end)], the last 16 bytes of
    each key in the range. *)
Definition btree_range (start end_ : list Byte.byte) (t : BTreeIndex)
    : result (list NodeId) :=
  Ok (fold_right (fun ck acc =>
        if Bytes.leb start ck && Bytes.ltb ck end_ then
          if Nat.leb 16 (length ck) then
            match decode_node_id (drop (length ck - 16) ck) with
            | Ok id => id :: acc
            | Err _ => acc
            end
          else acc
        else acc) [] t).

(** [BTreeIndex::remove]: [tree.remove(make_key(key, value))]. *)
Definition tree_remove (k : list Byte.byte) (keys : BTreeIndex) : BTreeIndex :=
  filter (fun k' => Bytes.eqb k' k = false) keys.

Definition btree_remove (key : list Byte.byte) (value : NodeId) (t : BTreeIndex)
    : result unit * BTreeIndex :=
  (Ok tt, tree_remove (make_key key value) t).

(** [BTreeIndex::keys]: every key of the tree, in order. *)
Definition btree_keys (t : BTreeIndex) : result (list (list Byte.byte)) := Ok t.

(** [HashIndex]: the [DashMap<Vec<u8>, Vec<NodeId>>] as its entries. *)
Definition HashIndex := list (list Byte.byte * list NodeId).

Fixpoint hash_get (key : list Byte.byte) (h : HashIndex) : option (list NodeId) :=
  match h with
  | [] => None
  | (k, ids) :: rest => if Bytes.eqb k key then Some ids else hash_get key rest
  end.

(** [entry(key).or_insert_with(Vec::new).push(value)] *)
Fixpoint hash_insert (key : list Byte.byte) (value : NodeId) (h : HashIndex) : HashIndex :=
  match h with
  | [] => [(key, [value])]
  | (k, ids) :: rest =>
      if Bytes.eqb k key then (k, ids ++ [value]) :: rest
      else (k, ids) :: hash_insert key value rest
  end.

Definition hash_lookup (key : list Byte.byte) (h : HashIndex) : result (list NodeId) :=
  Ok (default [] (hash_get key h)).

(** [HashIndex::remove]: [retain(|&id| id != value)] on the key's list,
    and the entry itself is removed once its list is empty. *)
Fixpoint hash_remove (key : list Byte.byte) (value : NodeId) (h : HashIndex) : HashIndex :=
  match h with
  | [] => []
  | (k, ids) :: rest =>
      if Bytes.eqb k key then
        match filter (fun id => id ≠ value) ids with
        | [] => rest
        | ids' => (k, ids') :: rest
        end
      else (k, ids) :: hash_remove key value rest
  end.

(** [HashIndex::keys] *)
Definition hash_keys (h : HashIndex) : result (list (list Byte.byte)) := Ok (map fst h).

(** [HashIndex::len] *)
Definition hash_len (h : HashIndex) : nat := length h.

(** [HashIndex::range]: always [Ok(Vec::new())]. *)
Definition hash_range (_start _end : list Byte.byte) (_h : HashIndex) : result (list NodeId) :=
  Ok [].

Inductive IndexType := Hash | BTree.

Record IndexConfig := mkConfig {
  name : string;
  index_type : IndexType;
  property_key : option string;
  is_label_index : bool;
}.

Inductive IndexImpl :=
| HashImpl (h : HashIndex)
| BTreeImpl (b : BTreeIndex).

Record IndexManager := mkManager {
  indices : gmap string IndexImpl;
  label_indices : gmap string string;
  property_indices : gmap string string;
}.

Definition new : IndexManager := mkManager ∅ ∅ ∅.

(** [IndexManager::create_index].  [open_btree name] is the outcome of
    opening the sled tree of a B-tree index: [BTreeIndex::new(base_dir.join(name), name)]
    on a manager with a [base_dir], [BTreeIndex::new_temp()] on one without.
    Either may fail with a [StorageError] (the [?]), and then nothing is
    registered; a persistent tree that opens keeps the keys it already holds. *)
Definition create_index_with (open_btree : string -> result BTreeIndex)
    (config : IndexConfig) (m : IndexManager) : result unit * IndexManager :=
  let opened := match index_type config with
                | Hash => Ok (HashImpl [])
                | BTree => match open_btree (name config) with
                           | Ok t => Ok (BTreeImpl t)
                           | Err e => Err e
                           end
                end in
  match opened with
  | Err e => (Err e, m)
  | Ok index_impl =>
      let idx := <[name config := index_impl]> (indices m) in
      if is_label_index config then
        (Ok tt, mkManager idx (<[name config := name config]> (label_indices m))
                          (property_indices m))
      else match property_key config with
           | Some prop_key =>
               (Ok tt, mkManager idx (label_indices m)
                                 (<[prop_key := name config]> (property_indices m)))
           | None => (Ok tt, mkManager idx (label_indices m) (property_indices m))
           end
  end.

(** [IndexManager::create_index] on a manager built by [IndexManager::new]
    (no [base_dir]) when [BTreeIndex::new_temp()] succeeds: the fresh
    temporary sled tree is empty. *)
Definition create_index : IndexConfig -> IndexManager -> result unit * IndexManager :=
  create_index_with (fun _ => Ok []).

(** [IndexConfig::label_index] and [IndexConfig::property_index] *)
Definition label_index (name : string) (index_type : IndexType) : IndexConfig :=
  mkConfig name index_type None true.

Definition property_index (name : string) (index_type : IndexType) (property_key : string)
    : IndexConfig :=
  mkConfig name index_type (Some property_key) false.

(** [IndexManager::drop_index]: remove the index (or fail), then every
    label and property entry that names it. *)
Definition drop_index (name : string) (m : IndexManager) : result unit * IndexManager :=
  match indices m !! name with
  | None => (Err (StorageError ("Index " ++ name ++ " not found")), m)
  | Some _ =>
      (Ok tt, mkManager (delete name (indices m))
                        (filter (fun '(_, v) => v ≠ name) (label_indices m))
                        (filter (fun '(_, v) => v ≠ name) (property_indices m)))
  end.

(** [IndexManager::insert_label]: the label's bytes go into the index
    registered for the label. *)
Definition insert_label (label : string) (node_id : NodeId) (m : IndexManager)
    : result unit * IndexManager :=
  let bytes := String.list_byte_of_string label in
  match label_indices m !! label with
  | Some index_name =>
      match indices m !! index_name with
      | Some (HashImpl h) =>
          (Ok tt, mkManager (<[index_name := HashImpl (hash_insert bytes node_id h)]>
                              (indices m)) (label_indices m) (property_indices m))
      | Some (BTreeImpl b) =>
          let '(r, b') := btree_insert bytes node_id b in
          (r, mkManager (<[index_name := BTreeImpl b']> (indices m))
                        (label_indices m) (property_indices m))
      | None => (Ok tt, m)
      end
  | None => (Ok tt, m)
  end.

(** [IndexManager::lookup_label] *)
Definition lookup_label (label : string) (m : IndexManager) : result (list NodeId) :=
  let bytes := String.list_byte_of_string label in
  match label_indices m !! label with
  | Some index_name =>
      match indices m !! index_name with
      | Some (HashImpl h) => hash_lookup bytes h
      | Some (BTreeImpl b) => btree_lookup bytes b
      | None => Ok []
      end
  | None => Ok []
  end.

Definition has_label_index (label : string) (m : IndexManager) : bool :=
  bool_decide (is_Some (label_indices m !! label)).

Definition has_property_index (key : string) (m : IndexManager) : bool :=
  bool_decide (is_Some (property_indices m !! key)).

(** [IndexManager::list_indices], in the map's iteration order. *)
Definition list_indices (m : IndexManager) : list string := (map_to_list (indices m)).*1.

Definition index_count (m : IndexManager) : nat := size (indices m).

Section Manager.
Variable serde_json_to_vec : PropertyValue.t -> list Byte.byte.
Let to_bytes := property_to_bytes serde_json_to_vec.

(** [IndexManager::insert_property] *)
Definition insert_property (key : string) (value : PropertyValue.t) (node_id : NodeId)
    (m : IndexManager) : result unit * IndexManager :=
  match property_indices m !! key with
  | Some index_name =>
      match indices m !! index_name with
      | Some (HashImpl h) =>
          (Ok tt, mkManager (<[index_name := HashImpl (hash_insert (to_bytes value) node_id h)]>
                              (indices m)) (label_indices m) (property_indices m))
      | Some (BTreeImpl b) =>
          let '(r, b') := btree_insert (to_bytes value) node_id b in
          (r, mkManager (<[index_name := BTreeImpl b']> (indices m))
                        (label_indices m) (property_indices m))
      | None => (Ok tt, m)
      end
  | None => (Ok tt, m)
  end.

(** [IndexManager::lookup_property] *)
Definition lookup_property (key : string) (value : PropertyValue.t) (m : IndexManager)
    : result (list NodeId) :=
  match property_indices m !! key with
  | Some index_name =>
      match indices m !! index_name with
      | Some (HashImpl h) => hash_lookup (to_bytes value) h
      | Some (BTreeImpl b) => btree_lookup (to_bytes value) b
      | None => Ok []
      end
  | None => Ok []
  end.

Definition range_msg : string := "Range queries not supported on hash indices".

(** [IndexManager::range_property] *)
Definition range_property (key : string) (start end_ : PropertyValue.t) (m : IndexManager)
    : result (list NodeId) :=
  match property_indices m !! key with
  | Some index_name =>
      match indices m !! index_name with
      | Some (BTreeImpl b) => btree_range (to_bytes start) (to_bytes end_) b
      | Some (HashImpl _) => Err (StorageError range_msg)
      | None => Ok []
      end
  | None => Ok []
  end.
End Manager.
End Index.

(* ------------------------------------------------------------------ *)
(** ** Query execution ([src/query/ast.rs], [src/query/executor.rs]) *)

Module Executor.
Import PropertyValue.

Inductive Expression :=
| Literal (v : PropertyValue.t)
| Var (name : string)  (* [Variable] *)
| Property (base : Expression) (prop : string)
| And (l r : Expression)
| Or (l r : Expression)
| Eq (l r : Expression)
| Ne (l r : Expression)
| Lt (l r : Expression)
| Le (l r : Expression)
| Gt (l r : Expression)
| Ge (l r : Expression)
| Add (l r : Expression)
| Sub (l r : Expression)
| Mul (l r : Expression)
| Div (l r : Expression)
| Mod (l r : Expression)
| Not (e : Expression)
| Neg (e : Expression)
| FunctionCall (name : string) (args : list Expression) (distinct : bool)
| Param (name : string).  (* [Parameter] *)

Definition Row := gmap string PropertyValue.t.

(** A computation that may panic ([None]) or return a [Result]. *)
Abbreviation outcome A := (option (result A)).

Definition bind {A B} (m : outcome A) (k : A -> outcome B) : outcome B :=
  match m with
  | None => None
  | Some (Err e) => Some (Err e)
  | Some (Ok a) => k a
  end.
Local Notation "'let?' x ':=' m 'in' k" := (bind m (fun x => k))
  (at level 200, x name, m at level 100, k at level 200).

Definition ret {A} (a : A) : outcome A := Some (Ok a).
Definition fail {A} (msg : string) : outcome A := Some (Err (InvalidOperation msg)).

Definition ord_i32 (c : comparison) : Z :=
  match c with Datatypes.Lt => -1 | Datatypes.Eq => 0 | Datatypes.Gt => 1 end.

Definition float_cmp (l r : float) : Z :=
  if PrimFloat.ltb l r then -1 else if PrimFloat.ltb r l then 1 else 0.

Definition bool_cmp (l r : bool) : comparison :=
  match l, r with
  | false, true => Datatypes.Lt
  | true, false => Datatypes.Gt
  | _, _ => Datatypes.Eq
  end.

(** [compare_values] *)
Definition compare_values (left right : PropertyValue.t) : result Z :=
  match left, right with
  | Integer l, Integer r => Ok (ord_i32 (Z.compare l r))
  | Float l, Float r => Ok (float_cmp l r)
  | Integer l, Float r => Ok (float_cmp (I64.to_f64 l) r)
  | Float l, Integer r => Ok (float_cmp l (I64.to_f64 r))
  | String l, String r => Ok (ord_i32 (String.compare l r))
  | Boolean l, Boolean r => Ok (ord_i32 (bool_cmp l r))
  | _, _ => Err (InvalidOperation "Cannot compare incompatible types")
  end.

(** [add_values]; [l + r] on [i64] panics when it overflows. *)
Definition add_values (left right : PropertyValue.t) : outcome PropertyValue.t :=
  match left, right with
  | Integer l, Integer r =>
      match I64.add l r with
      | Some v => ret (Integer v)
      | None => None
      end
  | Float l, Float r => ret (Float (l + r)%float)
  | Integer l, Float r => ret (Float (I64.to_f64 l + r)%float)
  | Float l, Integer r => ret (Float (l + I64.to_f64 r)%float)
  | String l, String r => ret (String (l ++ r)%string)
  | _, _ => fail "Cannot add incompatible types"
  end.

Definition sub_values (left right : PropertyValue.t) : outcome PropertyValue.t :=
  match left, right with
  | Integer l, Integer r =>
      match I64.sub l r with
      | Some v => ret (Integer v)
      | None => None
      end
  | Float l, Float r => ret (Float (l - r)%float)
  | Integer l, Float r => ret (Float (I64.to_f64 l - r)%float)
  | Float l, Integer r => ret (Float (l - I64.to_f64 r)%float)
  | _, _ => fail "Cannot subtract incompatible types"
  end.

Definition mul_values (left right : PropertyValue.t) : outcome PropertyValue.t :=
  match left, right with
  | Integer l, Integer r =>
      match I64.mul l r with
      | Some v => ret (Integer v)
      | None => None
      end
  | Float l, Float r => ret (Float (l * r)%float)
  | Integer l, Float r => ret (Float (I64.to_f64 l * r)%float)
  | Float l, Integer r => ret (Float (l * I64.to_f64 r)%float)
  | _, _ => fail "Cannot multiply incompatible types"
  end.

Definition div_by_zero : string := "Division by zero".

(** [div_values]; [l / r] on [i64] panics when it overflows. *)
Definition div_values (left right : PropertyValue.t) : outcome PropertyValue.t :=
  match left, right with
  | Integer l, Integer r =>
      if Z.eqb r 0 then fail div_by_zero
      else match I64.div l r with
           | Some q => ret (Integer q)
           | None => None
           end
  | Float l, Float r =>
      if PrimFloat.eqb r 0%float then fail div_by_zero else ret (Float (l / r)%float)
  | Integer l, Float r =>
      if PrimFloat.eqb r 0%float then fail div_by_zero
      else ret (Float (I64.to_f64 l / r)%float)
  | Float l, Integer r =>
      if Z.eqb r 0 then fail div_by_zero else ret (Float (l / I64.to_f64 r)%float)
  | _, _ => fail "Cannot divide incompatible types"
  end.

Definition lift {A} (r : result A) : outcome A := Some r.

(** [evaluate_value] *)
Fixpoint evaluate_value (expr : Expression) (row : Row) : outcome PropertyValue.t :=
  match expr with
  | Literal v => ret v
  | Var name =>
      match row !! name with
      | Some v => ret v
      | None => fail ("Variable not found: " ++ name)
      end
  | Property base prop =>
      match base with
      | Var var_name =>
          match row !! prop with
          | Some v => ret v
          | None => fail ("Property not found: " ++ var_name ++ "." ++ prop)
          end
      | _ => fail "Complex property access not yet supported"
      end
  | Add l r =>
      let? lv := evaluate_value l row in let? rv := evaluate_value r row in add_values lv rv
  | Sub l r =>
      let? lv := evaluate_value l row in let? rv := evaluate_value r row in sub_values lv rv
  | Mul l r =>
      let? lv := evaluate_value l row in let? rv := evaluate_value r row in mul_values lv rv
  | Div l r =>
      let? lv := evaluate_value l row in let? rv := evaluate_value r row in div_values lv rv
  | Neg inner =>
      let? v := evaluate_value inner row in
      match v with
      | Integer i =>
          match I64.neg i with
          | Some n => ret (Integer n)
          | None => None
          end
      | Float f => ret (Float (- f)%float)
      | _ => fail "Cannot negate non-numeric value"
      end
  | _ => fail "Expression evaluation not yet implemented"
  end.

(** The truthiness of the catch-all branch of [evaluate_predicate]. *)
Definition truthy (v : PropertyValue.t) : bool :=
  match v with
  | Boolean b => b
  | Null => false
  | _ => true
  end.

Definition compared (l r : Expression) (row : Row) (test : Z -> bool) : outcome bool :=
  let? lv := evaluate_value l row in let? rv := evaluate_value r row in
  let? c := lift (compare_values lv rv) in ret (test c).

(** [evaluate_predicate] *)
Fixpoint evaluate_predicate (expr : Expression) (row : Row) : outcome bool :=
  match expr with
  | And l r =>
      let? lv := evaluate_predicate l row in let? rv := evaluate_predicate r row in ret (lv && rv)
  | Or l r =>
      let? lv := evaluate_predicate l row in let? rv := evaluate_predicate r row in ret (lv || rv)
  | Not inner => let? v := evaluate_predicate inner row in ret (negb v)
  | Eq l r =>
      let? lv := evaluate_value l row in let? rv := evaluate_value r row in ret (PropertyValue.eqb lv rv)
  | Ne l r =>
      let? lv := evaluate_value l row in let? rv := evaluate_value r row in
      ret (negb (PropertyValue.eqb lv rv))
  | Lt l r => compared l r row (fun c => c <? 0)
  | Le l r => compared l r row (fun c => c <=? 0)
  | Gt l r => compared l r row (fun c => 0 <? c)
  | Ge l r => compared l r row (fun c => 0 <=? c)
  | _ => let? v := evaluate_value expr row in ret (truthy v)
  end.

(** The rows kept by [execute_filter]: [evaluate_predicate(..).unwrap_or(false)];
    [None] when evaluating the predicate panics on some row. *)
Fixpoint execute_filter (predicate : Expression) (rows : list Row) : option (list Row) :=
  match rows with
  | [] => Some []
  | row :: rest =>
      match evaluate_predicate predicate row, execute_filter predicate rest with
      | None, _ | _, None => None
      | Some (Ok true), Some kept => Some (row :: kept)
      | Some _, Some kept => Some kept
      end
  end.

(** [Expression] contains none of the arithmetic nodes whose [i64] case can
    panic: [Add], [Subtract], [Multiply], [Divide] and [Negate]. *)
Fixpoint arith_free (e : Expression) : bool :=
  match e with
  | Add _ _ | Sub _ _ | Mul _ _ | Div _ _ | Neg _ => false
  | Literal _ | Var _ | Param _ => true
  | Property base _ => arith_free base
  | Not inner => arith_free inner
  | And l r | Or l r | Eq l r | Ne l r | Lt l r | Le l r | Gt l r | Ge l r
  | Mod l r => arith_free l && arith_free r
  | FunctionCall _ args _ =>
      (fix go (args : list Expression) : bool :=
         match args with [] => true | a :: args' => arith_free a && go args' end) args
  end.

(** [enum PhysicalPlan] ([src/query/planner.rs]). *)
Inductive PhysicalPlan :=
| Scan (label : option string)
| HashIndexScan (index_name : string) (key : list Byte.byte)
| BTreeRangeScan (index_name : string) (start end_ : list Byte.byte)
| Filter (source : PhysicalPlan) (predicate : Expression)
| Project (source : PhysicalPlan) (columns : list string).

(** The filter predicates of a plan are [arith_free]. *)
Fixpoint plan_arith_free (plan : PhysicalPlan) : bool :=
  match plan with
  | Filter source predicate => plan_arith_free source && arith_free predicate
  | Project source _ => plan_arith_free source
  | _ => true
  end.

(** [struct QueryResult] without [execution_time_ms], which [execute]
    sets from the wall clock. *)
Record QueryResult := mkQueryResult {
  columns : list string;
  rows : list Row;
  row_count : nat;
}.

(** [QueryResult::empty] *)
Definition QueryResult_empty : QueryResult := mkQueryResult [] [] 0.

(** [QueryResult::with_data] *)
Definition with_data (columns : list string) (rows : list Row) : QueryResult :=
  mkQueryResult columns rows (length rows).

Section Execute.
(** [Uuid]'s [to_string]. *)
Variable node_id_to_string : NodeId -> string.

(** One property of the inner loop of [execute_scan]: insert it into the
    row and append its key to [columns] unless already there. *)
Definition scan_property (acc : Row * list string) (kv : string * PropertyValue.t)
    : Row * list string :=
  let '(row, columns) := acc in
  let '(key, value) := kv in
  (<[key := value]> row, if decide (key ∈ columns) then columns else columns ++ [key]).

(** The [map] closure of [execute_scan] on one node; [columns] is shared
    by all nodes.  The properties are visited in [map_to_list] order. *)
Definition scan_node (acc : list string * list Row) (node : Node.t) : list string * list Row :=
  let '(columns, rows) := acc in
  let '(row, columns') :=
    foldl scan_property
      (<["_node_id" := String (node_id_to_string (Node.id node))]> ∅, columns)
      (map_to_list (Node.properties node)) in
  (columns', rows ++ [row]).

(** [execute_scan] over [MemoryStorage]. *)
Definition execute_scan (label : option string) (storage : MemoryStorage.t) : QueryResult :=
  let nodes :=
    match label with
    | Some label => MemoryStorage.get_nodes_by_label label storage
    | None => MemoryStorage.get_all_nodes storage
    end in
  let '(columns, rows) := foldl scan_node (["_node_id"], []) nodes in
  with_data columns rows.

(** The [map] closure of [execute_project] on one row. *)
Definition project_row (columns : list string) (row : Row) : Row :=
  foldl (fun projected col =>
           match row !! col with
           | Some value => <[col := value]> projected
           | None => projected
           end) ∅ columns.

(** [execute]; its [execute_filter] and [execute_project] are inlined. *)
Fixpoint execute (plan : PhysicalPlan) (storage : MemoryStorage.t) : outcome QueryResult :=
  match plan with
  | Scan label => ret (execute_scan label storage)
  | Filter source predicate =>
      let? source_result := execute source storage in
      match execute_filter predicate (rows source_result) with
      | Some filtered_rows => ret (with_data (columns source_result) filtered_rows)
      | None => None
      end
  | Project source columns =>
      let? source_result := execute source storage in
      ret (with_data columns (map (project_row columns) (rows source_result)))
  | _ => ret QueryResult_empty
  end.
End Execute.
End Executor.

(* ------------------------------------------------------------------ *)
(** ** Inputs and auxiliary predicates of the properties *)

Section SampleGraph.
Import MemoryStorage.

(** A small graph: two nodes and one edge between them. *)
Definition node_a : Node.t := Node.mk 1 ["Person"] ∅.
Definition node_b : Node.t := Node.mk 2 ["Person"] ∅.
Definition edge_ab : Edge.t := Edge.mk 10 1 2 "KNOWS" ∅.

Definition graph_ab : MemoryStorage.t :=
  snd (add_edge edge_ab (snd (add_node node_b (snd (add_node node_a new))))).
End SampleGraph.

(** A segment cut short while [WAL::append] was writing its first entry,
    [BeginTxn] of transaction 1 at LSN 0: the 4-byte prefix announces the
    28 bytes of its [bincode] encoding (lsn, txn_id, the variant index,
    timestamp), and only the 10 bytes of the LSN and the start of the
    txn_id reached the file. *)
Definition truncated_segment : list Byte.byte :=
  Bytes.le_bytes 4 28 ++
  [Byte.x00; Byte.x00; Byte.x00; Byte.x00; Byte.x00; Byte.x00; Byte.x00; Byte.x00;
   Byte.x01; Byte.x00].

(** The bytes [WAL::append] writes for an entry whose [bincode]
    serialization is [serialized]: [(serialized.len() as u32).to_le_bytes()]
    followed by [serialized]. *)
Definition wal_frame (serialized : list Byte.byte) : list Byte.byte :=
  Bytes.le_bytes 4 (Z.of_nat (length serialized)) ++ serialized.

(** A hash index created on property ["age"]. *)
Definition age_hash_config : Index.IndexConfig :=
  Index.mkConfig "age_idx" Index.Hash (Some "age") false.

(** A B-tree index created on property ["age"], holding node 7 with age 1. *)
Definition age_btree_config : Index.IndexConfig :=
  Index.mkConfig "age_idx" Index.BTree (Some "age") false.

Definition age_btree_index : Index.IndexManager :=
  snd (Index.insert_property (fun _ => []) "age" (PropertyValue.Integer 1) 7
         (snd (Index.create_index age_btree_config Index.new))).

(** Two runs agree: same final state, and both succeed or both fail with
    the same error. *)
Definition agree {S A B} (a : result A * S) (b : result B * S) : Prop :=
  snd a = snd b ∧
  match fst a, fst b with
  | Ok _, Ok _ => True
  | Err e1, Err e2 => e1 = e2
  | _, _ => False
  end.

(** The data operations of the transactions in [C], in order. *)
Definition committed_filter (C : gset N) (es : list Wal.WALEntry) : list Wal.WALEntry :=
  filter (fun e => Wal.txn_id e ∈ C ∧ Wal.is_data_op e = true) es.

(** Node 1 with label [A], then with label [B]. *)
Definition node_labelled_A : Node.t := Node.mk 1 ["A"] ∅.
Definition node_labelled_B : Node.t := Node.mk 1 ["B"] ∅.

(** The segment [wal-00000000.log] after the two runs of [two_runs]:
    [WAL::new] restarts the LSN at 0 and appends to the same file.  The
    first run commits transaction 1, which inserts node 1 with label [A]
    at LSN 2; the second commits transaction 2, which inserts node 1 with
    label [B] at LSN 1. *)
Definition restarted_wal : list Wal.WALEntry :=
  [Wal.mkEntry 0 1 Wal.BeginTxn 0;
   Wal.mkEntry 1 1 (Wal.InsertNode (Node.mk 5 [] ∅)) 1;
   Wal.mkEntry 2 1 (Wal.InsertNode node_labelled_A) 2;
   Wal.mkEntry 3 1 Wal.CommitTxn 3;
   Wal.mkEntry 0 2 Wal.BeginTxn 10;
   Wal.mkEntry 1 2 (Wal.InsertNode node_labelled_B) 11;
   Wal.mkEntry 2 2 Wal.CommitTxn 12].

(** Two runs of the writer with the default [checkpoint_threshold] of
    1000, on a fresh directory and then on the directory the first run
    left: the files in the directory at the end. *)
Definition first_run : list (N * Wal.WALOperation * N) :=
  [(1%N, Wal.BeginTxn, 0%N); (1%N, Wal.InsertNode (Node.mk 5 [] ∅), 1%N);
   (1%N, Wal.InsertNode node_labelled_A, 2%N); (1%N, Wal.CommitTxn, 3%N)].

Definition second_run : list (N * Wal.WALOperation * N) :=
  [(2%N, Wal.BeginTxn, 10%N); (2%N, Wal.InsertNode node_labelled_B, 11%N);
   (2%N, Wal.CommitTxn, 12%N)].

Definition two_runs : option (gmap N (list Wal.WALEntry)) :=
  match Wal.append_all 1000 first_run (Wal.new ∅) with
  | Some w1 =>
      match Wal.append_all 1000 second_run (Wal.new (Wal.files w1)) with
      | Some w2 => Some (Wal.files w2)
      | None => None
      end
  | None => None
  end.

(** The DFS invariant: a visited node that has left the recursion stack
    has all its successors visited and off the stack. *)
Definition dfs_inv (wf : gmap N (gset N)) (V R : gset N) : Prop :=
  R ⊆ V ∧
  ∀ x y, x ∈ V -> x ∉ R -> y ∈ default ∅ (wf !! x) -> y ∈ V ∧ y ∉ R.

Section ExecutorAux.
Import Executor.

(** The expressions [evaluate_predicate] handles itself; every other one
    is evaluated as a value and tested for truthiness. *)
Definition is_predicate_form (e : Expression) : bool :=
  match e with
  | And _ _ | Or _ _ | Not _ | Eq _ _ | Ne _ _
  | Lt _ _ | Le _ _ | Gt _ _ | Ge _ _ => true
  | _ => false
  end.

(** Whether evaluating the predicate on the row returns (does not panic). *)
Definition predicate_returns (pred : Expression) (row : Row) : bool :=
  match evaluate_predicate pred row with None => false | Some _ => true end.

(** Whether [unwrap_or(false)] keeps the row. *)
Definition predicate_keeps (pred : Expression) (row : Row) : bool :=
  match evaluate_predicate pred row with Some (Ok true) => true | _ => false end.
End ExecutorAux.

(** The ids of a lookup result, [] on an error. *)
Definition ids_of (r : result (list NodeId)) : list NodeId :=
  match r with Ok l => l | Err _ => [] end.

(** A well-formed hash index: each key at most once, no empty id list. *)
Definition hash_wf (h : Index.HashIndex) : Prop :=
  NoDup h.*1 ∧ Forall (fun e => e.2 ≠ []) h.

(** The number whose little-endian encoding is [bs]. *)
Fixpoint le_value (bs : list Byte.byte) : N :=
  match bs with
  | [] => 0%N
  | b :: bs' => (Byte.to_N b + 256 * le_value bs')%N
  end.


(* ================================================================== *)
(** * Properties *)

(* ------------------------------------------------------------------ *)
(** ** The in-memory backend *)

(** C10: [add_node n] always returns [Ok] with [n]'s own id; the node map
    becomes the old one with [n] stored at its id (replacing any node stored
    there); the edge store and both adjacency indices are unchanged; and
    when a node with that id was already stored, the node count is
    unchanged. *)
Theorem add_node_replaces (n : Node.t) (s : MemoryStorage.t) :
  fst (MemoryStorage.add_node n s) = Ok (Node.id n) ∧
  MemoryStorage.nodes (snd (MemoryStorage.add_node n s)) =
    <[Node.id n := n]> (MemoryStorage.nodes s) ∧
  MemoryStorage.edges (snd (MemoryStorage.add_node n s)) = MemoryStorage.edges s ∧
  MemoryStorage.outgoing_edges (snd (MemoryStorage.add_node n s)) =
    MemoryStorage.outgoing_edges s ∧
  MemoryStorage.incoming_edges (snd (MemoryStorage.add_node n s)) =
    MemoryStorage.incoming_edges s ∧
  (is_Some (MemoryStorage.nodes s !! Node.id n) ->
   MemoryStorage.node_count (snd (MemoryStorage.add_node n s)) =
     MemoryStorage.node_count s).
Proof.
  unfold MemoryStorage.add_node, MemoryStorage.node_count; simpl.
  split_and!; try reflexivity.
  intros [old Hold]. rewrite map_size_insert, Hold. reflexivity.
Qed.

(** Before the deletion, the adjacency indices of [graph_ab] are consistent. *)
Lemma graph_ab_consistent : MemoryStorage.adjacency_consistent graph_ab.
Proof.
  assert (Ho : MemoryStorage.outgoing_edges graph_ab = {[1%N := [10%N]]}) by (vm_compute; reflexivity).
  assert (Hi : MemoryStorage.incoming_edges graph_ab = {[2%N := [10%N]]}) by (vm_compute; reflexivity).
  assert (He : MemoryStorage.edges graph_ab = {[10%N := edge_ab]}) by (vm_compute; reflexivity).
  intros n eid. unfold MemoryStorage.adj. rewrite Ho, Hi, He.
  split; split.
  - destruct (decide (n = 1%N)) as [->|Hn].
    + rewrite lookup_singleton_eq; simpl. intros Hin. apply list_elem_of_singleton in Hin as ->.
      exists edge_ab. rewrite lookup_singleton_eq. done.
    + rewrite lookup_singleton_ne by congruence. simpl. intros Hin; apply not_elem_of_nil in Hin; done.
  - intros (e & Hl & Hf). apply lookup_singleton_Some in Hl as [-> <-]. simpl in Hf; subst.
    rewrite lookup_singleton_eq. simpl. left.
  - destruct (decide (n = 2%N)) as [->|Hn].
    + rewrite lookup_singleton_eq; simpl. intros Hin. apply list_elem_of_singleton in Hin as ->.
      exists edge_ab. rewrite lookup_singleton_eq. done.
    + rewrite lookup_singleton_ne by congruence. simpl. intros Hin; apply not_elem_of_nil in Hin; done.
  - intros (e & Hl & Hf). apply lookup_singleton_Some in Hl as [-> <-]. simpl in Hf; subst.
    rewrite lookup_singleton_eq. simpl. left.
Qed.

(** After deleting node 1 they are not: [incoming[2]] names edge 10, which
    is no longer stored. *)
Lemma graph_ab_delete_inconsistent :
  ¬ MemoryStorage.adjacency_consistent (snd (MemoryStorage.delete_node 1 graph_ab)).
Proof.
  intros Hc. destruct (Hc 2%N 10%N) as [_ [Hin _]].
  assert (Hl : (10%N ∈ MemoryStorage.adj (MemoryStorage.incoming_edges
                  (snd (MemoryStorage.delete_node 1 graph_ab))) 2))
    by (vm_compute; left).
  destruct (Hin Hl) as (e & He & _). vm_compute in He. discriminate.
Qed.

(** C3: on the graph with nodes 1 and 2 and the edge 10 from 1 to 2, built
    by three successful operations, whose adjacency indices are consistent,
    [delete_node 1] succeeds and removes edge 10, but edge 10 is still
    listed in [incoming[2]]: the adjacency index then names an edge that is
    not stored, and the indices are no longer consistent. *)
Theorem delete_node_leaves_incoming_entry :
  fst (MemoryStorage.add_node node_a MemoryStorage.new) = Ok 1%N ∧
  fst (MemoryStorage.add_node node_b (snd (MemoryStorage.add_node node_a MemoryStorage.new)))
    = Ok 2%N ∧
  fst (MemoryStorage.add_edge edge_ab
         (snd (MemoryStorage.add_node node_b
                 (snd (MemoryStorage.add_node node_a MemoryStorage.new))))) = Ok 10%N ∧
  MemoryStorage.adj (MemoryStorage.incoming_edges graph_ab) 2 = [10%N] ∧
  fst (MemoryStorage.delete_node 1 graph_ab) = Ok tt ∧
  MemoryStorage.get_edge 10 (snd (MemoryStorage.delete_node 1 graph_ab))
    = Err (EdgeNotFound 10) ∧
  MemoryStorage.adj (MemoryStorage.incoming_edges
                       (snd (MemoryStorage.delete_node 1 graph_ab))) 2 = [10%N] ∧
  MemoryStorage.edges (snd (MemoryStorage.delete_node 1 graph_ab)) !! 10%N = None ∧
  MemoryStorage.adjacency_consistent graph_ab ∧
  ¬ MemoryStorage.adjacency_consistent (snd (MemoryStorage.delete_node 1 graph_ab)).
Proof.
  split_and!; try (vm_compute; reflexivity).
  - exact graph_ab_consistent.
  - exact graph_ab_delete_inconsistent.
Qed.

(* ------------------------------------------------------------------ *)
(** ** Reading WAL segments *)

(** The fuel of [read_segment] is enough: one more round of fuel never
    changes the result, so [read_segment] answers what the unbounded loop
    of the source answers. *)
Lemma read_entries_fuel (deserialize : list Byte.byte -> option Wal.WALEntry) :
  ∀ fuel bytes entries, (length bytes ≤ fuel)%nat ->
    Wal.read_entries deserialize (S fuel) bytes entries
      = Wal.read_entries deserialize fuel bytes entries.
Proof.
  induction fuel as [|fuel IH]; intros bytes entries Hlen.
  - destruct bytes; [reflexivity | simpl in Hlen; lia].
  - cbn [Wal.read_entries].
    destruct bytes as [|b0 [|b1 [|b2 [|b3 rest]]]]; try reflexivity.
    destruct (decide _) as [Hle|]; [| reflexivity].
    destruct (deserialize _); [| reflexivity].
    apply IH. rewrite length_drop. simpl in Hlen. lia.
Qed.

(* ------------------------------------------------------------------ *)
(** ** The index manager *)

(** C9: when the manager maps property key [k] to a hash index, every range
    query on [k] fails with a [StorageError] (never an [InvalidOperation]),
    whatever its bounds, while every lookup on [k] succeeds. *)
Theorem range_on_hash_index_is_storage_error
    (serde_json_to_vec : PropertyValue.t -> list Byte.byte)
    (m : Index.IndexManager) (k index_name : string) (h : Index.HashIndex)
    (Hkey : Index.property_indices m !! k = Some index_name)
    (Hidx : Index.indices m !! index_name = Some (Index.HashImpl h)) :
  (∀ start end_, Index.range_property serde_json_to_vec k start end_ m
                   = Err (StorageError Index.range_msg)) ∧
  (∀ v, is_ok (Index.lookup_property serde_json_to_vec k v m) = true).
Proof.
  unfold Index.range_property, Index.lookup_property. rewrite Hkey, Hidx.
  split; intros; reflexivity.
Qed.

Lemma range_on_hash_index_is_storage_error_witness :
  let m := snd (Index.create_index age_hash_config Index.new) in
  Index.property_indices m !! "age" = Some "age_idx" ∧
  Index.indices m !! "age_idx" = Some (Index.HashImpl []) ∧
  Index.range_property (fun _ => []) "age" (PropertyValue.Integer 1)
    (PropertyValue.Integer 5) m = Err (StorageError Index.range_msg) ∧
  is_ok (Index.lookup_property (fun _ => []) "age" (PropertyValue.Integer 1) m) = true.
Proof.
  intros m.
  assert (Hk : Index.property_indices m !! "age" = Some "age_idx") by (vm_compute; reflexivity).
  assert (Hi : Index.indices m !! "age_idx" = Some (Index.HashImpl [])) by (vm_compute; reflexivity).
  destruct (range_on_hash_index_is_storage_error (fun _ => []) m "age" "age_idx" [] Hk Hi)
    as [Hr Hl].
  split_and!; [exact Hk | exact Hi | apply Hr | apply Hl].
Defined.

(** The error [range_property] gives on a hash index is a [StorageError],
    and no [StorageError] is an [InvalidOperation]. *)
Lemma range_on_hash_index_not_invalid_operation :
  Index.range_property (fun _ => []) "age" (PropertyValue.Integer 1) (PropertyValue.Integer 5)
    (snd (Index.create_index age_hash_config Index.new))
    = Err (StorageError Index.range_msg) ∧
  (∀ msg, StorageError Index.range_msg ≠ InvalidOperation msg).
Proof. split; [vm_compute; reflexivity | discriminate]. Qed.

(** C6: integers are keyed by their little-endian bytes, which do not sort
    like the numbers: with node 7 inserted at age 1 into a B-tree index,
    the lookup of age 1 finds it, but the range query [0, 256) returns no
    node although [0 <= 1 < 256], since the key of 1 starts with byte 1 and
    the key of 256 with byte 0. *)
Theorem btree_integer_range_misses_node :
  fst (Index.insert_property (fun _ => []) "age" (PropertyValue.Integer 1) 7
         (snd (Index.create_index age_btree_config Index.new))) = Ok tt ∧
  Index.lookup_property (fun _ => []) "age" (PropertyValue.Integer 1) age_btree_index
    = Ok [7%N] ∧
  Index.range_property (fun _ => []) "age" (PropertyValue.Integer 0)
    (PropertyValue.Integer 256) age_btree_index = Ok [] ∧
  Index.property_to_bytes (fun _ => []) (PropertyValue.Integer 1)
    = [Byte.x01; Byte.x00; Byte.x00; Byte.x00; Byte.x00; Byte.x00; Byte.x00; Byte.x00] ∧
  Index.property_to_bytes (fun _ => []) (PropertyValue.Integer 256)
    = [Byte.x00; Byte.x01; Byte.x00; Byte.x00; Byte.x00; Byte.x00; Byte.x00; Byte.x00].
Proof. vm_compute. split_and!; reflexivity. Qed.

(* ------------------------------------------------------------------ *)
(** ** Filtering and expression evaluation *)

Section ExecutorFacts.
Import Executor.

Lemma evaluate_predicate_value_form (e : Expression) (row : Row) :
  is_predicate_form e = false ->
  evaluate_predicate e row = bind (evaluate_value e row) (fun v => ret (truthy v)).
Proof. destruct e; simpl; congruence. Qed.

Lemma execute_filter_eq (pred : Expression) (rows : list Row) :
  execute_filter pred rows =
    if forallb (predicate_returns pred) rows
    then Some (List.filter (predicate_keeps pred) rows) else None.
Proof.
  induction rows as [|row rows IH]; [reflexivity |].
  simpl. rewrite IH. unfold predicate_returns, predicate_keeps.
  destruct (evaluate_predicate pred row) as [[[|]|]|]; simpl;
    destruct (forallb _ rows); reflexivity.
Qed.
End ExecutorFacts.

(** C7: when no evaluation panics (on no row does [evaluate_predicate]
    return [None]), [Filter] keeps exactly the rows on
    which [evaluate_predicate] returns [Ok true] (a row whose evaluation
    fails is dropped); for a predicate that is not a logical or comparison
    operator, [evaluate_predicate] returns the truthiness of its value,
    which is [false] only for [Boolean false] and [Null]. *)
Theorem execute_filter_keeps_truthy (pred : Executor.Expression) (rows : list Executor.Row)
    (Hret : forallb (predicate_returns pred) rows = true) :
  Executor.execute_filter pred rows =
    Some (List.filter (fun row =>
            match Executor.evaluate_predicate pred row with
            | Some (Ok true) => true
            | _ => false
            end) rows) ∧
  (∀ row, is_predicate_form pred = false ->
     Executor.evaluate_predicate pred row =
       Executor.bind (Executor.evaluate_value pred row)
         (fun v => Executor.ret (Executor.truthy v))) ∧
  (∀ v, Executor.truthy v = false <-> v = PropertyValue.Boolean false ∨ v = PropertyValue.Null).
Proof.
  split_and!.
  - rewrite execute_filter_eq, Hret. reflexivity.
  - intros row. apply evaluate_predicate_value_form.
  - intros v; destruct v as [| | |[|]| | |]; simpl; split; intros H;
      try discriminate; try reflexivity; try (destruct H; discriminate); auto.
Qed.

Lemma execute_filter_keeps_truthy_witness :
  forallb (predicate_returns (Executor.Literal (PropertyValue.Integer 1))) [∅] = true ∧
  Executor.execute_filter (Executor.Literal (PropertyValue.Integer 1)) [∅] = Some [∅].
Proof.
  assert (H : forallb (predicate_returns (Executor.Literal (PropertyValue.Integer 1))) [∅] = true)
    by reflexivity.
  split; [exact H |].
  destruct (execute_filter_keeps_truthy (Executor.Literal (PropertyValue.Integer 1)) [∅] H)
    as [Hf _].
  rewrite Hf. reflexivity.
Defined.

(** A filter on the integer literal [1]: the predicate's value is not a
    boolean, yet the row is kept. *)
Lemma filter_keeps_integer_predicate :
  Executor.evaluate_predicate (Executor.Literal (PropertyValue.Integer 1)) ∅
    = Some (Ok true) ∧
  Executor.execute_filter (Executor.Literal (PropertyValue.Integer 1)) [∅] = Some [∅] ∧
  Executor.execute_filter (Executor.Literal (PropertyValue.String "x")) [∅] = Some [∅].
Proof. split_and!; reflexivity. Qed.

(** C8: dividing [i64::MIN] by [-1] passes the zero-divisor check and then
    overflows: [div_values] panics instead of returning an integer, and so
    does a [Filter] whose predicate contains that division.  The other
    integer divisions return the truncated quotient. *)
Theorem div_values_min_by_minus_one_panics :
  Executor.div_values (PropertyValue.Integer I64.min) (PropertyValue.Integer (-1)) = None ∧
  Executor.evaluate_value
    (Executor.Div (Executor.Literal (PropertyValue.Integer I64.min))
                  (Executor.Literal (PropertyValue.Integer (-1)))) ∅ = None ∧
  Executor.execute_filter
    (Executor.Eq (Executor.Div (Executor.Literal (PropertyValue.Integer I64.min))
                               (Executor.Literal (PropertyValue.Integer (-1))))
                 (Executor.Literal (PropertyValue.Integer 0))) [∅] = None ∧
  (∀ l r, r ≠ 0 -> ¬ (l = I64.min ∧ r = -1) ->
     Executor.div_values (PropertyValue.Integer l) (PropertyValue.Integer r)
       = Some (Ok (PropertyValue.Integer (Z.quot l r)))).
Proof.
  split_and!; try reflexivity.
  intros l r Hr Hmin. unfold Executor.div_values, I64.div.
  destruct (Z.eqb_spec r 0) as [|_]; [contradiction |].
  destruct (Z.eqb_spec l I64.min), (Z.eqb_spec r (-1)); simpl; try reflexivity.
  exfalso; auto.
Qed.

(* ------------------------------------------------------------------ *)
(** ** MVCC visibility *)

Lemma is_txn_visible_spec (s : Mvcc.Snapshot) (t : N) :
  Mvcc.is_txn_visible s t = true <-> N.lt t (Mvcc.timestamp s) ∧ t ∉ Mvcc.active_txns s.
Proof.
  unfold Mvcc.is_txn_visible.
  destruct (N.leb_spec (Mvcc.timestamp s) t) as [Hle|Hlt].
  - split; [discriminate | intros [Hlt _]; lia].
  - rewrite negb_true_iff, bool_decide_eq_false. split; [auto | tauto].
Qed.

(** The timestamp test of [Version::is_visible], spelled out. *)
Lemma is_visible_spec {T} (v : Mvcc.Version T) (ts : N) :
  Mvcc.is_visible v ts = true <->
  N.le (Mvcc.created_at v) ts ∧
  (Mvcc.deleted_at v = None ∨ ∃ d, Mvcc.deleted_at v = Some d ∧ N.lt ts d).
Proof.
  unfold Mvcc.is_visible.
  destruct (N.ltb_spec ts (Mvcc.created_at v)) as [Hlt|Hle].
  - split; [discriminate | intros [? _]; lia].
  - destruct (Mvcc.deleted_at v) as [d|].
    + destruct (N.leb_spec d ts); split; try discriminate.
      * intros [_ [?|(d' & [= <-] & ?)]]; [discriminate | lia].
      * intros _. split; [lia | right; eauto].
      * reflexivity.
    + split; [auto | reflexivity].
Qed.

(** C1 (as the code has it): [is_version_visible] accepts a version exactly
    when [xmin < T], [xmin] is not active, and [xmax] is unset, at least
    [T], or active; the chain lookup [get_visible_version] returns the data
    of the first version, newest first, whose creation timestamp is at most
    [T] and whose deletion timestamp is unset or greater than [T]: it
    consults neither [xmin], [xmax] nor the active set. *)
Theorem visibility_and_chain_lookup :
  (∀ (s : Mvcc.Snapshot) {T} (v : Mvcc.Version T),
     Mvcc.is_version_visible s (Mvcc.xmin v) (Mvcc.xmax v) = true <-> Mvcc.spec_visible s v) ∧
  (∀ {T} (versions : Mvcc.VersionChain T) (ts : N) (d : T),
     Mvcc.get_visible_version versions ts = Some d <->
     ∃ pre v post,
       versions = pre ++ v :: post ∧ Mvcc.data v = d ∧
       (N.le (Mvcc.created_at v) ts ∧
        (Mvcc.deleted_at v = None ∨ ∃ x, Mvcc.deleted_at v = Some x ∧ N.lt ts x)) ∧
       ∀ u, u ∈ pre ->
         ¬ (N.le (Mvcc.created_at u) ts ∧
            (Mvcc.deleted_at u = None ∨ ∃ x, Mvcc.deleted_at u = Some x ∧ N.lt ts x))).
Proof.
  split.
  - intros s T v. unfold Mvcc.is_version_visible, Mvcc.spec_visible.
    destruct (Mvcc.is_txn_visible s (Mvcc.xmin v)) eqn:Hmin; simpl.
    + apply is_txn_visible_spec in Hmin as [Hlt Hna].
      destruct (Mvcc.xmax v) as [x|] eqn:Hx.
      * destruct (Mvcc.is_txn_visible s x) eqn:Hxv.
        -- apply is_txn_visible_spec in Hxv as [Hxl Hxn].
           split; [discriminate |].
           intros (_ & _ & [[=] | [(x' & [= <-] & Hle) | (x' & [= <-] & Hin)]]); [lia | contradiction].
        -- split; [intros _ | reflexivity].
           split_and!; [exact Hlt | exact Hna |].
           destruct (N.le_gt_cases (Mvcc.timestamp s) x) as [Hle|Hgt].
           ++ right; left; eauto.
           ++ right; right. exists x; split; [reflexivity |].
              destruct (decide (x ∈ Mvcc.active_txns s)) as [|Hn]; [assumption |].
              assert (Mvcc.is_txn_visible s x = true) by (apply is_txn_visible_spec; auto).
              congruence.
      * split; [intros _; auto | reflexivity].
    + split; [discriminate |].
      intros (Hlt & Hna & _).
      assert (Mvcc.is_txn_visible s (Mvcc.xmin v) = true) by (apply is_txn_visible_spec; auto).
      congruence.
  - intros T versions ts d. induction versions as [|v rest IH]; simpl.
    + split; [discriminate |].
      intros (pre & v & post & Heq & _). destruct pre; discriminate.
    + destruct (Mvcc.is_visible v ts) eqn:Hv.
      * split.
        -- intros [= <-]. exists [], v, rest.
           split; [reflexivity |]. split; [reflexivity |].
           split; [apply is_visible_spec; exact Hv |].
           intros u Hu; apply not_elem_of_nil in Hu; contradiction.
        -- intros (pre & v' & post & Heq & Hd & Hvis & Hpre).
           destruct pre as [|p pre]; simpl in Heq; injection Heq as Hp Heq.
           ++ subst v'. congruence.
           ++ subst p. exfalso. apply (Hpre v); [left |]. apply is_visible_spec; exact Hv.
      * rewrite IH. split.
        -- intros (pre & v' & post & -> & Hd & Hvis & Hpre).
           exists (v :: pre), v', post.
           split; [reflexivity |]. split; [exact Hd |]. split; [exact Hvis |].
           intros u Hu. apply elem_of_cons in Hu as [->|Hu]; [|auto].
           intros Hs. apply is_visible_spec in Hs. congruence.
        -- intros (pre & v' & post & Heq & Hd & Hvis & Hpre).
           destruct pre as [|p pre]; simpl in Heq; injection Heq as Hp Heq.
           ++ subst v'. apply is_visible_spec in Hvis. congruence.
           ++ exists pre, v', post.
              split; [exact Heq |]. split; [exact Hd |]. split; [exact Hvis |].
              intros u Hu. apply Hpre. right. exact Hu.
Qed.

(** A version created at time 1 by transaction 5, which the snapshot at
    time 10 lists as active: the chain lookup returns its data, although
    the version is not visible to the snapshot. *)
Lemma chain_lookup_ignores_active_creator :
  Mvcc.get_visible_version [Mvcc.mkVersion 42%N 5%N None 1%N None] 10%N = Some 42%N ∧
  Mvcc.is_version_visible (Mvcc.mkSnapshot 10 {[5%N]}) 5%N None = false ∧
  Mvcc.spec_chain_lookup (Mvcc.mkSnapshot 10 {[5%N]}) [Mvcc.mkVersion 42%N 5%N None 1%N None]
    = None.
Proof. split_and!; reflexivity. Qed.

(* ------------------------------------------------------------------ *)
(** ** Recovery *)

Section RecoveryFacts.
Context {S : Type} `{StorageBackend S}.
Context {Seg : Type} (read : Seg -> result (list Wal.WALEntry)).

Lemma committed_ids_app (es1 es2 : list Wal.WALEntry) :
  Wal.committed_ids (es1 ++ es2) = Wal.committed_ids es1 ∪ Wal.committed_ids es2.
Proof. unfold Wal.committed_ids. rewrite filter_app, map_app, list_to_set_app_L. done. Qed.

Lemma foldl_commits (c : gset N) (es : list Wal.WALEntry) :
  foldl (fun c e => if Wal.is_commit e then {[Wal.txn_id e]} ∪ c else c) c es
    = c ∪ Wal.committed_ids es.
Proof.
  revert c. induction es as [|e es IH]; intros c; simpl.
  - unfold Wal.committed_ids. simpl. set_solver.
  - rewrite IH. unfold Wal.committed_ids.
    destruct (Wal.is_commit e) eqn:Hc.
    + rewrite filter_cons_True by done. simpl. set_solver.
    + rewrite filter_cons_False by congruence. simpl. set_solver.
Qed.

Lemma collect_commits_ok (segs : list Seg) (ess : list (list Wal.WALEntry)) (c : gset N) :
  Wal.read_all read segs = Ok ess ->
  Wal.collect_commits read segs c = Ok (c ∪ Wal.committed_ids (concat ess)).
Proof.
  revert ess c. induction segs as [|seg segs IH]; intros ess c Hr; simpl in Hr.
  - injection Hr as <-. simpl. f_equal. unfold Wal.committed_ids. simpl. set_solver.
  - destruct (read seg) as [es|e] eqn:Hs; [| discriminate].
    destruct (Wal.read_all read segs) as [ess'|e] eqn:Hrest; [| discriminate].
    injection Hr as <-. simpl. rewrite Hs, (IH ess'), foldl_commits by reflexivity.
    f_equal. simpl. rewrite committed_ids_app. set_solver.
Qed.

Lemma replay_entry_control (st : S) (e : Wal.WALEntry) :
  Wal.is_data_op e = false -> Wal.replay_entry st e = (Ok tt, st).
Proof. unfold Wal.is_data_op, Wal.replay_entry. destruct (Wal.operation e); done. Qed.

Lemma apply_all_app (xs ys : list Wal.WALEntry) (st : S) :
  Wal.apply_all (xs ++ ys) st =
    match Wal.apply_all xs st with
    | (Ok _, s) => Wal.apply_all ys s
    | (Err e, s) => (Err e, s)
    end.
Proof.
  revert st. induction xs as [|x xs IH]; intros st; simpl; [reflexivity |].
  destruct (Wal.replay_entry st x) as [[u|e] s]; [apply IH | reflexivity].
Qed.

Lemma replay_entries_agree (C : gset N) (es : list Wal.WALEntry) (r : N) (st : S) :
  agree (Wal.replay_entries C es r st) (Wal.apply_all (committed_filter C es) st).
Proof.
  unfold committed_filter. revert r st.
  induction es as [|e es IH]; intros r st; simpl.
  - split; simpl; done.
  - destruct (decide (Wal.txn_id e ∈ C)) as [Hin|Hnin].
    + destruct (Wal.is_data_op e) eqn:Hd.
      * rewrite filter_cons_True by auto. simpl.
        destruct (Wal.replay_entry st e) as [[u|err] s]; [apply IH | split; simpl; done].
      * rewrite filter_cons_False by (intros [_ ?]; congruence).
        rewrite replay_entry_control by exact Hd. apply IH.
    + rewrite filter_cons_False by (intros [? _]; contradiction). apply IH.
Qed.

Lemma replay_segments_agree (C : gset N) (segs : list Seg)
    (ess : list (list Wal.WALEntry)) (r : N) (st : S) :
  Wal.read_all read segs = Ok ess ->
  agree (Wal.replay_segments read C segs r st)
        (Wal.apply_all (committed_filter C (concat ess)) st).
Proof.
  revert ess r st. induction segs as [|seg segs IH]; intros ess r st Hr; simpl in Hr.
  - injection Hr as <-. split; simpl; done.
  - destruct (read seg) as [es|e] eqn:Hs; [| discriminate].
    destruct (Wal.read_all read segs) as [ess'|e] eqn:Hrest; [| discriminate].
    injection Hr as <-. simpl. rewrite Hs.
    unfold committed_filter at 1. rewrite filter_app, apply_all_app.
    fold (committed_filter C es). fold (committed_filter C (concat ess')).
    pose proof (replay_entries_agree C es r st) as [Hst Hres].
    destruct (Wal.replay_entries C es r st) as [[r'|e1] s1],
             (Wal.apply_all (committed_filter C es) st) as [[u|e2] s2];
      simpl in Hst, Hres; try contradiction.
    + subst s2. apply (IH ess' r' s1). reflexivity.
    + subst. split; simpl; done.
Qed.
End RecoveryFacts.

(** X30: Recovery replays in file order: when every segment can be read, it
    leaves the storage in the state obtained by applying the committed
    data operations (InsertNode, UpdateNode, DeleteNode, InsertEdge,
    UpdateEdge, DeleteEdge of a transaction with a CommitTxn record
    anywhere in the log) in file order (segment by segment, each segment
    from its start), stopping at the first one that fails; control entries
    never touch the storage; and recovery returns an error exactly when
    that application fails, and then the same error. *)
Theorem recover_replays_committed_in_file_order
    {S : Type} `{StorageBackend S} {Seg : Type}
    (read : Seg -> result (list Wal.WALEntry)) (segs : list Seg)
    (ess : list (list Wal.WALEntry)) (storage : S)
    (Hread : Wal.read_all read segs = Ok ess) :
  snd (Wal.recover read segs storage)
    = snd (Wal.apply_all (Wal.committed_data_ops (concat ess)) storage) ∧
  (∀ e, fst (Wal.recover read segs storage) = Err e ↔
         fst (Wal.apply_all (Wal.committed_data_ops (concat ess)) storage) = Err e).
Proof.
  destruct segs as [|seg segs'].
  - simpl in Hread. injection Hread as <-. split; [reflexivity|]. intros e. simpl. split; discriminate.
  - assert (Hrec : Wal.recover read (seg :: segs') storage =
              match Wal.collect_commits read (seg :: segs') ∅ with
              | Err e => (Err e, storage)
              | Ok committed => Wal.replay_segments read committed (seg :: segs') 0 storage
              end) by reflexivity.
    rewrite Hrec. set (segs := seg :: segs') in *.
    rewrite (collect_commits_ok read segs ess ∅ Hread), (left_id_L ∅ union).
    pose proof (replay_segments_agree read (Wal.committed_ids (concat ess)) segs ess 0 storage Hread)
      as [Hst Hres].
    unfold committed_filter in Hst, Hres. fold (Wal.committed_data_ops (concat ess)) in Hst, Hres.
    split; [exact Hst |]. intros err.
    destruct (fst (Wal.replay_segments _ _ _ _ _)), (fst (Wal.apply_all _ _));
      split; intros Heq; try discriminate; try contradiction; congruence.
Qed.

Lemma recover_replays_committed_in_file_order_witness :
  Wal.read_all (fun es : list Wal.WALEntry => Ok es) [restarted_wal] = Ok [restarted_wal] ∧
  snd (Wal.recover (fun es : list Wal.WALEntry => Ok es) [restarted_wal] MemoryStorage.new)
    = snd (Wal.apply_all (Wal.committed_data_ops (concat [restarted_wal])) MemoryStorage.new).
Proof.
  assert (Hr : Wal.read_all (fun es : list Wal.WALEntry => Ok es) [restarted_wal]
                 = Ok [restarted_wal]) by reflexivity.
  split; [exact Hr |].
  apply (recover_replays_committed_in_file_order (fun es : list Wal.WALEntry => Ok es)
           [restarted_wal] [restarted_wal] MemoryStorage.new Hr).
Defined.

(** C2: LSNs are reused and recovery does not follow LSN order. Two runs of
    the writer on one directory ([WAL::new], then [append]s; the second
    [WAL::new] restarts [current_lsn] at 0 and reopens [wal-00000000.log]
    for appending) leave the single segment [restarted_wal], in which LSNs
    0, 1 and 2 each occur twice. Recovery over it keeps the node written
    last (label [B], LSN 1 of the second run), while applying the committed
    operations in LSN order ends with the node of LSN 2 of the first run
    (label [A]). *)
Theorem recovery_order_is_not_lsn_order :
  two_runs = Some {[0%N := restarted_wal]} ∧
  map Wal.lsn restarted_wal = [0; 1; 2; 3; 0; 1; 2]%N ∧
  MemoryStorage.nodes
    (snd (Wal.recover (fun es : list Wal.WALEntry => Ok es) [restarted_wal] MemoryStorage.new))
    !! 1%N = Some node_labelled_B ∧
  MemoryStorage.nodes (Wal.spec_recovered_state restarted_wal MemoryStorage.new)
    !! 1%N = Some node_labelled_A.
Proof. split_and!; vm_compute; reflexivity. Qed.

(* ------------------------------------------------------------------ *)
(** ** The deadlock detector *)

Section DeadlockFacts.
Import Deadlock.

(** The successors of [x] in a wait-for map. *)
Lemma waits_succ (d : DeadlockDetector) (x y : N) :
  waits d x y <-> y ∈ default ∅ (wait_for d !! x).
Proof.
  unfold waits. destruct (wait_for d !! x) as [s|]; simpl.
  - split; [intros (s' & [= <-] & Hy); exact Hy | intros Hy; eauto].
  - split; [intros (s' & [=] & _) | intros Hy; apply not_elem_of_empty in Hy; contradiction].
Qed.

Lemma dfs_loop_false (wf : gmap N (gset N))
    (dfs : N -> gset N -> gset N -> option (bool * gset N * gset N))
    (Hdfs : ∀ n V R V' R', n ∉ V -> dfs_inv wf V R ->
              dfs n V R = Some (false, V', R') ->
              R' = R ∧ V ⊆ V' ∧ n ∈ V' ∧ dfs_inv wf V' R') :
  ∀ ns V R V' R', dfs_inv wf V R ->
    dfs_loop dfs ns V R = Some (false, V', R') ->
    R' = R ∧ V ⊆ V' ∧ dfs_inv wf V' R' ∧ ∀ n, n ∈ ns -> n ∈ V' ∧ n ∉ R'.
Proof.
  induction ns as [|n ns IH]; intros V R V' R' Hinv Hloop; simpl in Hloop.
  - injection Hloop as <- <-. split_and!; [reflexivity | set_solver | exact Hinv |].
    intros n Hn. apply not_elem_of_nil in Hn. contradiction.
  - destruct (decide (n ∉ V)) as [Hn|Hn].
    + destruct (dfs n V R) as [[[[|] v] r]|] eqn:Hd; try discriminate.
      destruct (Hdfs n V R v r Hn Hinv Hd) as (-> & HVv & Hnv & Hinv').
      destruct (IH v R V' R' Hinv' Hloop) as (-> & HvV' & Hinv'' & Hall).
      split_and!; [reflexivity | set_solver | exact Hinv'' |].
      intros m Hm. apply elem_of_cons in Hm as [->|Hm]; [| auto].
      split; [set_solver |]. intros HR. destruct Hinv as [HRV _]. set_solver.
    + apply dec_stable in Hn.
      destruct (decide (n ∈ R)) as [|HnR]; [discriminate |].
      destruct (IH V R V' R' Hinv Hloop) as (-> & HVV' & Hinv' & Hall).
      split_and!; [reflexivity | exact HVV' | exact Hinv' |].
      intros m Hm. apply elem_of_cons in Hm as [->|Hm]; [set_solver | auto].
Qed.

Lemma dfs_cycle_check_false (fuel : nat) (wf : gmap N (gset N)) :
  ∀ n V R V' R', n ∉ V -> dfs_inv wf V R ->
    dfs_cycle_check fuel wf n V R = Some (false, V', R') ->
    R' = R ∧ V ⊆ V' ∧ n ∈ V' ∧ dfs_inv wf V' R'.
Proof.
  induction fuel as [|fuel IH]; intros n V R V' R' Hn Hinv Hd; simpl in Hd; [discriminate |].
  destruct (dfs_loop (dfs_cycle_check fuel wf) (elements (default ∅ (wf !! n)))
              ({[n]} ∪ V) ({[n]} ∪ R)) as [[[[|] v] r]|] eqn:Hl; try discriminate.
  injection Hd as <- <-.
  destruct Hinv as [HRV Hclosed].
  assert (Hinv1 : dfs_inv wf ({[n]} ∪ V) ({[n]} ∪ R)).
  { split; [set_solver |].
    intros x y Hx HxR Hy.
    assert (x ∈ V ∧ x ∉ R) as [HxV HxR'] by set_solver.
    destruct (Hclosed x y HxV HxR' Hy) as [HyV HyR].
    split; [set_solver |]. intros Hy'. apply elem_of_union in Hy' as [Hy'|]; [| contradiction].
    apply elem_of_singleton in Hy'. subst. contradiction. }
  destruct (dfs_loop_false wf (dfs_cycle_check fuel wf) (IH)
              _ _ _ _ _ Hinv1 Hl) as (-> & HV1v & [_ Hclv] & Hall).
  assert (HnR : n ∉ R) by set_solver.
  split_and!.
  - apply leibniz_equiv. set_solver.
  - set_solver.
  - set_solver.
  - split; [set_solver |].
    intros x y Hx HxR Hy.
    destruct (decide (x = n)) as [->|Hxn].
    + assert (Hyn : y ∈ elements (default ∅ (wf !! n))) by (apply elem_of_elements; exact Hy).
      destruct (Hall y Hyn) as [Hyv HyR]. split; [exact Hyv | set_solver].
    + assert (HxR1 : x ∉ {[n]} ∪ R) by set_solver.
      destruct (Hclv x y Hx HxR1 Hy). split; [assumption | set_solver].
Qed.
End DeadlockFacts.

Section DeadlockGraph.
Import Deadlock.

Lemma clos_trans_rt_t {A} (R : relation A) x y z :
  clos_trans A R x y -> clos_refl_trans A R y z -> clos_trans A R x z.
Proof.
  intros Hxy Hyz. revert x Hxy. induction Hyz as [y z Hs| y | y w z _ IH1 _ IH2]; intros x Hxy.
  - eapply t_trans; [exact Hxy | apply t_step; exact Hs].
  - exact Hxy.
  - apply IH2, IH1, Hxy.
Qed.

(** A path in [R1] that never leaves [t] through an edge outside [R2] is a
    path of [R2]; otherwise it runs through [t]. *)
Lemma clos_trans_through (R1 R2 : relation N) (t : N)
    (Hsame : ∀ x y, x ≠ t -> R1 x y -> R2 x y) :
  ∀ x y, clos_trans N R1 x y ->
    clos_trans N R2 x y ∨ (clos_refl_trans N R1 x t ∧ clos_trans N R1 t y).
Proof.
  intros x y Hxy. apply clos_trans_t1n_iff in Hxy.
  induction Hxy as [x y Hs | x z y Hs Hzy IH].
  - destruct (decide (x = t)) as [->|Hxt].
    + right. split; [apply rt_refl | apply t_step; exact Hs].
    + left. apply t_step, Hsame; assumption.
  - destruct (decide (x = t)) as [->|Hxt].
    + right. split; [apply rt_refl |].
      eapply t_trans; [apply t_step; exact Hs | apply clos_trans_t1n_iff; exact Hzy].
    + destruct IH as [Hl | [Hzt Hty]].
      * left. eapply t_trans; [apply t_step, Hsame; eassumption | exact Hl].
      * right. split; [| exact Hty].
        eapply rt_trans; [apply rt_step; exact Hs | exact Hzt].
Qed.

Lemma acyclic_sub (d d' : DeadlockDetector)
    (Hsub : ∀ x y, waits d' x y -> waits d x y) :
  acyclic d -> acyclic d'.
Proof.
  intros Hac x Hx. apply (Hac x).
  assert (Hgen : ∀ a b, clos_trans N (waits d') a b -> clos_trans N (waits d) a b).
  { intros a b Hab. induction Hab as [a b Hs | a b c _ IH1 _ IH2].
    - apply t_step, Hsub, Hs.
    - eapply t_trans; eassumption. }
  apply Hgen, Hx.
Qed.

Lemma acyclic_add_from (d d1 : DeadlockDetector) (t : N)
    (Hac : acyclic d)
    (Hsame : ∀ x y, x ≠ t -> waits d1 x y -> waits d x y)
    (Hnot : ¬ clos_trans N (waits d1) t t) :
  acyclic d1.
Proof.
  intros x Hx.
  destruct (clos_trans_through (waits d1) (waits d) t Hsame x x Hx) as [Hd | [Hxt Htx]].
  - exact (Hac x Hd).
  - apply Hnot. eapply clos_trans_rt_t; eassumption.
Qed.

Lemma acyclic_new : acyclic new.
Proof.
  intros x Hx. apply clos_trans_t1n_iff in Hx.
  destruct Hx as [? (s & Hs & _) | ? ? (s & Hs & _) _];
    simpl in Hs; rewrite lookup_empty in Hs; discriminate.
Qed.
End DeadlockGraph.

Section DeadlockDetection.
Import Deadlock.

(** When [has_cycle d t] answers [false], no path leads from [t] back to
    [t]. *)
Lemma has_cycle_false_no_cycle (d : DeadlockDetector) (t : N) :
  has_cycle d t = false -> ¬ clos_trans N (waits d) t t.
Proof.
  unfold has_cycle. simpl.
  destruct (dfs_loop (dfs_cycle_check (size ({[t]} ∪ txns (wait_for d))) (wait_for d))
              (elements (default ∅ (wait_for d !! t)))
              ({[t]} ∪ ∅) ({[t]} ∪ ∅)) as [[[[|] v] r]|] eqn:Hl; try discriminate.
  intros _.
  assert (Hinv0 : dfs_inv (wait_for d) ({[t]} ∪ ∅) ({[t]} ∪ ∅)) by (split; set_solver).
  destruct (dfs_loop_false (wait_for d) _ (dfs_cycle_check_false _ (wait_for d))
              _ _ _ _ _ Hinv0 Hl) as (-> & _ & [_ Hcl] & Hall).
  (* the visited nodes off the stack are closed under [waits] *)
  assert (Hclosed : ∀ a b, clos_trans N (waits d) a b -> a ∈ v -> a ∉ {[t]} ∪ (∅ : gset N) ->
                      b ∈ v ∧ b ∉ {[t]} ∪ (∅ : gset N)).
  { intros a b Hab. induction Hab as [a b Hs | a b c _ IH1 _ IH2]; intros Ha HaR.
    - apply waits_succ in Hs. exact (Hcl a b Ha HaR Hs).
    - destruct (IH1 Ha HaR). auto. }
  intros Htt. apply clos_trans_t1n_iff in Htt.
  inversion Htt as [y Hs Hy | y z Hs Hyt Hz]; subst.
  - apply waits_succ in Hs.
    assert (Hin : t ∈ elements (default ∅ (wait_for d !! t))) by (apply elem_of_elements; exact Hs).
    destruct (Hall t Hin) as [_ HtR]. set_solver.
  - apply waits_succ in Hs.
    assert (Hin : y ∈ elements (default ∅ (wait_for d !! t))) by (apply elem_of_elements; exact Hs).
    destruct (Hall y Hin) as [Hyv HyR].
    apply clos_trans_t1n_iff in Hyt.
    destruct (Hclosed y t Hyt Hyv HyR) as [_ HtR]. set_solver.
Qed.
End DeadlockDetection.

Section DeadlockSteps.
Import Deadlock.

Lemma request_lock_deadlock_state (d : DeadlockDetector) (t r h : N) (d' : DeadlockDetector) :
  lock_holders d !! r = Some h ->
  request_lock d t r = (Err (TransactionError deadlock_msg), d') ->
  h ≠ t ∧
  wait_for d' = <[t := ({[h]} ∪ default ∅ (wait_for d !! t)) ∖ {[h]}]>
                  (<[t := {[h]} ∪ default ∅ (wait_for d !! t)]> (wait_for d)).
Proof.
  intros Hh. unfold request_lock. rewrite Hh.
  destruct (decide (h = t)) as [|Hht]; [discriminate |].
  destruct (has_cycle _ t).
  - simpl. rewrite lookup_insert_eq. intros [= <-]. split; [exact Hht | reflexivity].
  - intros [=].
Qed.

Lemma request_lock_acyclic (d : DeadlockDetector) (t r : N) :
  acyclic d -> acyclic (snd (request_lock d t r)).
Proof.
  intros Hac. unfold request_lock.
  destruct (lock_holders d !! r) as [h|] eqn:Hh.
  - destruct (decide (h = t)) as [->|Hht]; [exact Hac |].
    set (d1 := mk (<[t := {[h]} ∪ default ∅ (wait_for d !! t)]> (wait_for d)) (lock_holders d)).
    assert (Hsame : ∀ x y, x ≠ t -> waits d1 x y -> waits d x y).
    { intros x y Hxt Hw. apply waits_succ in Hw. apply waits_succ.
      simpl in Hw. rewrite lookup_insert_ne in Hw by congruence. exact Hw. }
    destruct (has_cycle d1 t) eqn:Hc.
    + simpl. rewrite lookup_insert_eq. simpl.
      apply (acyclic_sub d); [| exact Hac].
      intros x y Hw. apply waits_succ in Hw. apply waits_succ. simpl in Hw.
      destruct (decide (x = t)) as [->|Hxt].
      * rewrite lookup_insert_eq in Hw. simpl in Hw. set_solver.
      * rewrite !lookup_insert_ne in Hw by congruence. exact Hw.
    + simpl. apply (acyclic_add_from d d1 t Hac Hsame).
      apply has_cycle_false_no_cycle. exact Hc.
  - simpl. apply (acyclic_sub d); [| exact Hac]. intros x y Hw. exact Hw.
Qed.

Lemma step_acyclic (d : DeadlockDetector) (op : DetectorOp) :
  acyclic d -> acyclic (step d op).
Proof.
  intros Hac. destruct op as [t r | t r | t]; simpl.
  - apply request_lock_acyclic, Hac.
  - apply (acyclic_sub d); [| exact Hac]. intros x y Hw. exact Hw.
  - apply (acyclic_sub d); [| exact Hac].
    intros x y Hw. apply waits_succ in Hw. apply waits_succ. simpl in Hw.
    destruct (decide (x = t)) as [->|Hxt].
    + rewrite lookup_delete_eq in Hw. simpl in Hw. set_solver.
    + rewrite lookup_delete_ne in Hw by congruence. exact Hw.
Qed.

Lemma run_acyclic (ops : list DetectorOp) (d : DeadlockDetector) :
  acyclic d -> acyclic (run ops d).
Proof.
  unfold run. revert d. induction ops as [|op ops IH]; intros d Hac; simpl; [exact Hac |].
  apply IH, step_acyclic, Hac.
Qed.
End DeadlockSteps.

(** C4: after any sequence of [request_lock], [release_lock] and
    [release_all_locks] calls on a new detector, whatever their results,
    the wait-for graph has no cycle; so does the graph after one more
    [request_lock(t, r)], whatever it returns; and when that call reports a
    deadlock, the graph it leaves has no edge from [t] to the holder of
    [r]. *)
Theorem wait_for_graph_stays_acyclic (ops : list Deadlock.DetectorOp) :
  Deadlock.acyclic (Deadlock.run ops Deadlock.new) ∧
  ∀ t r,
    Deadlock.acyclic (snd (Deadlock.request_lock (Deadlock.run ops Deadlock.new) t r)) ∧
    ∀ h d', Deadlock.lock_holders (Deadlock.run ops Deadlock.new) !! r = Some h ->
      Deadlock.request_lock (Deadlock.run ops Deadlock.new) t r
        = (Err (TransactionError Deadlock.deadlock_msg), d') ->
      ¬ Deadlock.waits d' t h.
Proof.
  assert (Hac : Deadlock.acyclic (Deadlock.run ops Deadlock.new))
    by (apply run_acyclic, acyclic_new).
  split; [exact Hac |]. intros t r. split; [apply request_lock_acyclic, Hac |].
  intros h d' Hh Hreq.
  destruct (request_lock_deadlock_state _ t r h d' Hh Hreq) as [Hht Hwf].
  intros Hw. apply waits_succ in Hw. rewrite Hwf, lookup_insert_eq in Hw. simpl in Hw.
  set_solver.
Qed.

(** The two-transaction deadlock: transaction 1 holds resource 100 and waits
    for transaction 2, which holds resource 200; when 2 requests 100 the
    detector reports the deadlock and drops the edge it had added. *)
Lemma deadlock_scenario :
  let d := Deadlock.run [Deadlock.RequestLock 1 100; Deadlock.RequestLock 2 200;
                         Deadlock.RequestLock 1 200] Deadlock.new in
  fst (Deadlock.request_lock d 1 200) = Err (TransactionError Deadlock.locked_msg) ∧
  fst (Deadlock.request_lock d 2 100) = Err (TransactionError Deadlock.deadlock_msg) ∧
  Deadlock.wait_for (snd (Deadlock.request_lock d 2 100)) !! 2%N = Some ∅ ∧
  Deadlock.wait_for (snd (Deadlock.request_lock d 2 100)) !! 1%N = Some {[2%N]}.
Proof. vm_compute. split_and!; reflexivity. Qed.

Section DeadlockFuel.
Local Open Scope nat_scope.
Import Deadlock.

Lemma txns_succ (wf : gmap N (gset N)) (x y : N) :
  y ∈ default ∅ (wf !! x) -> y ∈ txns wf.
Proof.
  unfold txns. intros Hy. apply elem_of_union_r.
  revert x y Hy.
  refine (map_fold_weak_ind
            (fun acc m => ∀ x y, y ∈ default ∅ (m !! x) -> y ∈ acc)
            (fun _ s acc => s ∪ acc) ∅ _ _ wf).
  - intros x y Hy. rewrite lookup_empty in Hy. simpl in Hy. set_solver.
  - intros i s m acc _ IH x y Hy.
    destruct (decide (x = i)) as [->|Hxi].
    + rewrite lookup_insert_eq in Hy. simpl in Hy. set_solver.
    + rewrite lookup_insert_ne in Hy by congruence. apply elem_of_union_r. eauto.
Qed.

Section Fuel.
Variable wf : gmap N (gset N).
Variable U : gset N.
Hypothesis U_closed : ∀ x y, y ∈ default ∅ (wf !! x) -> y ∈ U.

Lemma dfs_loop_some (fuel : nat)
    (Hdfs : ∀ n V R, n ∈ U -> n ∉ V -> size (U ∖ V) < fuel ->
              ∃ b V' R', dfs_cycle_check fuel wf n V R = Some (b, V', R') ∧ V ⊆ V') :
  ∀ ns V R, (∀ m, m ∈ ns -> m ∈ U) -> size (U ∖ V) < fuel ->
    ∃ b V' R', dfs_loop (dfs_cycle_check fuel wf) ns V R = Some (b, V', R') ∧ V ⊆ V'.
Proof.
  induction ns as [|m ns IH]; intros V R Hns Hsize; simpl.
  - exists false, V, R. split; [reflexivity | set_solver].
  - destruct (decide (m ∉ V)) as [Hm|Hm].
    + destruct (Hdfs m V R (Hns m ltac:(left)) Hm Hsize)
        as (b & v & r & Hd & HVv).
      rewrite Hd. destruct b.
      * exists true, v, r. split; [reflexivity | exact HVv].
      * assert (Hsz : size (U ∖ v) < fuel).
        { assert (size (U ∖ v) ≤ size (U ∖ V)) by (apply subseteq_size; set_solver). lia. }
        destruct (IH v r (fun x Hx => Hns x ltac:(right; exact Hx)) Hsz)
          as (b' & V' & R' & Hl & HvV').
        exists b', V', R'. split; [exact Hl | set_solver].
    + destruct (decide (m ∈ R)).
      * exists true, V, R. split; [reflexivity | set_solver].
      * apply (IH V R (fun x Hx => Hns x ltac:(right; exact Hx)) Hsize).
Qed.

Lemma dfs_cycle_check_some (fuel : nat) :
  ∀ n V R, n ∈ U -> n ∉ V -> size (U ∖ V) < fuel ->
    ∃ b V' R', dfs_cycle_check fuel wf n V R = Some (b, V', R') ∧ V ⊆ V'.
Proof.
  induction fuel as [|fuel IH]; intros n V R Hn HnV Hsize; [lia |]. simpl.
  assert (Hsz : size (U ∖ ({[n]} ∪ V)) < fuel).
  { assert (size (U ∖ ({[n]} ∪ V)) < size (U ∖ V)) by (apply subset_size; set_solver).
    lia. }
  assert (Hsucc : ∀ m, m ∈ elements (default ∅ (wf !! n)) -> m ∈ U).
  { intros m Hm. apply elem_of_elements in Hm. exact (U_closed n m Hm). }
  destruct (dfs_loop_some fuel IH _ ({[n]} ∪ V) ({[n]} ∪ R) Hsucc Hsz)
    as (b & v & r & Hl & Hv).
  rewrite Hl. destruct b.
  - exists true, v, r. split; [reflexivity | set_solver].
  - exists false, v, (r ∖ {[n]}). split; [reflexivity | set_solver].
Qed.
End Fuel.

(** The fuel [has_cycle] passes is enough: the search never runs out of
    it, so [has_cycle] answers what the unbounded recursion of the source
    answers. *)
Lemma has_cycle_fuel_enough (d : DeadlockDetector) (start : N) :
  ∃ b V' R',
    dfs_cycle_check (S (size ({[start]} ∪ txns (wait_for d)))) (wait_for d) start ∅ ∅
      = Some (b, V', R').
Proof.
  set (U := {[start]} ∪ txns (wait_for d)).
  assert (Hcl : ∀ x y, y ∈ default ∅ (wait_for d !! x) -> y ∈ U).
  { intros x y Hy. apply elem_of_union_r. exact (txns_succ _ x y Hy). }
  destruct (dfs_cycle_check_some (wait_for d) U Hcl (S (size U)) start ∅ ∅)
    as (b & V' & R' & Hd & _).
  - set_solver.
  - set_solver.
  - rewrite difference_empty_L. lia.
  - exists b, V', R'. exact Hd.
Qed.
End DeadlockFuel.

(* ------------------------------------------------------------------ *)
(** ** Further properties of the modelled code *)

Section MemoryFacts.
Import MemoryStorage.

Lemma adj_push (k x : NodeId) (m : gmap NodeId (list EdgeId)) (n eid : NodeId) :
  eid ∈ adj (push_adj k x m) n ↔ eid ∈ adj m n ∨ (n = k ∧ eid = x).
Proof.
  unfold adj, push_adj. destruct (decide (n = k)) as [->|Hne].
  - rewrite lookup_insert_eq. simpl. rewrite elem_of_app, list_elem_of_singleton.
    split; [intros [?|?]; auto | intros [?|[_ ?]]; auto].
  - rewrite lookup_insert_ne by congruence. split; [auto | intros [?|[? _]]; [done | congruence]].
Qed.

Lemma adj_retain (k x : NodeId) (m : gmap NodeId (list EdgeId)) (n eid : NodeId) :
  eid ∈ adj (retain_adj k x m) n ↔ eid ∈ adj m n ∧ (n = k → eid ≠ x).
Proof.
  unfold adj, retain_adj. destruct (m !! k) as [l|] eqn:Hk.
  - destruct (decide (n = k)) as [->|Hne].
    + rewrite lookup_insert_eq, Hk. simpl. rewrite list_elem_of_filter. naive_solver.
    + rewrite lookup_insert_ne by congruence. naive_solver.
  - destruct (decide (n = k)) as [->|Hne].
    + rewrite Hk. simpl. split; [intros Hin; inversion Hin | intros [Hin _]; inversion Hin].
    + naive_solver.
Qed.

Lemma remove_edges_lookup (eids : list EdgeId) (m : gmap EdgeId Edge.t) (k : EdgeId) :
  remove_edges eids m !! k = if decide (k ∈ eids) then None else m !! k.
Proof.
  unfold remove_edges. revert m. induction eids as [|x eids IH]; intros m; simpl.
  - done.
  - rewrite IH. destruct (decide (k ∈ eids)) as [Hin|Hnin].
    + rewrite decide_True by set_solver. done.
    + destruct (decide (k = x)) as [->|Hne].
      * rewrite decide_True by set_solver. apply lookup_delete_eq.
      * rewrite decide_False by set_solver. apply lookup_delete_ne. congruence.
Qed.
End MemoryFacts.

Section MemoryFacts2.
Import MemoryStorage.

Lemma delete_node_edges (id : NodeId) (s : MemoryStorage.t) (x : Node.t) (k : EdgeId) :
  nodes s !! id = Some x ->
  edges (snd (delete_node id s)) !! k =
    if decide (k ∈ adj (incoming_edges s) id) then None
    else if decide (k ∈ adj (outgoing_edges s) id) then None
    else edges s !! k.
Proof.
  intros Hx. unfold delete_node. rewrite Hx. unfold adj. cbn.
  destruct (outgoing_edges s !! id) as [eo|] eqn:Ho;
    destruct (incoming_edges s !! id) as [ei|] eqn:Hi; cbn;
    rewrite ?Ho, ?Hi; cbn; rewrite ?remove_edges_lookup; cbn;
    repeat (case_decide; try set_solver); try done.
Qed.

End MemoryFacts2.

Section MemoryExtras.
Import MemoryStorage.

(** X1: update_node on a node id that is not stored fails with NodeNotFound and
    leaves the storage unchanged. On a stored id it succeeds, get_node then
    returns the new node for that id and the old answer for every other id,
    and the set of stored node ids is unchanged. *)
Theorem update_node_existing_only (node : Node.t) (s : MemoryStorage.t) :
  (nodes s !! Node.id node = None ->
   update_node node s = (Err (NodeNotFound (Node.id node)), s)) ∧
  (is_Some (nodes s !! Node.id node) ->
   fst (update_node node s) = Ok tt ∧
   ∀ id, get_node id (snd (update_node node s)) =
     if decide (id = Node.id node) then Ok node else get_node id s) ∧
  dom (nodes (snd (update_node node s))) = dom (nodes s).
Proof.
  unfold update_node, get_node.
  destruct (nodes s !! Node.id node) as [old|] eqn:Hold; cbn; split_and!.
  - discriminate.
  - intros _. split; [reflexivity|]. intros id. case_decide as Heq.
    + subst. rewrite lookup_insert_eq. reflexivity.
    + rewrite lookup_insert_ne by congruence. reflexivity.
  - rewrite dom_insert_L. apply elem_of_dom_2 in Hold. set_solver.
  - reflexivity.
  - intros [? H]. discriminate.
  - reflexivity.
Qed.

(** X2: If the adjacency lists are consistent with the edge store and the edge
    id is not yet stored, they stay consistent after add_edge, whether it
    succeeds or fails because an endpoint is missing. *)
Theorem add_edge_keeps_adjacency_consistent (e : Edge.t) (s : MemoryStorage.t)
    (Hc : adjacency_consistent s) (Hfresh : edges s !! Edge.id e = None) :
  adjacency_consistent (snd (add_edge e s)).
Proof.
  unfold add_edge.
  destruct (nodes s !! Edge.from e) as [a|]; [|exact Hc].
  destruct (nodes s !! Edge.to e) as [b|]; [|exact Hc].
  intros n eid. cbn [snd outgoing_edges incoming_edges edges set_incoming set_outgoing set_edges].
  rewrite !adj_push.
  destruct (Hc n eid) as [Ho Hi].
  destruct (decide (eid = Edge.id e)) as [->|Hne].
  - rewrite lookup_insert_eq. split.
    + rewrite Ho. split.
      * intros [[e' [He' _]]|[-> _]]; [congruence|eauto].
      * intros [e' [[= <-] Hf]]. right. auto.
    + rewrite Hi. split.
      * intros [[e' [He' _]]|[-> _]]; [congruence|eauto].
      * intros [e' [[= <-] Hf]]. right. auto.
  - rewrite lookup_insert_ne by congruence. rewrite Ho, Hi. split.
    + split; [intros [?|[_ ?]]; [done|congruence] | auto].
    + split; [intros [?|[_ ?]]; [done|congruence] | auto].
Qed.

(** X3: If the adjacency lists are consistent with the edge store, they stay
    consistent after delete_edge of any id, and get_edge of that id then
    fails with EdgeNotFound. *)
Theorem delete_edge_keeps_adjacency_consistent (id : EdgeId) (s : MemoryStorage.t)
    (Hc : adjacency_consistent s) :
  adjacency_consistent (snd (delete_edge id s)) ∧
  get_edge id (snd (delete_edge id s)) = Err (EdgeNotFound id).
Proof.
  unfold delete_edge, get_edge.
  destruct (edges s !! id) as [e0|] eqn:He0; [| cbn; rewrite He0; split; [exact Hc | reflexivity]].
  cbn [snd outgoing_edges incoming_edges edges set_incoming set_outgoing set_edges].
  rewrite lookup_delete_eq. split; [|reflexivity].
  intros n eid. cbn [snd outgoing_edges incoming_edges edges set_incoming set_outgoing set_edges].
  rewrite !adj_retain. destruct (Hc n eid) as [Ho Hi].
  destruct (decide (eid = id)) as [->|Hne].
  - rewrite lookup_delete_eq. split.
    + split; [|intros [? [? _]]; discriminate].
      intros [Hin Hn]. apply Ho in Hin as [e' [He' Hf]].
      rewrite He0 in He'. injection He' as <-. exfalso. apply Hn; auto.
    + split; [|intros [? [? _]]; discriminate].
      intros [Hin Hn]. apply Hi in Hin as [e' [He' Hf]].
      rewrite He0 in He'. injection He' as <-. exfalso. apply Hn; auto.
  - rewrite lookup_delete_ne by congruence. rewrite <- Ho, <- Hi.
    split; split; [intros [? _]; done | intros ?; split; [done | congruence]
                  |intros [? _]; done | intros ?; split; [done | congruence]].
Qed.

(** X4: With consistent adjacency lists, get_outgoing_edges and
    get_incoming_edges fail with NodeNotFound on a node that is not stored.
    On a stored node they succeed and return exactly the stored edges whose
    from (resp. to) is that node. *)
Theorem edges_of_node_exact (s : MemoryStorage.t) (Hc : adjacency_consistent s) (n : NodeId) :
  (nodes s !! n = None ->
   get_outgoing_edges n s = Err (NodeNotFound n) ∧
   get_incoming_edges n s = Err (NodeNotFound n)) ∧
  (is_Some (nodes s !! n) ->
   (∃ es, get_outgoing_edges n s = Ok es ∧
      ∀ e, e ∈ es ↔ ∃ eid, edges s !! eid = Some e ∧ Edge.from e = n) ∧
   (∃ es, get_incoming_edges n s = Ok es ∧
      ∀ e, e ∈ es ↔ ∃ eid, edges s !! eid = Some e ∧ Edge.to e = n)).
Proof.
  unfold get_outgoing_edges, get_incoming_edges.
  destruct (nodes s !! n) as [x|]; split.
  - intros [=].
  - intros _. split; eexists; (split; [reflexivity|]); intros e;
      rewrite list_elem_of_omap; split.
    + intros [eid [Hin He]]. exists eid. split; [done|].
      apply (proj1 (Hc n eid)) in Hin as [e' [He' Hf]]. congruence.
    + intros [eid [He Hf]]. exists eid. split; [|done].
      apply (proj1 (Hc n eid)). eauto.
    + intros [eid [Hin He]]. exists eid. split; [done|].
      apply (proj2 (Hc n eid)) in Hin as [e' [He' Hf]]. congruence.
    + intros [eid [He Hf]]. exists eid. split; [|done].
      apply (proj2 (Hc n eid)). eauto.
  - intros _. split; reflexivity.
  - intros [? [=]].
Qed.

(** X5: With consistent adjacency lists, delete_node of an id that is not stored
    fails with NodeNotFound and changes nothing. Otherwise it succeeds, the
    node is gone, and the stored edges afterwards are exactly the old edges
    whose from and to both differ from the id. *)
Theorem delete_node_removes_incident_edges (id : NodeId) (s : MemoryStorage.t)
    (Hc : adjacency_consistent s) :
  (nodes s !! id = None -> delete_node id s = (Err (NodeNotFound id), s)) ∧
  (is_Some (nodes s !! id) ->
   fst (delete_node id s) = Ok tt ∧
   get_node id (snd (delete_node id s)) = Err (NodeNotFound id) ∧
   ∀ eid, edges (snd (delete_node id s)) !! eid =
     match edges s !! eid with
     | Some e => if decide (Edge.from e = id ∨ Edge.to e = id) then None else Some e
     | None => None
     end).
Proof.
  split.
  - intros Hn. unfold delete_node. rewrite Hn. reflexivity.
  - intros [x Hx]. split_and!.
    + unfold delete_node. rewrite Hx. reflexivity.
    + unfold delete_node, get_node. rewrite Hx. cbn.
      destruct (outgoing_edges s !! id); cbn; destruct (incoming_edges s !! id); cbn;
        rewrite ?lookup_delete_eq; reflexivity.
    + intros eid. rewrite (delete_node_edges id s x eid Hx).
      destruct (Hc id eid) as [Ho Hi].
      destruct (edges s !! eid) as [e|] eqn:He.
      * assert (Hout : eid ∈ adj (outgoing_edges s) id ↔ Edge.from e = id).
        { rewrite Ho. split; [intros [e' [He' ?]]; congruence | eauto]. }
        assert (Hinn : eid ∈ adj (incoming_edges s) id ↔ Edge.to e = id).
        { rewrite Hi. split; [intros [e' [He' ?]]; congruence | eauto]. }
        clear Ho Hi. repeat case_decide; naive_solver.
      * repeat case_decide; reflexivity.
Qed.

End MemoryExtras.

Section MemoryExtras2.
Import MemoryStorage.

(** X7: update_edge on an unknown edge id fails with EdgeNotFound and changes
    nothing. On a stored id it succeeds without touching the adjacency
    lists, and consistency is kept when the new edge has the same endpoints
    as the old one. *)
Theorem update_edge_same_endpoints_consistent (e : Edge.t) (s : MemoryStorage.t)
    (Hc : adjacency_consistent s) :
  (edges s !! Edge.id e = None ->
   update_edge e s = (Err (EdgeNotFound (Edge.id e)), s)) ∧
  (∀ old, edges s !! Edge.id e = Some old ->
   fst (update_edge e s) = Ok tt ∧
   outgoing_edges (snd (update_edge e s)) = outgoing_edges s ∧
   incoming_edges (snd (update_edge e s)) = incoming_edges s ∧
   (Edge.from old = Edge.from e -> Edge.to old = Edge.to e ->
    adjacency_consistent (snd (update_edge e s)))).
Proof.
  unfold update_edge. split.
  - intros Hn. rewrite Hn. reflexivity.
  - intros old Hold. rewrite Hold. cbn. split_and!; try reflexivity.
    intros Hf Ht n eid. cbn [outgoing_edges incoming_edges edges set_edges].
    destruct (Hc n eid) as [Ho Hi]. rewrite Ho, Hi.
    destruct (decide (eid = Edge.id e)) as [->|Hne].
    + rewrite lookup_insert_eq, Hold. split; split.
      * intros [e' [[= <-] ?]]. exists e. split; congruence.
      * intros [e' [[= <-] ?]]. exists old. split; congruence.
      * intros [e' [[= <-] ?]]. exists e. split; congruence.
      * intros [e' [[= <-] ?]]. exists old. split; congruence.
    + rewrite lookup_insert_ne by congruence. tauto.
Qed.
End MemoryExtras2.

Lemma add_edge_keeps_adjacency_consistent_witness :
  MemoryStorage.edges graph_ab !! 11%N = None ∧
  MemoryStorage.adjacency_consistent
    (snd (MemoryStorage.add_edge (Edge.mk 11 2 1 "KNOWS" ∅) graph_ab)).
Proof.
  split; [vm_compute; reflexivity|].
  apply add_edge_keeps_adjacency_consistent; [exact graph_ab_consistent | vm_compute; reflexivity].
Defined.

Lemma delete_edge_keeps_adjacency_consistent_witness :
  MemoryStorage.adjacency_consistent (snd (MemoryStorage.delete_edge 10 graph_ab)) ∧
  MemoryStorage.get_edge 10 (snd (MemoryStorage.delete_edge 10 graph_ab)) = Err (EdgeNotFound 10).
Proof. apply delete_edge_keeps_adjacency_consistent. exact graph_ab_consistent. Defined.

Lemma edges_of_node_exact_witness :
  (MemoryStorage.nodes graph_ab !! 3%N = None ->
   MemoryStorage.get_outgoing_edges 3 graph_ab = Err (NodeNotFound 3) ∧
   MemoryStorage.get_incoming_edges 3 graph_ab = Err (NodeNotFound 3)) ∧
  (is_Some (MemoryStorage.nodes graph_ab !! 1%N) ->
   (∃ es, MemoryStorage.get_outgoing_edges 1 graph_ab = Ok es ∧
      ∀ e, e ∈ es ↔ ∃ eid, MemoryStorage.edges graph_ab !! eid = Some e ∧ Edge.from e = 1%N) ∧
   (∃ es, MemoryStorage.get_incoming_edges 1 graph_ab = Ok es ∧
      ∀ e, e ∈ es ↔ ∃ eid, MemoryStorage.edges graph_ab !! eid = Some e ∧ Edge.to e = 1%N)).
Proof.
  split.
  - apply (edges_of_node_exact graph_ab graph_ab_consistent 3).
  - apply (edges_of_node_exact graph_ab graph_ab_consistent 1).
Defined.

Lemma delete_node_removes_incident_edges_witness :
  fst (MemoryStorage.delete_node 1 graph_ab) = Ok tt ∧
  MemoryStorage.edges (snd (MemoryStorage.delete_node 1 graph_ab)) !! 10%N = None.
Proof.
  destruct (delete_node_removes_incident_edges 1 graph_ab graph_ab_consistent) as [_ H].
  destruct H as (Hok & _ & He); [vm_compute; eauto|].
  split; [exact Hok|]. rewrite He. vm_compute. reflexivity.
Defined.

Lemma update_edge_same_endpoints_consistent_witness :
  MemoryStorage.adjacency_consistent
    (snd (MemoryStorage.update_edge (Edge.mk 10 1 2 "LIKES" ∅) graph_ab)).
Proof.
  destruct (update_edge_same_endpoints_consistent (Edge.mk 10 1 2 "LIKES" ∅) graph_ab
              graph_ab_consistent) as [_ H].
  apply (H edge_ab); [vm_compute; reflexivity | reflexivity | reflexivity].
Defined.

Section ByteFacts.

Lemma byte_of_Z_to_N (z : Z) : Byte.to_N (Bytes.byte_of_Z z) = Z.to_N (z mod 256).
Proof.
  unfold Bytes.byte_of_Z.
  assert (Hl : Z.land z 255 = z mod 256) by (change 255 with (Z.ones 8); rewrite Z.land_ones by lia; reflexivity).
  rewrite Hl. destruct (Byte.of_N (Z.to_N (z mod 256))) as [b|] eqn:Hb.
  - apply Byte.to_of_N in Hb. exact Hb.
  - apply Byte.of_N_None_iff in Hb. pose proof (Z.mod_pos_bound z 256). lia.
Qed.

Lemma byte_to_N_inj (a b : Byte.byte) : Byte.to_N a = Byte.to_N b -> a = b.
Proof.
  intros H. pose proof (Byte.of_to_N a) as Ha. rewrite H, Byte.of_to_N in Ha. congruence.
Qed.

Lemma le_bytes_S (n : nat) (z : Z) :
  Bytes.le_bytes (S n) z = Bytes.byte_of_Z z :: Bytes.le_bytes n (Z.shiftr z 8).
Proof.
  unfold Bytes.le_bytes. cbn [seq map]. rewrite Z.shiftr_0_r. f_equal.
  rewrite <- seq_shift, map_map. apply map_ext. intros i.
  rewrite Z.shiftr_shiftr by lia. do 2 f_equal. lia.
Qed.

Lemma length_le_bytes (n : nat) (z : Z) : length (Bytes.le_bytes n z) = n.
Proof. unfold Bytes.le_bytes. rewrite length_map, length_seq. reflexivity. Qed.

Lemma le_value_le_bytes (n : nat) (z : Z) :
  le_value (Bytes.le_bytes n z) = Z.to_N (z mod 2 ^ (8 * Z.of_nat n)).
Proof.
  revert z. induction n as [|n IH]; intros z.
  - simpl. rewrite Z.mod_1_r. reflexivity.
  - rewrite le_bytes_S. cbn [le_value]. rewrite IH, byte_of_Z_to_N, Z.shiftr_div_pow2 by lia.
    change (2 ^ 8) with 256.
    set (M := 2 ^ (8 * Z.of_nat n)).
    assert (HM : 0 < M) by (apply Z.pow_pos_nonneg; lia).
    assert (HS : 2 ^ (8 * Z.of_nat (S n)) = 256 * M).
    { unfold M. rewrite Nat2Z.inj_succ, Z.mul_succ_r, Z.pow_add_r by lia. lia. }
    rewrite HS.
    pose proof (Z.mod_pos_bound z 256 ltac:(lia)) as B1.
    pose proof (Z.mod_pos_bound (z / 256) M HM) as B2.
    assert (Hm : z mod (256 * M) = z mod 256 + 256 * ((z / 256) mod M)).
    { symmetry. apply Z.mod_unique with (q := (z / 256) / M); [lia|].
      rewrite (Z.div_mod z 256) at 1 by lia.
      rewrite (Z.div_mod (z / 256) M) at 1 by lia. lia. }
    rewrite Hm. lia.
Qed.

Lemma be_value_rev (bs : list Byte.byte) : Bytes.be_value (rev bs) = le_value bs.
Proof.
  unfold Bytes.be_value. induction bs as [|b bs IH]; [reflexivity|].
  cbn [rev le_value]. rewrite foldl_app, IH. cbn. lia.
Qed.

Lemma le_value_bound (bs : list Byte.byte) : (le_value bs < 256 ^ N.of_nat (length bs))%N.
Proof.
  induction bs as [|b bs IH]; cbn [le_value length]; [lia|].
  pose proof (Byte.to_N_bounded b). rewrite Nat2N.inj_succ, N.pow_succ_r'. lia.
Qed.

Lemma le_bytes_le_value (bs : list Byte.byte) :
  Bytes.le_bytes (length bs) (Z.of_N (le_value bs)) = bs.
Proof.
  induction bs as [|b bs IH]; [reflexivity|].
  cbn [length le_value]. rewrite le_bytes_S.
  pose proof (Byte.to_N_bounded b) as Hb.
  assert (Hz : Z.of_N (Byte.to_N b + 256 * le_value bs)
               = Z.of_N (Byte.to_N b) + 256 * Z.of_N (le_value bs)) by lia.
  rewrite Hz. f_equal.
  - apply byte_to_N_inj. rewrite byte_of_Z_to_N.
    rewrite <- (Z.mod_unique _ 256 (Z.of_N (le_value bs)) (Z.of_N (Byte.to_N b))) by lia.
    apply N2Z.id.
  - rewrite Z.shiftr_div_pow2 by lia. change (2 ^ 8) with 256.
    rewrite <- (Z.div_unique _ 256 (Z.of_N (le_value bs)) (Z.of_N (Byte.to_N b))) by lia.
    exact IH.
Qed.
End ByteFacts.

Section IndexFacts.

Lemma bytes_eqb_eq (a b : list Byte.byte) : Bytes.eqb a b = true ↔ a = b.
Proof.
  revert b. induction a as [|x a IH]; intros [|y b]; simpl; try (split; congruence).
  rewrite andb_true_iff, IH. split.
  - intros [Hx ->]. apply Byte.byte_dec_bl in Hx. congruence.
  - intros [= -> ->]. split; [apply Byte.byte_dec_lb|]; reflexivity.
Qed.

Lemma bytes_compare_eq (a b : list Byte.byte) : Bytes.compare a b = Eq -> a = b.
Proof.
  revert b. induction a as [|x a IH]; intros [|y b]; simpl; try congruence.
  destruct (N.compare (Byte.to_N x) (Byte.to_N y)) eqn:Hc; try congruence.
  intros Hab. apply N.compare_eq in Hc. apply byte_to_N_inj in Hc. subst. f_equal. auto.
Qed.

Lemma is_prefix_app (p a : list Byte.byte) : Bytes.is_prefix p a = true ↔ ∃ r, a = p ++ r.
Proof.
  revert a. induction p as [|x p IH]; intros [|y a]; simpl.
  - split; eauto.
  - split; eauto.
  - split; [discriminate | intros [r Hr]; discriminate].
  - rewrite andb_true_iff, IH. split.
    + intros [Hx [r ->]]. apply Byte.byte_dec_bl in Hx. subst. eauto.
    + intros [r [= -> ->]]. split; [apply Byte.byte_dec_lb; reflexivity | eauto].
Qed.

Lemma length_encode_node_id (v : NodeId) : length (Index.encode_node_id v) = 16%nat.
Proof. unfold Index.encode_node_id. rewrite length_rev, length_le_bytes. reflexivity. Qed.

Lemma decode_encode_node_id (v : NodeId) :
  (v < 2 ^ 128)%N -> Index.decode_node_id (Index.encode_node_id v) = Ok v.
Proof.
  intros Hv. unfold Index.decode_node_id. rewrite length_encode_node_id. simpl.
  unfold Index.encode_node_id. rewrite be_value_rev, le_value_le_bytes.
  f_equal. change (8 * Z.of_nat 16) with 128.
  rewrite Z.mod_small; [apply N2Z.id|]. split; [lia|].
  change (2 ^ 128) with (Z.of_N (2 ^ 128)). lia.
Qed.

Lemma encode_decode_node_id (d : list Byte.byte) :
  length d = 16%nat -> Index.encode_node_id (Bytes.be_value d) = d.
Proof.
  intros Hd. unfold Index.encode_node_id.
  rewrite <- (rev_involutive d) at 1. rewrite be_value_rev.
  rewrite <- Hd, <- length_rev, le_bytes_le_value. apply rev_involutive.
Qed.

Lemma be_value_bound16 (d : list Byte.byte) : length d = 16%nat -> (Bytes.be_value d < 2 ^ 128)%N.
Proof.
  intros Hd. rewrite <- (rev_involutive d), be_value_rev.
  pose proof (le_value_bound (rev d)) as B. rewrite length_rev, Hd in B. exact B.
Qed.

Lemma decode_node_id_Ok (d : list Byte.byte) (v : NodeId) :
  Index.decode_node_id d = Ok v ↔ (v < 2 ^ 128)%N ∧ d = Index.encode_node_id v.
Proof.
  unfold Index.decode_node_id. destruct (Nat.eqb (length d) 16) eqn:Hl.
  - apply Nat.eqb_eq in Hl. split.
    + intros [= <-]. split; [by apply be_value_bound16|]. by rewrite encode_decode_node_id.
    + intros [Hv ->]. f_equal. rewrite <- (rev_involutive (Index.encode_node_id v)).
      unfold Index.encode_node_id at 1. rewrite rev_involutive, be_value_rev, le_value_le_bytes.
      pose proof (Nat2Z.id 16) as _.
      change (8 * Z.of_nat 16) with 128.
      rewrite Z.mod_small; [apply N2Z.id|]. split; [lia|].
      change (2 ^ 128) with (Z.of_N (2 ^ 128)). lia.
  - split; [discriminate|]. intros [_ ->]. rewrite length_encode_node_id in Hl. discriminate.
Qed.

Lemma make_key_inj (k1 k2 : list Byte.byte) (w1 w2 : NodeId) :
  (w1 < 2 ^ 128)%N -> (w2 < 2 ^ 128)%N ->
  Index.make_key k1 w1 = Index.make_key k2 w2 -> k1 = k2 ∧ w1 = w2.
Proof.
  unfold Index.make_key. intros H1 H2 Heq.
  apply app_inj_2 in Heq as [-> He]; [|rewrite !length_encode_node_id; reflexivity].
  split; [reflexivity|].
  pose proof (decode_encode_node_id w1 H1) as D1. rewrite He, decode_encode_node_id in D1 by exact H2.
  congruence.
Qed.

Lemma lookup_step (key ck : list Byte.byte) (w : NodeId) :
  (Bytes.is_prefix key ck && Nat.ltb (length key) (length ck) = true ∧
   Index.decode_node_id (drop (length key) ck) = Ok w) ↔
  (w < 2 ^ 128)%N ∧ ck = Index.make_key key w.
Proof.
  rewrite andb_true_iff, is_prefix_app, Nat.ltb_lt. unfold Index.make_key. split.
  - intros [[[r ->] _] Hd]. rewrite drop_app_length in Hd.
    apply decode_node_id_Ok in Hd as [Hw ->]. auto.
  - intros [Hw ->]. rewrite drop_app_length, length_app, length_encode_node_id.
    split; [split; [eauto | lia] | by apply decode_encode_node_id].
Qed.

Lemma btree_lookup_ids (key : list Byte.byte) (t : Index.BTreeIndex) (w : NodeId) :
  w ∈ ids_of (Index.btree_lookup key t) ↔ (w < 2 ^ 128)%N ∧ Index.make_key key w ∈ t.
Proof.
  unfold Index.btree_lookup, ids_of. induction t as [|ck t IH]; simpl.
  - split; [intros Hin; inversion Hin | intros [_ Hin]; inversion Hin].
  - rewrite elem_of_cons.
    pose proof (lookup_step key ck w) as Hs.
    destruct (Bytes.is_prefix key ck && Nat.ltb (length key) (length ck)) eqn:Hc.
    + destruct (Index.decode_node_id (drop (length key) ck)) as [id|e] eqn:Hd.
      * rewrite elem_of_cons, IH.
        assert (w = id ↔ (w < 2 ^ 128)%N ∧ ck = Index.make_key key w)
          by (rewrite <- Hs; split; [intros ->; auto | intros [_ [=]]; auto]).
        naive_solver.
      * rewrite IH. assert (¬ ((w < 2 ^ 128)%N ∧ ck = Index.make_key key w))
          by (rewrite <- Hs; intros [_ [=]]). naive_solver.
    + rewrite IH. assert (¬ ((w < 2 ^ 128)%N ∧ ck = Index.make_key key w))
        by (rewrite <- Hs; intros [[=] _]). naive_solver.
Qed.

Lemma tree_insert_elem (k k' : list Byte.byte) (t : Index.BTreeIndex) :
  k' ∈ Index.tree_insert k t ↔ k' = k ∨ k' ∈ t.
Proof.
  induction t as [|k0 t IH]; simpl.
  - rewrite list_elem_of_singleton. split; [auto | intros [?|Hin]; [done | inversion Hin]].
  - destruct (Bytes.compare k k0) eqn:Hc.
    + apply bytes_compare_eq in Hc. subst. rewrite elem_of_cons. naive_solver.
    + rewrite !elem_of_cons. naive_solver.
    + rewrite !elem_of_cons, IH. naive_solver.
Qed.

Lemma tree_remove_elem (k k' : list Byte.byte) (t : Index.BTreeIndex) :
  k' ∈ Index.tree_remove k t ↔ k' ∈ t ∧ k' ≠ k.
Proof.
  unfold Index.tree_remove. rewrite list_elem_of_filter.
  destruct (Bytes.eqb k' k) eqn:He.
  - apply bytes_eqb_eq in He. naive_solver.
  - split; [intros [_ Hin]; split; [done|] | intros [Hin _]; done].
    intros ->. assert (Bytes.eqb k k = true) by (by apply bytes_eqb_eq). congruence.
Qed.

Lemma hash_get_insert (key key' : list Byte.byte) (v : NodeId) (h : Index.HashIndex) :
  default [] (Index.hash_get key' (Index.hash_insert key v h)) =
    if decide (key' = key) then default [] (Index.hash_get key h) ++ [v]
    else default [] (Index.hash_get key' h).
Proof.
  induction h as [|[k ids] h IH]; simpl.
  - destruct (Bytes.eqb key key') eqn:He.
    + apply bytes_eqb_eq in He. subst. rewrite decide_True by done. reflexivity.
    + rewrite decide_False; [reflexivity|]. intros ->.
      assert (Bytes.eqb key key = true) by (by apply bytes_eqb_eq). congruence.
  - destruct (Bytes.eqb k key) eqn:Hk.
    + apply bytes_eqb_eq in Hk. subst k. simpl.
      destruct (decide (key' = key)) as [->|Hne].
      * assert (Bytes.eqb key key = true) as E by (by apply bytes_eqb_eq). rewrite E. reflexivity.
      * destruct (Bytes.eqb key key') eqn:E; [apply bytes_eqb_eq in E; congruence|]. reflexivity.
    + simpl. destruct (Bytes.eqb k key') eqn:E.
      * apply bytes_eqb_eq in E. rewrite decide_False; [reflexivity|].
        intros Heq. assert (Bytes.eqb k key = true) by (apply bytes_eqb_eq; congruence).
        congruence.
      * exact IH.
Qed.
End IndexFacts.

Section IndexFacts2.

Lemma hash_insert_keys (key x : list Byte.byte) (v : NodeId) (h : Index.HashIndex) :
  x ∈ (Index.hash_insert key v h).*1 ↔ x = key ∨ x ∈ h.*1.
Proof.
  induction h as [|[k ids] h IH]; simpl.
  - rewrite list_elem_of_singleton. split; [auto | intros [?|Hin]; [done | inversion Hin]].
  - destruct (Bytes.eqb k key) eqn:Hk; simpl; rewrite !elem_of_cons.
    + apply bytes_eqb_eq in Hk. subst. naive_solver.
    + rewrite IH. naive_solver.
Qed.

Lemma hash_remove_keys (key x : list Byte.byte) (v : NodeId) (h : Index.HashIndex) :
  x ∈ (Index.hash_remove key v h).*1 -> x ∈ h.*1.
Proof.
  induction h as [|[k ids] h IH]; simpl; [done|].
  destruct (Bytes.eqb k key).
  - destruct (filter (fun id => id ≠ v) ids); simpl; rewrite ?elem_of_cons; naive_solver.
  - simpl. rewrite !elem_of_cons. naive_solver.
Qed.

Lemma hash_get_None (key : list Byte.byte) (h : Index.HashIndex) :
  key ∉ h.*1 -> Index.hash_get key h = None.
Proof.
  induction h as [|[k ids] h IH]; simpl; [done|].
  rewrite elem_of_cons. intros Hn.
  destruct (Bytes.eqb k key) eqn:Hk; [apply bytes_eqb_eq in Hk; naive_solver|].
  apply IH. naive_solver.
Qed.

(** X8: The hash index keeps each key at most once and never keeps a key with an
    empty id list: the empty index has this property, and insert and remove
    preserve it. *)
Theorem hash_index_entries_wf (key : list Byte.byte) (v : NodeId) (h : Index.HashIndex) :
  hash_wf [] ∧
  (hash_wf h -> hash_wf (Index.hash_insert key v h) ∧ hash_wf (Index.hash_remove key v h)).
Proof.
  split; [split; constructor|].
  intros [Hnd Hne]. split; split.
  - induction h as [|[k ids] h IH]; simpl.
    + constructor; [set_solver | constructor].
    + simpl in Hnd. apply NoDup_cons in Hnd as [Hk Hnd].
      destruct (Bytes.eqb k key) eqn:Hkk; simpl.
      * by apply NoDup_cons.
      * apply NoDup_cons. split; [|apply IH; [exact Hnd | by inversion Hne]].
        rewrite hash_insert_keys. intros [->|Hin]; [|done].
        assert (Bytes.eqb key key = true) by (by apply bytes_eqb_eq). congruence.
  - induction h as [|[k ids] h IH]; simpl.
    + repeat constructor. simpl. discriminate.
    + inversion Hne as [|? ? Hids Hrest]; subst. simpl in Hnd. apply NoDup_cons in Hnd as [_ Hnd].
      destruct (Bytes.eqb k key).
      * constructor; [simpl; intros Hnil; apply app_nil in Hnil as [_ ?]; discriminate | done].
      * constructor; [done | apply IH; done].
  - induction h as [|[k ids] h IH]; simpl; [constructor|].
    simpl in Hnd. apply NoDup_cons in Hnd as [Hk Hnd].
    destruct (Bytes.eqb k key).
    + destruct (filter (fun id => id ≠ v) ids); simpl; [done|].
      apply NoDup_cons. done.
    + simpl. apply NoDup_cons. split; [|apply IH; [done | by inversion Hne]].
      intros Hin. apply Hk. by eapply hash_remove_keys.
  - induction h as [|[k ids] h IH]; simpl; [constructor|].
    inversion Hne as [|? ? Hids Hrest]; subst. simpl in Hnd. apply NoDup_cons in Hnd as [_ Hnd].
    destruct (Bytes.eqb k key).
    + destruct (filter (fun id => id ≠ v) ids) eqn:Hf; [done|].
      constructor; [simpl; discriminate | done].
    + constructor; [done | apply IH; done].
Qed.

(** X9: On a hash index with distinct keys, after remove(key, v) a lookup of key
    returns the previous ids with every occurrence of v removed, and a
    lookup of any other key is unchanged. *)
Theorem hash_remove_then_lookup (key key' : list Byte.byte) (v : NodeId) (h : Index.HashIndex)
    (Hnd : NoDup h.*1) :
  Index.hash_lookup key' (Index.hash_remove key v h) =
    if decide (key' = key)
    then Ok (filter (fun id => id ≠ v) (ids_of (Index.hash_lookup key h)))
    else Index.hash_lookup key' h.
Proof.
  unfold Index.hash_lookup, ids_of.
  induction h as [|[k ids] h IH]; simpl.
  - case_decide; reflexivity.
  - simpl in Hnd. apply NoDup_cons in Hnd as [Hk Hnd].
    destruct (Bytes.eqb k key) eqn:Hkk.
    + apply bytes_eqb_eq in Hkk. subst k.
      destruct (decide (key' = key)) as [->|Hne].
      * assert (Bytes.eqb key key = true) as E by (by apply bytes_eqb_eq).
        destruct (filter (fun id => id ≠ v) ids) as [|a l] eqn:Hf; simpl.
        -- rewrite hash_get_None by exact Hk. rewrite ?E. simpl. rewrite Hf. reflexivity.
        -- rewrite ?E. simpl. rewrite Hf. reflexivity.
      * assert (Bytes.eqb key key' = false) as E.
        { destruct (Bytes.eqb key key') eqn:E; [apply bytes_eqb_eq in E; congruence | done]. }
        destruct (filter (fun id => id ≠ v) ids); simpl; rewrite E; reflexivity.
    + simpl. destruct (Bytes.eqb k key') eqn:E.
      * apply bytes_eqb_eq in E. subst k. rewrite decide_False; [reflexivity|].
        intros Heq. rewrite Heq in Hkk.
        assert (Bytes.eqb key key = true) by (by apply bytes_eqb_eq). congruence.
      * apply IH. exact Hnd.
Qed.

Lemma hash_remove_then_lookup_witness :
  NoDup ([([Byte.x01], [1%N; 2%N])] : Index.HashIndex).*1 ∧
  Index.hash_lookup [Byte.x01] (Index.hash_remove [Byte.x01] 1 [([Byte.x01], [1%N; 2%N])]) =
    Ok (filter (fun id => id ≠ 1%N)
          (ids_of (Index.hash_lookup [Byte.x01] [([Byte.x01], [1%N; 2%N])]))).
Proof.
  assert (Hnd : NoDup ([([Byte.x01], [1%N; 2%N])] : Index.HashIndex).*1) by (apply (bool_decide_unpack _); vm_compute; reflexivity).
  split; [exact Hnd|].
  rewrite (hash_remove_then_lookup [Byte.x01] [Byte.x01] 1 _ Hnd).
  rewrite decide_True by reflexivity. reflexivity.
Defined.

(** X10: After insert(key, v) on a hash index, a lookup of key returns the
    previous ids followed by v (a duplicate id is appended again), and a
    lookup of any other key is unchanged. *)
Theorem hash_insert_then_lookup (key key' : list Byte.byte) (v : NodeId) (h : Index.HashIndex) :
  Index.hash_lookup key' (Index.hash_insert key v h) =
    if decide (key' = key) then Ok (ids_of (Index.hash_lookup key h) ++ [v])
    else Index.hash_lookup key' h.
Proof.
  unfold Index.hash_lookup, ids_of. rewrite hash_get_insert. case_decide; reflexivity.
Qed.

(** X11: B-tree lookup of a key always succeeds and returns exactly the ids w
    below 2^128 whose composite key (the key followed by the 16 big-endian
    bytes of w) is stored. *)
Theorem btree_lookup_exact (key : list Byte.byte) (t : Index.BTreeIndex) :
  ∃ ids, Index.btree_lookup key t = Ok ids ∧
    ∀ w, w ∈ ids ↔ (w < 2 ^ 128)%N ∧ Index.make_key key w ∈ t.
Proof.
  exists (ids_of (Index.btree_lookup key t)). split; [reflexivity|].
  intros w. apply btree_lookup_ids.
Qed.

(** X12: For an id v below 2^128, B-tree insert(key, v) and remove(key, v)
    succeed; afterwards a lookup of any key returns the previous ids plus v
    for that key (insert), or minus v for that key (remove), and is
    unchanged for other keys. *)
Theorem btree_insert_remove_lookup (key key' : list Byte.byte) (v w : NodeId)
    (t : Index.BTreeIndex) (Hv : (v < 2 ^ 128)%N) :
  fst (Index.btree_insert key v t) = Ok tt ∧
  fst (Index.btree_remove key v t) = Ok tt ∧
  (w ∈ ids_of (Index.btree_lookup key' (snd (Index.btree_insert key v t))) ↔
     w ∈ ids_of (Index.btree_lookup key' t) ∨ (key' = key ∧ w = v)) ∧
  (w ∈ ids_of (Index.btree_lookup key' (snd (Index.btree_remove key v t))) ↔
     w ∈ ids_of (Index.btree_lookup key' t) ∧ ¬ (key' = key ∧ w = v)).
Proof.
  split_and!; [reflexivity | reflexivity | |];
    unfold Index.btree_insert, Index.btree_remove; cbn [fst snd]; rewrite !btree_lookup_ids.
  - rewrite tree_insert_elem. split.
    + intros [Hw [Heq|Hin]]; [|auto].
      apply make_key_inj in Heq as [-> ->]; auto.
    + intros [[Hw Hin]|[-> ->]]; auto.
  - rewrite tree_remove_elem. split.
    + intros [Hw [Hin Hne]]. split; [auto|]. intros [-> ->]. auto.
    + intros [[Hw Hin] Hn]. split_and!; [done | done|].
      intros Heq. apply make_key_inj in Heq as [-> ->]; auto.
Qed.

Lemma btree_insert_remove_lookup_witness :
  (1 < 2 ^ 128)%N ∧
  (1%N ∈ ids_of (Index.btree_lookup [Byte.x07] (snd (Index.btree_insert [Byte.x07] 1 []))) ↔
     1%N ∈ ids_of (Index.btree_lookup [Byte.x07] []) ∨ ([Byte.x07] = [Byte.x07] ∧ 1%N = 1%N)).
Proof.
  assert (Hv : (1 < 2 ^ 128)%N) by lia.
  split; [exact Hv|].
  apply (btree_insert_remove_lookup [Byte.x07] [Byte.x07] 1 1 [] Hv).
Defined.

(** X13: encode_node_id always yields 16 bytes, decode_node_id inverts it on ids
    below 2^128, and decode_node_id succeeds with v only on the encoding of
    v. *)
Theorem node_id_bytes_round_trip (v : NodeId) (d : list Byte.byte) :
  ((v < 2 ^ 128)%N -> Index.decode_node_id (Index.encode_node_id v) = Ok v) ∧
  length (Index.encode_node_id v) = 16%nat ∧
  (Index.decode_node_id d = Ok v -> d = Index.encode_node_id v).
Proof.
  split_and!.
  - apply decode_encode_node_id.
  - apply length_encode_node_id.
  - intros Hd. apply decode_node_id_Ok in Hd as [_ ->]. reflexivity.
Qed.
End IndexFacts2.

Section ManagerFacts.

Lemma hash_lookup_single (bytes bytes' : list Byte.byte) (id : NodeId) :
  Index.hash_lookup bytes' (Index.hash_insert bytes id []) =
    if decide (bytes' = bytes) then Ok [id] else Ok [].
Proof.
  unfold Index.hash_lookup. simpl.
  destruct (Bytes.eqb bytes bytes') eqn:E.
  - apply bytes_eqb_eq in E. subst. rewrite decide_True; reflexivity.
  - rewrite decide_False; [reflexivity|]. intros ->.
    assert (Bytes.eqb bytes bytes = true) by (by apply bytes_eqb_eq). congruence.
Qed.

Lemma le_bytes_8_eq (a b : Z) :
  Bytes.le_bytes 8 a = Bytes.le_bytes 8 b ↔ a mod 2 ^ 64 = b mod 2 ^ 64.
Proof.
  split.
  - intros H. apply (f_equal le_value) in H. rewrite !le_value_le_bytes in H.
    change (8 * Z.of_nat 8) with 64 in H.
    pose proof (Z.mod_pos_bound a (2 ^ 64) ltac:(lia)).
    pose proof (Z.mod_pos_bound b (2 ^ 64) ltac:(lia)). lia.
  - intros H.
    rewrite <- (le_bytes_le_value (Bytes.le_bytes 8 a)), <- (le_bytes_le_value (Bytes.le_bytes 8 b)).
    rewrite !length_le_bytes, !le_value_le_bytes. change (8 * Z.of_nat 8) with 64.
    rewrite H. reflexivity.
Qed.

Lemma btree_lookup_insert_ids (b b' : list Byte.byte) (id w : NodeId) (t0 : Index.BTreeIndex)
    (Hid : (id < 2 ^ 128)%N) :
  w ∈ ids_of (Index.btree_lookup b' (Index.tree_insert (Index.make_key b id) t0)) ↔
    (b' = b ∧ w = id) ∨ w ∈ ids_of (Index.btree_lookup b' t0).
Proof.
  rewrite !btree_lookup_ids, tree_insert_elem. split.
  - intros [Hw [Heq|Hin]].
    + left. apply make_key_inj in Heq; auto.
    + right. auto.
  - intros [[-> ->]|[Hw Hin]]; auto.
Qed.

(** X14: create_index of a property index on key k, where [open_btree]
    is the outcome of opening the index's sled tree. A hash index is always
    created: inserting node id (below 2^128) with value v succeeds, and
    lookup_property(k, v') then returns [id] if v' has the same index bytes
    as v and [] otherwise. A B-tree index whose tree fails to open makes
    create_index return that error and leave the manager unchanged. A B-tree
    index whose tree opens holding keys t0 is created, the insert succeeds,
    and the lookup of v' returns Ok with the ids t0 already held for v', plus
    id when v' has the index bytes of v, and nothing else. *)
Theorem property_index_round_trip (open_btree : string -> result Index.BTreeIndex)
    (ser : PropertyValue.t -> list Byte.byte)
    (name key : string) (ty : Index.IndexType) (v v' : PropertyValue.t) (id : NodeId)
    (m : Index.IndexManager) (Hid : (id < 2 ^ 128)%N) :
  let c := Index.create_index_with open_btree (Index.property_index name ty key) m in
  let r := Index.insert_property ser key v id (snd c) in
  let b := Index.property_to_bytes ser v in
  let b' := Index.property_to_bytes ser v' in
  match ty, open_btree name with
  | Index.Hash, _ =>
      fst c = Ok tt ∧ Index.has_property_index key (snd c) = true ∧ fst r = Ok tt ∧
      Index.lookup_property ser key v' (snd r) = if decide (b' = b) then Ok [id] else Ok []
  | Index.BTree, Err e => c = (Err e, m)
  | Index.BTree, Ok t0 =>
      fst c = Ok tt ∧ Index.has_property_index key (snd c) = true ∧ fst r = Ok tt ∧
      ∃ ids, Index.lookup_property ser key v' (snd r) = Ok ids ∧
        ∀ w, w ∈ ids ↔ (b' = b ∧ w = id) ∨ w ∈ ids_of (Index.btree_lookup b' t0)
  end.
Proof.
  intros c r b b'. subst c r b b'.
  unfold Index.create_index_with, Index.property_index, Index.insert_property,
    Index.lookup_property, Index.has_property_index.
  destruct ty; cbn.
  - rewrite !lookup_insert_eq. cbn.
    split_and!; [reflexivity | first [reflexivity | apply bool_decide_eq_true; eauto] | |];
      rewrite ?lookup_insert_eq; cbn; rewrite ?lookup_insert_eq; try reflexivity.
    apply hash_lookup_single.
  - destruct (open_btree name) as [t0|e]; [|reflexivity]. cbn.
    rewrite !lookup_insert_eq. cbn.
    split_and!; [reflexivity | first [reflexivity | apply bool_decide_eq_true; eauto] | |];
      rewrite ?lookup_insert_eq; cbn; rewrite ?lookup_insert_eq; try reflexivity.
    eexists. split; [reflexivity|]. intros w.
    apply (btree_lookup_insert_ids _ _ id w t0 Hid).
Qed.

Lemma property_index_round_trip_witness :
  (5 < 2 ^ 128)%N ∧
  ∃ ids, Index.lookup_property (fun _ => []) "age" (PropertyValue.Integer 30)
    (snd (Index.insert_property (fun _ => []) "age" (PropertyValue.Integer 30) 5
      (snd (Index.create_index_with (fun _ => Ok [Index.make_key (Bytes.le_bytes 8 30) 9])
              (Index.property_index "age_idx" Index.BTree "age") Index.new))))
    = Ok ids ∧ 5%N ∈ ids ∧ 9%N ∈ ids.
Proof.
  assert (Hid : (5 < 2 ^ 128)%N) by lia. split; [exact Hid|].
  pose proof (property_index_round_trip (fun _ => Ok [Index.make_key (Bytes.le_bytes 8 30) 9])
     (fun _ => []) "age_idx" "age" Index.BTree
     (PropertyValue.Integer 30) (PropertyValue.Integer 30) 5 Index.new Hid) as H.
  cbv beta iota zeta in H. destruct H as (_ & _ & _ & ids & Hl & Hm).
  exists ids. split; [exact Hl|]. split; apply Hm.
  - left. split; reflexivity.
  - right. apply (bool_decide_unpack _). vm_compute. reflexivity.
Defined.

(** X15: create_index of a label index named name, where [open_btree] is
    the outcome of opening the index's sled tree. A B-tree index whose tree
    fails to open makes create_index return that error and leave the manager
    unchanged. Otherwise the index is created and exists for label name, and
    insert_label(name, id) with id below 2^128 succeeds. lookup_label(name)
    then returns [id] for a hash index; for a B-tree index that opened holding
    keys t0 it returns Ok with id and the ids t0 already held for name, and
    nothing else. A label without an index has none afterwards, inserting
    under it is a successful no-op, and looking it up returns []. *)
Theorem label_index_round_trip (open_btree : string -> result Index.BTreeIndex)
    (name l : string) (ty : Index.IndexType) (id : NodeId)
    (m : Index.IndexManager) (Hid : (id < 2 ^ 128)%N) :
  let c := Index.create_index_with open_btree (Index.label_index name ty) m in
  let m1 := snd c in
  let others := Index.label_indices m !! l = None -> l ≠ name ->
       Index.has_label_index l m1 = false ∧
       Index.insert_label l id m1 = (Ok tt, m1) ∧ Index.lookup_label l m1 = Ok [] in
  match ty, open_btree name with
  | Index.Hash, _ =>
      fst c = Ok tt ∧ Index.has_label_index name m1 = true ∧
      fst (Index.insert_label name id m1) = Ok tt ∧
      Index.lookup_label name (snd (Index.insert_label name id m1)) = Ok [id] ∧ others
  | Index.BTree, Err e => c = (Err e, m)
  | Index.BTree, Ok t0 =>
      fst c = Ok tt ∧ Index.has_label_index name m1 = true ∧
      fst (Index.insert_label name id m1) = Ok tt ∧
      (∃ ids, Index.lookup_label name (snd (Index.insert_label name id m1)) = Ok ids ∧
         ∀ w, w ∈ ids ↔ w = id ∨
                        w ∈ ids_of (Index.btree_lookup (String.list_byte_of_string name) t0)) ∧
      others
  end.
Proof.
  intros c m1 others. subst c m1 others.
  unfold Index.create_index_with, Index.label_index, Index.insert_label,
    Index.lookup_label, Index.has_label_index.
  destruct ty; cbn.
  - split_and!.
    + reflexivity.
    + apply bool_decide_eq_true. rewrite lookup_insert_eq. eauto.
    + rewrite !lookup_insert_eq. reflexivity.
    + rewrite !lookup_insert_eq. cbn. rewrite !lookup_insert_eq.
      pose proof (hash_lookup_single (String.list_byte_of_string name)
        (String.list_byte_of_string name) id) as H.
      rewrite decide_True in H by reflexivity. exact H.
    + intros Hl Hne. cbn. rewrite lookup_insert_ne by congruence. rewrite Hl.
      split_and!; [apply bool_decide_eq_false; intros [? ?]; discriminate | reflexivity | reflexivity].
  - destruct (open_btree name) as [t0|e]; [|reflexivity]. cbn. split_and!.
    + reflexivity.
    + apply bool_decide_eq_true. rewrite lookup_insert_eq. eauto.
    + rewrite !lookup_insert_eq. reflexivity.
    + rewrite !lookup_insert_eq. cbn. rewrite !lookup_insert_eq.
      eexists. split; [reflexivity|]. intros w.
      pose proof (btree_lookup_insert_ids (String.list_byte_of_string name)
        (String.list_byte_of_string name) id w t0 Hid) as Hb.
      cbn in Hb. rewrite Hb. naive_solver.
    + intros Hl Hne. cbn. rewrite lookup_insert_ne by congruence. rewrite Hl.
      split_and!; [apply bool_decide_eq_false; intros [? ?]; discriminate | reflexivity | reflexivity].
Qed.

Lemma label_index_round_trip_witness :
  (3 < 2 ^ 128)%N ∧
  Index.lookup_label "Person"
    (snd (Index.insert_label "Person" 3
      (snd (Index.create_index_with (fun _ => Err (StorageError "Failed to open temp sled"))
              (Index.label_index "Person" Index.Hash) Index.new))))
  = Ok [3%N].
Proof.
  assert (Hid : (3 < 2 ^ 128)%N) by lia. split; [exact Hid|].
  pose proof (label_index_round_trip (fun _ => Err (StorageError "Failed to open temp sled"))
     "Person" "Person" Index.Hash 3 Index.new Hid) as H.
  cbv beta iota zeta in H. apply H.
Defined.

(** X16: drop_index of an unknown name fails with the StorageError 'Index <name>
    not found' and changes nothing. Otherwise it succeeds, the index count
    drops by one, the name is no longer listed, the label and property
    entries pointing to it are removed and only those, and labels or keys
    that used it have no index and look up as []. *)
Theorem drop_index_effect (name : string) (m : Index.IndexManager) :
  (Index.indices m !! name = None ->
     Index.drop_index name m = (Err (StorageError ("Index " ++ name ++ " not found")), m)) ∧
  (∀ i, Index.indices m !! name = Some i ->
     (let m' := snd (Index.drop_index name m) in
     fst (Index.drop_index name m) = Ok tt ∧
     Index.index_count m' = pred (Index.index_count m) ∧
     (name ∉ Index.list_indices m') ∧
     (∀ l n, Index.label_indices m' !! l = Some n ↔
               (Index.label_indices m !! l = Some n ∧ n ≠ name)) ∧
     (∀ k n, Index.property_indices m' !! k = Some n ↔
               (Index.property_indices m !! k = Some n ∧ n ≠ name)) ∧
     (∀ l, Index.label_indices m !! l = Some name ->
        Index.has_label_index l m' = false ∧ Index.lookup_label l m' = Ok []) ∧
     (∀ ser k v, Index.property_indices m !! k = Some name ->
        Index.has_property_index k m' = false ∧ Index.lookup_property ser k v m' = Ok []))).
Proof.
  unfold Index.drop_index. split.
  - intros ->. reflexivity.
  - intros i Hi. rewrite Hi. cbn [fst snd].
    split_and!.
    + reflexivity.
    + unfold Index.index_count. cbn. apply map_size_delete_Some. eauto.
    + unfold Index.list_indices. cbn. rewrite list_elem_of_fmap.
      intros [[k x] [Hk Hin]]. cbn in Hk. subst k.
      apply elem_of_map_to_list in Hin. rewrite lookup_delete_eq in Hin. discriminate.
    + intros l n. cbn. rewrite map_lookup_filter_Some. reflexivity.
    + intros k n. cbn. rewrite map_lookup_filter_Some. reflexivity.
    + intros l Hl. unfold Index.has_label_index, Index.lookup_label. cbn.
      assert (H : filter (fun '(_, v) => v ≠ name) (Index.label_indices m) !! l = None).
      { apply map_lookup_filter_None. right. intros x Hx. rewrite Hl in Hx. injection Hx as <-.
        cbn. tauto. }
      rewrite H. split; [apply bool_decide_eq_false; intros [? ?]; discriminate | reflexivity].
    + intros ser k v Hk. unfold Index.has_property_index, Index.lookup_property. cbn.
      assert (H : filter (fun '(_, v) => v ≠ name) (Index.property_indices m) !! k = None).
      { apply map_lookup_filter_None. right. intros x Hx. rewrite Hk in Hx. injection Hx as <-.
        cbn. tauto. }
      rewrite H. split; [apply bool_decide_eq_false; intros [? ?]; discriminate | reflexivity].
Qed.

(** X17: property_to_bytes maps Boolean(false), Null and the one-character string
    NUL to the same bytes, and maps Integer(i) and Float(f) to the same
    bytes exactly when i and the bits of f agree modulo 2^64; two integers
    collide exactly when equal modulo 2^64. *)
Theorem property_bytes_collisions (ser : PropertyValue.t -> list Byte.byte) :
  (∀ b, Index.property_to_bytes ser (PropertyValue.Boolean b) =
          Index.property_to_bytes ser PropertyValue.Null ↔ b = false) ∧
  (∀ s, Index.property_to_bytes ser (PropertyValue.String s) =
          Index.property_to_bytes ser PropertyValue.Null ↔
        s = String.string_of_list_byte [Byte.x00]) ∧
  (∀ i f, Index.property_to_bytes ser (PropertyValue.Integer i) =
            Index.property_to_bytes ser (PropertyValue.Float f) ↔
          i mod 2 ^ 64 = Index.f64_bits f mod 2 ^ 64) ∧
  (∀ i j, Index.property_to_bytes ser (PropertyValue.Integer i) =
            Index.property_to_bytes ser (PropertyValue.Integer j) ↔
          i mod 2 ^ 64 = j mod 2 ^ 64).
Proof.
  split_and!.
  - intros []; cbn; split; congruence.
  - intros s. cbn. split.
    + intros H. rewrite <- (String.string_of_list_byte_of_string s), H. reflexivity.
    + intros ->. reflexivity.
  - intros i f. cbn. apply le_bytes_8_eq.
  - intros i j. cbn. apply le_bytes_8_eq.
Qed.
End ManagerFacts.

Section DeadlockExtra.
Import Deadlock.

(** A [false] answer of the search never grows the recursion stack. *)
Lemma dfs_false_stack (fuel : nat) (wf : gmap N (gset N)) :
  ∀ n V R V' R', dfs_cycle_check fuel wf n V R = Some (false, V', R') -> R' ⊆ R.
Proof.
  induction fuel as [|fuel IH]; intros n V R V' R' Hd; simpl in Hd; [discriminate|].
  assert (Hloop : ∀ ns V0 R0 V1 R1,
            dfs_loop (dfs_cycle_check fuel wf) ns V0 R0 = Some (false, V1, R1) -> R1 ⊆ R0).
  { induction ns as [|m ns IHns]; intros V0 R0 V1 R1 Hl; simpl in Hl.
    - injection Hl as <- <-. set_solver.
    - destruct (decide (m ∉ V0)).
      + destruct (dfs_cycle_check fuel wf m V0 R0) as [[[[|] v] r]|] eqn:Hm; try discriminate.
        apply IH in Hm. apply IHns in Hl. set_solver.
      + destruct (decide (m ∈ R0)); [discriminate|]. eapply IHns; eassumption. }
  destruct (dfs_loop (dfs_cycle_check fuel wf) (elements (default ∅ (wf !! n)))
              ({[n]} ∪ V) ({[n]} ∪ R)) as [[[[|] v] r]|] eqn:Hl; try discriminate.
  injection Hd as <- <-. apply Hloop in Hl. set_solver.
Qed.

(** A [true] answer comes from a back edge to a node of the recursion
    stack, all of whose nodes reach the current one: there is a cycle. *)
Lemma dfs_true_cycle (d : DeadlockDetector) (fuel : nat) :
  ∀ n V R V' R', dfs_cycle_check fuel (wait_for d) n V R = Some (true, V', R') ->
    (∀ x, x ∈ R -> clos_refl_trans N (waits d) x n) ->
    ∃ y, clos_trans N (waits d) y y.
Proof.
  induction fuel as [|fuel IH]; intros n V R V' R' Hd HR; simpl in Hd; [discriminate|].
  assert (Hloop : ∀ ns V0 R0 V1 R1,
            (∀ m, m ∈ ns -> waits d n m) ->
            (∀ x, x ∈ R0 -> clos_refl_trans N (waits d) x n) ->
            dfs_loop (dfs_cycle_check fuel (wait_for d)) ns V0 R0 = Some (true, V1, R1) ->
            ∃ y, clos_trans N (waits d) y y).
  { induction ns as [|m ns IHns]; intros V0 R0 V1 R1 Hns HR0 Hl; simpl in Hl; [discriminate|].
    assert (Hm : waits d n m) by (apply Hns; left).
    destruct (decide (m ∉ V0)).
    + destruct (dfs_cycle_check fuel (wait_for d) m V0 R0) as [[[[|] v] r]|] eqn:Hc;
        try discriminate.
      * eapply IH; [exact Hc|]. intros x Hx.
        eapply rt_trans; [apply HR0, Hx | apply rt_step, Hm].
      * apply dfs_false_stack in Hc.
        eapply IHns; [intros k Hk; apply Hns; right; exact Hk | | exact Hl].
        intros x Hx. apply HR0. set_solver.
    + destruct (decide (m ∈ R0)) as [HmR|].
      * exists m. exact (clos_rt_t _ _ _ _ _ (HR0 m HmR) (t_step _ _ _ _ Hm)).
      * eapply IHns; [intros k Hk; apply Hns; right; exact Hk | exact HR0 | exact Hl]. }
  destruct (dfs_loop (dfs_cycle_check fuel (wait_for d)) (elements (default ∅ (wait_for d !! n)))
              ({[n]} ∪ V) ({[n]} ∪ R)) as [[[[|] v] r]|] eqn:Hl; try discriminate.
  eapply Hloop; [| | exact Hl].
  - intros m Hm. apply elem_of_elements in Hm. apply waits_succ. exact Hm.
  - intros x Hx. apply elem_of_union in Hx as [Hx|Hx].
    + apply elem_of_singleton in Hx. subst. apply rt_refl.
    + apply HR, Hx.
Qed.

Lemma has_cycle_true_cycle (d : DeadlockDetector) (t : N) :
  has_cycle d t = true -> ∃ y, clos_trans N (waits d) y y.
Proof.
  unfold has_cycle.
  destruct (has_cycle_fuel_enough d t) as (b & V' & R' & Hd). rewrite Hd.
  intros ->. eapply dfs_true_cycle; [exact Hd|]. intros x Hx. set_solver.
Qed.

(** A path to [t] only uses edges leaving nodes other than [t]. *)
Lemma rt_to_target (R1 R2 : relation N) (t : N)
    (Hsame : ∀ x y, x ≠ t -> R1 x y -> R2 x y) :
  ∀ x, clos_refl_trans N R1 x t -> clos_refl_trans N R2 x t.
Proof.
  intros x Hx. apply clos_rt_rt1n_iff in Hx.
  assert (Hgen : ∀ a b, clos_refl_trans_1n N R1 a b -> b = t -> clos_refl_trans N R2 a b).
  { intros a b Hab. induction Hab as [|a z b Hs Hzb IH]; intros Hb; [apply rt_refl|].
    destruct (decide (a = t)) as [->|Hat]; [subst b; apply rt_refl|].
    eapply rt_trans; [apply rt_step, Hsame; eassumption | exact (IH Hb)]. }
  exact (Hgen x t Hx eq_refl).
Qed.

End DeadlockExtra.

Section DeadlockExtra2.
Import Deadlock.

Lemma clos_trans_first (R : relation N) (x z : N) :
  clos_trans N R x z -> ∃ y, R x y ∧ clos_refl_trans N R y z.
Proof.
  intros Hxz. induction Hxz as [x z Hs | x y z _ IH1 Hyz _].
  - exists z. split; [exact Hs | apply rt_refl].
  - destruct IH1 as (w & Hxw & Hwy). exists w. split; [exact Hxw|].
    eapply rt_trans; [exact Hwy | apply clos_t_clos_rt, Hyz].
Qed.

Lemma request_lock_blocked (d : DeadlockDetector) (t r h : N) (Hac : acyclic d)
    (Hh : lock_holders d !! r = Some h) (Hht : h ≠ t) :
  (fst (request_lock d t r) = Err (TransactionError deadlock_msg) <->
     clos_refl_trans N (waits d) h t) ∧
  (fst (request_lock d t r) = Err (TransactionError locked_msg) <->
     ¬ clos_refl_trans N (waits d) h t) ∧
  lock_holders (snd (request_lock d t r)) = lock_holders d ∧
  (∀ x y, waits (snd (request_lock d t r)) x y <->
     waits d x y ∨ (¬ clos_refl_trans N (waits d) h t ∧ x = t ∧ y = h)).
Proof.
  unfold request_lock. rewrite Hh, decide_False by exact Hht.
  set (d1 := mk (<[t := {[h]} ∪ default ∅ (wait_for d !! t)]> (wait_for d)) (lock_holders d)).
  assert (Hw1 : ∀ x y, waits d1 x y <-> waits d x y ∨ (x = t ∧ y = h)).
  { intros x y. rewrite !waits_succ. simpl.
    destruct (decide (x = t)) as [->|Hxt].
    - rewrite lookup_insert_eq. simpl. set_solver.
    - rewrite lookup_insert_ne by congruence. naive_solver. }
  assert (Hsame : ∀ x y, x ≠ t -> waits d1 x y -> waits d x y).
  { intros x y Hxt Hw. apply Hw1 in Hw as [Hw|[? _]]; [exact Hw | contradiction]. }
  assert (Hlift : ∀ x y, clos_refl_trans N (waits d) x y -> clos_refl_trans N (waits d1) x y).
  { intros x y Hxy. induction Hxy as [x y Hs| |x y z _ IH1 _ IH2].
    - apply rt_step, Hw1. left. exact Hs.
    - apply rt_refl.
    - eapply rt_trans; eassumption. }
  assert (Hcyc : has_cycle d1 t = true <-> clos_refl_trans N (waits d) h t).
  { split.
    - intros Hc. destruct (has_cycle_true_cycle d1 t Hc) as [y Hy].
      destruct (clos_trans_through (waits d1) (waits d) t Hsame y y Hy) as [Hd | [Hyt Hty]].
      { exfalso. exact (Hac y Hd). }
      pose proof (clos_trans_rt_t _ _ _ _ Hty Hyt) as Htt.
      destruct (clos_trans_first _ _ _ Htt) as (z & Hs & Hzt1).
      assert (Hzt : clos_refl_trans N (waits d) z t)
        by exact (rt_to_target (waits d1) (waits d) t Hsame z Hzt1).
      apply Hw1 in Hs as [Hs|[_ ->]]; [|exact Hzt].
      exfalso. apply (Hac t). exact (clos_trans_rt_t _ _ _ _ (t_step _ _ _ _ Hs) Hzt).
    - intros Hht'. destruct (has_cycle d1 t) eqn:Hc; [reflexivity|].
      exfalso. apply (has_cycle_false_no_cycle d1 t Hc).
      eapply clos_trans_rt_t; [apply t_step, Hw1; right; split; reflexivity | apply Hlift, Hht']. }
  destruct (has_cycle d1 t) eqn:Hc.
  - assert (Hr : clos_refl_trans N (waits d) h t) by (apply Hcyc; reflexivity).
    assert (Hnh : ¬ waits d t h).
    { intros Hth. apply (Hac t). exact (clos_trans_rt_t _ _ _ _ (t_step _ _ _ _ Hth) Hr). }
    simpl. rewrite lookup_insert_eq. simpl.
    split_and!.
    + split; [intros _; exact Hr | reflexivity].
    + split; [unfold deadlock_msg, locked_msg; discriminate | intros Hn; contradiction].
    + reflexivity.
    + intros x y. rewrite !waits_succ. simpl.
      destruct (decide (x = t)) as [->|Hxt].
      * rewrite lookup_insert_eq. simpl. rewrite waits_succ in Hnh. set_solver.
      * rewrite !lookup_insert_ne by congruence. rewrite <- waits_succ. naive_solver.
  - assert (Hr : ¬ clos_refl_trans N (waits d) h t) by (rewrite <- Hcyc; congruence).
    simpl. split_and!.
    + split; [unfold deadlock_msg, locked_msg; discriminate | intros Hn; contradiction].
    + split; [intros _; exact Hr | reflexivity].
    + reflexivity.
    + intros x y. rewrite (Hw1 x y). naive_solver.
Qed.

(** X18: In any reachable detector state, request_lock(t, r) on a resource held
    by another transaction h reports a deadlock exactly when h already
    reaches t in the wait-for graph, and then leaves the graph unchanged;
    otherwise it reports the resource locked and adds exactly the edge t ->
    h. The lock holders never change. *)
Theorem request_lock_blocked_outcome (ops : list Deadlock.DetectorOp) (t r h : N)
    (Hh : Deadlock.lock_holders (Deadlock.run ops Deadlock.new) !! r = Some h) (Hht : h ≠ t) :
  let d := Deadlock.run ops Deadlock.new in
  (fst (Deadlock.request_lock d t r) = Err (TransactionError Deadlock.deadlock_msg) <->
     clos_refl_trans N (Deadlock.waits d) h t) ∧
  (fst (Deadlock.request_lock d t r) = Err (TransactionError Deadlock.locked_msg) <->
     ¬ clos_refl_trans N (Deadlock.waits d) h t) ∧
  Deadlock.lock_holders (snd (Deadlock.request_lock d t r)) = Deadlock.lock_holders d ∧
  (∀ x y, Deadlock.waits (snd (Deadlock.request_lock d t r)) x y <->
     Deadlock.waits d x y ∨ (¬ clos_refl_trans N (Deadlock.waits d) h t ∧ x = t ∧ y = h)).
Proof.
  intros d. apply request_lock_blocked; [apply run_acyclic, acyclic_new | exact Hh | exact Hht].
Qed.

Lemma request_lock_blocked_outcome_witness :
  let ops := [Deadlock.RequestLock 1 100; Deadlock.RequestLock 2 200;
              Deadlock.RequestLock 1 200] in
  Deadlock.lock_holders (Deadlock.run ops Deadlock.new) !! 100%N = Some 1%N ∧ (1 ≠ 2)%N ∧
  (fst (Deadlock.request_lock (Deadlock.run ops Deadlock.new) 2 100)
     = Err (TransactionError Deadlock.deadlock_msg) <->
   clos_refl_trans N (Deadlock.waits (Deadlock.run ops Deadlock.new)) 1%N 2%N).
Proof.
  intros ops.
  assert (Hh : Deadlock.lock_holders (Deadlock.run ops Deadlock.new) !! 100%N = Some 1%N)
    by (vm_compute; reflexivity).
  assert (Hht : (1 ≠ 2)%N) by lia.
  split_and!; [exact Hh | exact Hht |].
  apply (request_lock_blocked_outcome ops 2 100 1 Hh Hht).
Defined.

End DeadlockExtra2.

Section DeadlockExtra3.
Import Deadlock.

(** X19: release_lock frees the resource whoever calls it, keeps other holders
    and the wait-for graph, and a later request_lock of that resource by
    anyone succeeds. release_all_locks(t) frees exactly t's resources, drops
    t's own wait-for entry and keeps the waits of the other transactions,
    including waits for t. *)
Theorem release_locks_effect (d : Deadlock.DeadlockDetector) (t t' r : N) :
  (Deadlock.lock_holders (Deadlock.release_lock d t' r) !! r = None ∧
   (∀ r', r' ≠ r ->
      Deadlock.lock_holders (Deadlock.release_lock d t' r) !! r' = Deadlock.lock_holders d !! r') ∧
   Deadlock.wait_for (Deadlock.release_lock d t' r) = Deadlock.wait_for d ∧
   (∀ t'', Deadlock.request_lock (Deadlock.release_lock d t' r) t'' r =
      (Ok tt, Deadlock.mk (Deadlock.wait_for d)
                (<[r := t'']> (delete r (Deadlock.lock_holders d)))))) ∧
  (∀ r', Deadlock.lock_holders (Deadlock.release_all_locks d t) !! r' =
     match Deadlock.lock_holders d !! r' with
     | Some h => if decide (h = t) then None else Some h
     | None => None
     end) ∧
  Deadlock.wait_for (Deadlock.release_all_locks d t) !! t = None ∧
  (∀ x y, x ≠ t ->
     Deadlock.waits (Deadlock.release_all_locks d t) x y <-> Deadlock.waits d x y).
Proof.
  split_and!.
  - apply lookup_delete_eq.
  - intros r' Hr'. apply lookup_delete_ne. congruence.
  - reflexivity.
  - intros t''. unfold request_lock. simpl. rewrite lookup_delete_eq. reflexivity.
  - intros r'. simpl. rewrite map_lookup_filter.
    destruct (lock_holders d !! r') as [h|]; simpl; [|reflexivity].
    case_decide as Hh; simpl.
    + rewrite option_guard_False by tauto. reflexivity.
    + rewrite option_guard_True by exact Hh. reflexivity.
  - apply lookup_delete_eq.
  - intros x y Hxt. rewrite !waits_succ. simpl. rewrite lookup_delete_ne by congruence.
    reflexivity.
Qed.

Lemma bfs_visit_spec (ns : list N) :
  ∀ V q, let '(V', q') := foldl bfs_visit (V, q) ns in
    (∀ x, x ∈ V' <-> x ∈ V ∨ x ∈ ns) ∧
    ∃ added, q' = q ++ added ∧ NoDup added ∧ (∀ x, x ∈ added <-> x ∈ ns ∧ x ∉ V).
Proof.
  induction ns as [|n ns IH]; intros V q; cbn [foldl].
  - split; [intros x; rewrite elem_of_nil; tauto|].
    exists []. split_and!; [by rewrite app_nil_r | constructor |].
    intros x. rewrite elem_of_nil. tauto.
  - assert (Hstep : bfs_visit (V, q) n =
             if decide (n ∉ V) then ({[n]} ∪ V, q ++ [n]) else (V, q)) by reflexivity.
    rewrite Hstep. destruct (decide (n ∉ V)) as [Hn|Hn].
    + specialize (IH ({[n]} ∪ V) (q ++ [n])).
      destruct (foldl bfs_visit ({[n]} ∪ V, q ++ [n]) ns) as [V' q'].
      destruct IH as [HV (added & -> & Hnd & Hadd)].
      split.
      { intros x. rewrite HV, elem_of_union, elem_of_singleton, elem_of_cons. tauto. }
      exists (n :: added). split_and!.
      * by rewrite <- app_assoc.
      * constructor; [|exact Hnd]. rewrite Hadd, elem_of_union, elem_of_singleton. tauto.
      * intros x. rewrite elem_of_cons, Hadd, elem_of_union, elem_of_singleton, elem_of_cons.
        split; [intros [->|[Hx Hx']]; tauto|].
        intros [[->|Hx] Hx']; [left; reflexivity|].
        destruct (decide (x = n)); [left; assumption | right; tauto].
    + apply dec_stable in Hn.
      specialize (IH V q). destruct (foldl bfs_visit (V, q) ns) as [V' q'].
      destruct IH as [HV (added & -> & Hnd & Hadd)].
      split.
      { intros x. rewrite HV, elem_of_cons. split; [tauto|].
        intros [Hx|[->|Hx]]; tauto. }
      exists added. split_and!; [reflexivity | exact Hnd |].
      intros x. rewrite Hadd, elem_of_cons. split; [tauto|].
      intros [[->|Hx] Hx']; [contradiction | tauto].
Qed.

Lemma bfs_correct (d : DeadlockDetector) (start : N) (U : gset N)
    (HUcl : ∀ x y, waits d x y -> y ∈ U) (fuel : nat) :
  ∀ q V res, NoDup (res ++ q) -> (∀ x, x ∈ V <-> x ∈ res ++ q) ->
    (∀ x, x ∈ V -> clos_refl_trans N (waits d) start x) ->
    (∀ x y, x ∈ res -> waits d x y -> y ∈ V) -> start ∈ V -> V ⊆ U ->
    (size U < fuel + length res)%nat ->
    ∃ l, bfs fuel (wait_for d) q V res = Some l ∧
      NoDup l ∧ (∀ x, x ∈ l <-> clos_refl_trans N (waits d) start x) ∧
      ∃ k, l = res ++ take 1 q ++ k.
Proof.
  induction fuel as [|fuel IH]; intros q V res Hnd HV Hreach Hcl Hs HU Hsz.
  - exfalso.
    assert (Hsub : list_to_set (res ++ q) ⊆@{gset N} U).
    { intros x Hx. apply HU, HV. apply elem_of_list_to_set in Hx. exact Hx. }
    apply subseteq_size in Hsub. rewrite size_list_to_set in Hsub by exact Hnd.
    rewrite length_app in Hsub. lia.
  - destruct q as [|txn q].
    + exists res. rewrite app_nil_r in Hnd, HV.
      split_and!; [reflexivity | exact Hnd | | exists []; simpl; by rewrite !app_nil_r].
      intros x. split; [intros Hx; apply Hreach, HV, Hx|].
      intros Hx. apply HV. apply clos_rt_rt1n_iff in Hx.
      assert (Hgen : ∀ a b, clos_refl_trans_1n N (waits d) a b -> a ∈ V -> b ∈ V).
      { intros a b Hab. induction Hab as [|a c b Hac _ IHab]; intros Ha; [exact Ha|].
        apply IHab. apply (Hcl a c); [apply HV, Ha | exact Hac]. }
      exact (Hgen start x Hx Hs).
    + cbn [bfs].
      pose proof (bfs_visit_spec (elements (default ∅ (wait_for d !! txn))) V q) as Hvis.
      destruct (foldl bfs_visit (V, q) (elements (default ∅ (wait_for d !! txn))))
        as [V' q''] eqn:Hf.
      destruct Hvis as [HV' (added & -> & Hndadd & Hadd)].
      assert (Hns : ∀ x, x ∈ elements (default ∅ (wait_for d !! txn)) <-> waits d txn x).
      { intros x. rewrite elem_of_elements, waits_succ. reflexivity. }
      assert (HtxnV : txn ∈ V) by (apply HV; apply elem_of_app; right; left).
      destruct (IH (q ++ added) V' (res ++ [txn])) as (l & Hl & Hndl & Hmem & k & Hk).
      * replace ((res ++ [txn]) ++ q ++ added) with ((res ++ txn :: q) ++ added)
          by (rewrite <- !app_assoc; reflexivity).
        apply NoDup_app.
        split_and!; [exact Hnd | | exact Hndadd].
        intros x Hx Hxa. apply Hadd in Hxa as [_ HxV]. apply HxV, HV, Hx.
      * intros x. rewrite HV'. rewrite <- !app_assoc. simpl.
        rewrite elem_of_app, elem_of_cons, elem_of_app.
        rewrite HV, elem_of_app, elem_of_cons. split.
        { intros [Hx|Hx]; [tauto|].
          destruct (decide (x ∈ V)) as [HxV|HxV].
          - apply HV in HxV. rewrite elem_of_app, elem_of_cons in HxV. tauto.
          - right; right; right. apply Hadd. split; [exact Hx | exact HxV]. }
        { intros [Hx|[Hx|[Hx|Hx]]]; [tauto | tauto | tauto |].
          right. apply Hadd in Hx as [Hx _]. exact Hx. }
      * intros x Hx. apply HV' in Hx as [Hx|Hx]; [apply Hreach, Hx|].
        apply Hns in Hx. eapply rt_trans; [apply Hreach, HtxnV | apply rt_step, Hx].
      * intros x y Hx Hxy. apply HV'. apply elem_of_app in Hx as [Hx|Hx].
        -- left. exact (Hcl x y Hx Hxy).
        -- apply list_elem_of_singleton in Hx. subst x. right. apply Hns, Hxy.
      * apply HV'. left. exact Hs.
      * intros x Hx. apply HV' in Hx as [Hx|Hx]; [apply HU, Hx|]. apply Hns in Hx.
        exact (HUcl txn x Hx).
      * rewrite length_app. simpl. lia.
      * exists l. split_and!; [exact Hl | exact Hndl | exact Hmem |].
        exists (take 1 (q ++ added) ++ k). rewrite Hk. simpl. by rewrite <- !app_assoc.
Qed.

(** X20: get_deadlocked_txns(start) lists start first, lists no transaction
    twice, and lists exactly the transactions reachable from start in the
    wait-for graph (start included). *)
Theorem get_deadlocked_txns_reachable (d : Deadlock.DeadlockDetector) (start : N) :
  NoDup (Deadlock.get_deadlocked_txns d start) ∧
  head (Deadlock.get_deadlocked_txns d start) = Some start ∧
  (∀ x, x ∈ Deadlock.get_deadlocked_txns d start <->
     clos_refl_trans N (Deadlock.waits d) start x).
Proof.
  set (U := {[start]} ∪ txns (wait_for d)).
  assert (HUcl : ∀ x y, waits d x y -> y ∈ U).
  { intros x y Hxy. apply waits_succ in Hxy. apply elem_of_union_r. exact (txns_succ _ x y Hxy). }
  destruct (bfs_correct d start U HUcl (S (size U)) [start] {[start]} [])
    as (l & Hl & Hnd & Hmem & k & Hk).
  - simpl. constructor; [apply not_elem_of_nil | constructor].
  - intros x. simpl. rewrite elem_of_singleton, list_elem_of_singleton. reflexivity.
  - intros x Hx. apply elem_of_singleton in Hx. subst. apply rt_refl.
  - intros x y Hx. apply not_elem_of_nil in Hx. contradiction.
  - apply elem_of_singleton. reflexivity.
  - intros x Hx. apply elem_of_singleton in Hx. subst. apply elem_of_union_l, elem_of_singleton.
    reflexivity.
  - simpl. lia.
  - unfold get_deadlocked_txns. fold U. rewrite Hl. simpl.
    split_and!; [exact Hnd | rewrite Hk; reflexivity | exact Hmem].
Qed.
End DeadlockExtra3.

Section MvccExtra.
Import Mvcc.

(** X21: gc(min_ts) does not change what get_visible_version returns at any
    timestamp >= min_ts, nor what get_latest_active returns; it removes
    exactly the inactive versions deleted before min_ts. *)
Theorem gc_preserves_reads {T} (versions : Mvcc.VersionChain T) (min_ts ts : N)
    (Hts : (min_ts <= ts)%N) :
  Mvcc.get_visible_version (Mvcc.gc versions min_ts) ts = Mvcc.get_visible_version versions ts ∧
  Mvcc.get_latest_active (Mvcc.gc versions min_ts) = Mvcc.get_latest_active versions ∧
  (∀ v, v ∈ versions -> v ∉ Mvcc.gc versions min_ts <->
     Mvcc.is_active v = false ∧ ∃ d, Mvcc.deleted_at v = Some d ∧ (d < min_ts)%N).
Proof.
  unfold gc, VersionChain. split_and!.
  - induction versions as [|v vs IH]; [reflexivity|].
    rewrite filter_cons. destruct (gc_keep min_ts v) eqn:Hk; simpl.
    + rewrite IH. reflexivity.
    + rewrite IH.
      unfold gc_keep in Hk. apply orb_false_iff in Hk as [Ha Hd].
      destruct (deleted_at v) as [dt|] eqn:Hdt; [|discriminate].
      apply N.leb_gt in Hd. unfold is_visible. rewrite Hdt.
      destruct (N.ltb ts (created_at v)); [reflexivity|].
      replace (N.leb dt ts) with true by (symmetry; apply N.leb_le; lia). reflexivity.
  - induction versions as [|v vs IH]; [reflexivity|].
    rewrite filter_cons. destruct (gc_keep min_ts v) eqn:Hk; simpl.
    + rewrite IH. reflexivity.
    + rewrite IH.
      unfold gc_keep in Hk. apply orb_false_iff in Hk as [Ha _].
      rewrite Ha. reflexivity.
  - intros v Hv. rewrite list_elem_of_filter. unfold gc_keep.
    rewrite orb_true_iff, not_and_l. split.
    + intros [Hk|Hk]; [|contradiction].
      apply Decidable.not_or in Hk as [Ha Hd].
      apply not_true_is_false in Ha. split; [exact Ha|].
      destruct (deleted_at v) as [dt|]; [|contradiction].
      exists dt. split; [reflexivity|]. apply not_true_is_false, N.leb_nle in Hd. lia.
    + intros [Ha (dt & Hdt & Hlt)]. left. rewrite Ha, Hdt.
      intros [H|H]; [discriminate|]. apply N.leb_le in H. lia.
Qed.

Lemma gc_preserves_reads_witness :
  (3 <= 5)%N ∧
  Mvcc.get_visible_version
    (Mvcc.gc [Mvcc.mkVersion "b" 2 None 4 None; Mvcc.mkVersion "a" 1 (Some 2%N) 1 (Some 2%N)] 3) 5
  = Mvcc.get_visible_version
      [Mvcc.mkVersion "b" 2 None 4 None; Mvcc.mkVersion "a" 1 (Some 2%N) 1 (Some 2%N)] 5.
Proof.
  assert (Hts : (3 <= 5)%N) by lia. split; [exact Hts|].
  apply (gc_preserves_reads _ 3 5 Hts).
Defined.

(** X22: mark_latest_deleted does nothing on an empty chain and never changes the
    version count. It marks the newest version deleted at timestamp d even
    if it was already deleted: get_latest_active then skips it, and it is
    visible exactly at timestamps in [created_at, d), so re-marking with a
    later d makes it visible again. *)
Theorem mark_latest_deleted_reads {T} (v : Mvcc.Version T) (rest : Mvcc.VersionChain T)
    (txn ts d : N) :
  Mvcc.mark_latest_deleted ([] : Mvcc.VersionChain T) txn d = [] ∧
  Mvcc.version_count (Mvcc.mark_latest_deleted (v :: rest) txn d) = Mvcc.version_count (v :: rest) ∧
  Mvcc.get_latest_active (Mvcc.mark_latest_deleted (v :: rest) txn d) = Mvcc.get_latest_active rest ∧
  Mvcc.get_visible_version (Mvcc.mark_latest_deleted (v :: rest) txn d) ts =
    (if decide (Mvcc.created_at v <= ts < d)%N then Some (Mvcc.data v)
     else Mvcc.get_visible_version rest ts).
Proof.
  split_and!; try reflexivity.
  simpl. unfold is_visible. simpl.
  destruct (N.ltb_spec ts (created_at v)) as [Hc|Hc].
  - rewrite decide_False by lia. reflexivity.
  - destruct (N.leb_spec d ts) as [Hd|Hd].
    + rewrite decide_False by lia. reflexivity.
    + rewrite decide_True by lia. reflexivity.
Qed.

(** X23: Adding Version::new(data, txn, ts) increases the version count by one,
    makes get_latest_active return data, and makes get_visible_version
    return data at every timestamp >= ts and the previous answer before ts. *)
Theorem add_version_reads {T} (versions : Mvcc.VersionChain T) (data : T) (txn ts ts' : N) :
  Mvcc.version_count (Mvcc.add_version versions (Mvcc.Version_new data txn ts)) =
    S (Mvcc.version_count versions) ∧
  Mvcc.get_latest_active (Mvcc.add_version versions (Mvcc.Version_new data txn ts)) = Some data ∧
  Mvcc.get_visible_version (Mvcc.add_version versions (Mvcc.Version_new data txn ts)) ts' =
    (if decide (ts <= ts')%N then Some data else Mvcc.get_visible_version versions ts').
Proof.
  split_and!; try reflexivity.
  simpl. unfold is_visible. simpl.
  destruct (N.ltb_spec ts' ts) as [Hc|Hc].
  - rewrite decide_False by lia. reflexivity.
  - rewrite decide_True by lia. reflexivity.
Qed.
End MvccExtra.

Section ExecutorExtra.
Import Executor.

Lemma SFcompare_swap x y : SpecFloat.SFcompare y x = option_map CompOpp (SpecFloat.SFcompare x y).
Proof.
  destruct x as [sx| sx | | sx mx ex], y as [sy| sy | | sy my ey]; simpl; try reflexivity;
   repeat match goal with b : bool |- _ => destruct b end; simpl; try reflexivity.
  all: change PosDef.Pos.compare_cont with Pos.compare_cont.
  all: pose proof (Pos.compare_cont_antisym mx my Datatypes.Eq) as H; simpl in H; rewrite <- H.
  all: rewrite (Z.compare_antisym ey ex).
  all: destruct (Z.compare ey ex), (Pos.compare_cont Datatypes.Eq mx my); reflexivity.
Qed.

Lemma float_ltb_asym x y : PrimFloat.ltb x y = true -> PrimFloat.ltb y x = false.
Proof.
  rewrite !ltb_spec. unfold SpecFloat.SFltb. rewrite (SFcompare_swap (Prim2SF x) (Prim2SF y)).
  destruct (SpecFloat.SFcompare (Prim2SF x) (Prim2SF y)) as [[]|]; simpl; congruence.
Qed.

Lemma float_cmp_swap l r : float_cmp r l = - float_cmp l r.
Proof.
  unfold float_cmp. destruct (PrimFloat.ltb l r) eqn:H1.
  - rewrite (float_ltb_asym _ _ H1). reflexivity.
  - destruct (PrimFloat.ltb r l); reflexivity.
Qed.

Lemma float_cmp_range l r : float_cmp l r = -1 ∨ float_cmp l r = 0 ∨ float_cmp l r = 1.
Proof. unfold float_cmp. destruct (PrimFloat.ltb l r), (PrimFloat.ltb r l); auto. Qed.

Lemma ord_i32_opp c : ord_i32 (CompOpp c) = - ord_i32 c.
Proof. destruct c; reflexivity. Qed.

Lemma ord_i32_range c : ord_i32 c = -1 ∨ ord_i32 c = 0 ∨ ord_i32 c = 1.
Proof. destruct c; simpl; auto. Qed.

Lemma bool_cmp_swap a b : bool_cmp b a = CompOpp (bool_cmp a b).
Proof. destruct a, b; reflexivity. Qed.

Lemma bind_not_None {A B} (m : outcome A) (k : A -> outcome B) :
  m ≠ None -> (∀ a, k a ≠ None) -> bind m k ≠ None.
Proof. destruct m as [[a|e]|]; simpl; congruence || auto. Qed.

Lemma evaluate_value_arith_free (e : Expression) (row : Row) :
  arith_free e = true -> evaluate_value e row ≠ None.
Proof.
  induction e; simpl; intros Hd; try discriminate;
    repeat match goal with
    | H : _ && _ = true |- _ => apply andb_true_iff in H as [? ?]
    end.
  all: try (unfold ret, fail; congruence).
  all: try (destruct (row !! _); unfold ret, fail; congruence).
  all: try (destruct e; try (unfold fail; congruence); destruct (row !! _); unfold ret, fail; congruence).
  all: try (apply bind_not_None; [auto | intros lv];
            apply bind_not_None; [auto | intros rv; unfold lift; congruence]).
  all: try (apply bind_not_None; [auto | intros []; unfold ret, fail; congruence]).
Qed.

Lemma evaluate_predicate_arith_free (e : Expression) (row : Row) :
  arith_free e = true -> evaluate_predicate e row ≠ None.
Proof.
  induction e; intros Hd;
    try (rewrite evaluate_predicate_value_form by reflexivity;
         apply bind_not_None; [apply evaluate_value_arith_free; exact Hd | intros; unfold ret; congruence]);
    simpl; simpl in Hd; repeat match goal with
      | H : _ && _ = true |- _ => apply andb_true_iff in H as [? ?]
      end.
  all: try (unfold compared; apply bind_not_None; [apply evaluate_value_arith_free; assumption|intros];
            apply bind_not_None; [apply evaluate_value_arith_free; assumption|intros];
            apply bind_not_None; [unfold lift; congruence|intros; unfold ret; congruence]).
  all: try (apply bind_not_None; [apply evaluate_value_arith_free; assumption|intros];
            apply bind_not_None; [apply evaluate_value_arith_free; assumption|intros; unfold ret; congruence]).
  all: try (apply bind_not_None; [auto|intros];
            apply bind_not_None; [auto|intros; unfold ret; congruence]).
  all: try (apply bind_not_None; [auto|intros; unfold ret; congruence]).
Qed.
Lemma execute_filter_Some (pred : Expression) (rows : list Row) :
  arith_free pred = true -> execute_filter pred rows ≠ None.
Proof.
  intros Hd. induction rows as [|row rows IH]; simpl; [congruence|].
  pose proof (evaluate_predicate_arith_free pred row Hd).
  destruct (evaluate_predicate pred row) as [[[|]|]|];
    destruct (execute_filter pred rows); congruence.
Qed.


Lemma scan_property_row (kvs : list (string * PropertyValue.t)) (row0 : Row)
    (cols0 : list string) (k : string) :
  NoDup kvs.*1 ->
  (foldl scan_property (row0, cols0) kvs).1 !! k =
    match (list_to_map kvs : gmap string PropertyValue.t) !! k with Some v => Some v | None => row0 !! k end.
Proof.
  unfold Row in *.
  revert row0 cols0. induction kvs as [|[k' v'] kvs IH]; intros row0 cols0 Hnd;
    cbn [foldl scan_property fst].
  - rewrite list_to_map_nil, lookup_empty. reflexivity.
  - inversion Hnd as [|? ? Hnin Hnd']; subst. rewrite IH by exact Hnd'.
    rewrite list_to_map_cons. unfold Row in *.
    destruct (decide (k = k')) as [->|Hne].
    + rewrite lookup_insert_eq, not_elem_of_list_to_map_1 by exact Hnin.
      rewrite lookup_insert_eq. reflexivity.
    + rewrite !lookup_insert_ne by congruence. reflexivity.
Qed.

Lemma scan_property_cols (kvs : list (string * PropertyValue.t)) (row0 : Row)
    (cols0 : list string) :
  (∀ k, k ∈ (foldl scan_property (row0, cols0) kvs).2 ↔ k ∈ cols0 ∨ k ∈ kvs.*1) ∧
  (NoDup cols0 -> NoDup (foldl scan_property (row0, cols0) kvs).2) ∧
  ∃ t, (foldl scan_property (row0, cols0) kvs).2 = cols0 ++ t.
Proof.
  revert row0 cols0. induction kvs as [|[k' v'] kvs IH]; intros row0 cols0; simpl.
  - split; [intros k; rewrite elem_of_nil; tauto|]. split; [auto|]. exists []. symmetry. apply app_nil_r.
  - destruct (IH (<[k' := v']> row0) (if decide (k' ∈ cols0) then cols0 else cols0 ++ [k']))
      as (Hm & Hn & t & Ht).
    split; [|split].
    + intros k. rewrite Hm, elem_of_cons.
      case_decide; [|rewrite elem_of_app, list_elem_of_singleton]; naive_solver.
    + intros Hnd. apply Hn. case_decide; [exact Hnd|].
      apply NoDup_app. split; [exact Hnd|]. split; [|apply NoDup_singleton].
      intros x Hx Hx'. apply list_elem_of_singleton in Hx'. subst. contradiction.
    + rewrite Ht. case_decide; [exists t; reflexivity|].
      exists (k' :: t). rewrite <- app_assoc. reflexivity.
Qed.

Lemma scan_nodes_spec (f : NodeId -> string) (nodes : list Node.t) (cols0 : list string)
    (rows0 : list Row) :
  (∃ added, (foldl (scan_node f) (cols0, rows0) nodes).2 = rows0 ++ added ∧
    Forall2 (fun row node => ∀ k, row !! k =
      match Node.properties node !! k with
      | Some v => Some v
      | None => if decide (k = "_node_id") then Some (PropertyValue.String (f (Node.id node))) else None
      end) added nodes) ∧
  (∀ k, k ∈ (foldl (scan_node f) (cols0, rows0) nodes).1 ↔
     k ∈ cols0 ∨ ∃ node, node ∈ nodes ∧ is_Some (Node.properties node !! k)) ∧
  (NoDup cols0 -> NoDup (foldl (scan_node f) (cols0, rows0) nodes).1) ∧
  ∃ t, (foldl (scan_node f) (cols0, rows0) nodes).1 = cols0 ++ t.
Proof.
  revert cols0 rows0. induction nodes as [|node nodes IH]; intros cols0 rows0; simpl.
  - split; [exists []; split; [symmetry; apply app_nil_r | constructor]|].
    split; [intros k; split; [auto | intros [?|(? & Hin & _)]; [auto | inversion Hin]]|].
    split; [auto|]. exists []. symmetry. apply app_nil_r.
  - unfold scan_node at 2.
    set (row0 := <["_node_id" := PropertyValue.String (f (Node.id node))]> (∅ : Row)).
    pose proof (fun k => scan_property_row (map_to_list (Node.properties node)) row0 cols0 k
                  (NoDup_fst_map_to_list _)) as Hrow.
    pose proof (scan_property_cols (map_to_list (Node.properties node)) row0 cols0)
      as (Hc & Hcn & t0 & Ht0).
    rewrite list_to_map_to_list in Hrow.
    destruct (foldl scan_property (row0, cols0) (map_to_list (Node.properties node)))
      as [row cols1]. simpl in Hrow, Hc, Hcn, Ht0.
    destruct (IH cols1 (rows0 ++ [row])) as ([added [Ha Hf]] & Hm & Hn & t & Ht).
    split; [|split; [|split]].
    + exists (row :: added). split; [rewrite Ha, <- app_assoc; reflexivity|].
      constructor; [|exact Hf]. intros k. rewrite Hrow.
      destruct (Node.properties node !! k); [reflexivity|]. unfold row0. unfold Row in *.
      case_decide as Hk; [subst; apply lookup_insert_eq|].
      rewrite lookup_insert_ne by congruence. apply lookup_empty.
    + intros k. rewrite Hm, Hc.
      assert (k ∈ (map_to_list (Node.properties node)).*1 ↔ is_Some (Node.properties node !! k)) as Hk.
      { rewrite list_elem_of_fmap. split.
        - intros [[k' v] [-> Hin]]. apply elem_of_map_to_list in Hin. simpl. eauto.
        - intros [v Hv]. exists (k, v). split; [reflexivity|]. by apply elem_of_map_to_list. }
      rewrite Hk. setoid_rewrite elem_of_cons. naive_solver.
    + intros Hnd. apply Hn, Hcn, Hnd.
    + rewrite Ht, Ht0, <- app_assoc. eexists. reflexivity.
Qed.


(** X24: compare_values is antisymmetric: swapping the operands negates the
    result and keeps the same error for incompatible types, and every result
    is -1, 0 or 1. *)
Theorem compare_values_antisym (a b : PropertyValue.t) :
  compare_values b a = match compare_values a b with Ok c => Ok (- c) | Err e => Err e end ∧
  (∀ c, compare_values a b = Ok c -> c = -1 ∨ c = 0 ∨ c = 1).
Proof.
  split.
  - destruct a, b; simpl; try reflexivity; try (rewrite float_cmp_swap; reflexivity).
    + match goal with |- Ok (ord_i32 (String.compare ?x ?y)) = _ =>
        rewrite (String.compare_antisym x y), ord_i32_opp; f_equal; lia end.
    + match goal with |- Ok (ord_i32 (Z.compare ?x ?y)) = _ =>
        rewrite (Z.compare_antisym x y), ord_i32_opp; f_equal; lia end.
    + match goal with |- Ok (ord_i32 (bool_cmp ?x ?y)) = _ =>
        rewrite (bool_cmp_swap y x), ord_i32_opp; f_equal; lia end.
  - intros c. destruct a, b; simpl; intros Hc; inversion Hc; subst;
      auto using ord_i32_range, float_cmp_range.
Qed.

(** X25: On two integer operands a and b, +, - and * return Ok of the
    exact result a + b, a - b, a * b when it lies in the i64 range and panic
    otherwise (the overflow check of the default build profile); unary minus
    likewise returns -a when it fits and panics otherwise (on i64::MIN);
    / fails with 'Division by zero' on a zero divisor, panics on
    i64::MIN / -1, and otherwise truncates toward zero. *)
Theorem evaluate_integer_arith (l r : Expression) (row : Row) (a b : Z)
  (Hl : evaluate_value l row = Some (Ok (PropertyValue.Integer a)))
  (Hr : evaluate_value r row = Some (Ok (PropertyValue.Integer b))) :
  let exact z := if (I64.min <=? z) && (z <=? I64.max)
                 then Some (Ok (PropertyValue.Integer z)) else None in
  evaluate_value (Add l r) row = exact (a + b) ∧
  evaluate_value (Sub l r) row = exact (a - b) ∧
  evaluate_value (Mul l r) row = exact (a * b) ∧
  evaluate_value (Neg l) row = exact (- a) ∧
  evaluate_value (Div l r) row =
    (if b =? 0 then Some (Err (InvalidOperation "Division by zero"))
     else if (a =? I64.min) && (b =? -1) then None
     else Some (Ok (PropertyValue.Integer (Z.quot a b)))).
Proof.
  intros exact. subst exact. simpl. rewrite Hl, Hr. simpl.
  unfold add_values, sub_values, mul_values, I64.add, I64.sub, I64.mul, I64.neg, I64.checked.
  split_and!; try (destruct (_ && _); reflexivity).
  unfold div_values, I64.div. destruct (b =? 0); [reflexivity|].
  destruct (_ && _); reflexivity.
Qed.

Lemma evaluate_integer_arith_witness :
  evaluate_value (Add (Literal (PropertyValue.Integer I64.max))
                      (Literal (PropertyValue.Integer 1))) ∅ = None ∧
  evaluate_value (Neg (Literal (PropertyValue.Integer I64.min))) ∅ = None ∧
  evaluate_value (Mul (Literal (PropertyValue.Integer I64.max))
                      (Literal (PropertyValue.Integer 1))) ∅
    = Some (Ok (PropertyValue.Integer I64.max)).
Proof.
  destruct (evaluate_integer_arith (Literal (PropertyValue.Integer I64.max))
              (Literal (PropertyValue.Integer 1)) ∅ I64.max 1 eq_refl eq_refl)
    as (Hadd & _ & Hmul & _).
  destruct (evaluate_integer_arith (Literal (PropertyValue.Integer I64.min))
              (Literal (PropertyValue.Integer 1)) ∅ I64.min 1 eq_refl eq_refl)
    as (_ & _ & _ & Hneg & _).
  rewrite Hadd, Hneg, Hmul. split_and!; reflexivity.
Defined.

(** X26: execute never returns an error, its row_count always equals its number
    of rows, and it can panic only when a Filter predicate of the plan
    contains +, -, *, / or unary minus. *)
Theorem execute_outcome (f : NodeId -> string) (plan : PhysicalPlan) (s : MemoryStorage.t) :
  match execute f plan s with
  | Some (Ok q) => row_count q = length (rows q)
  | Some (Err _) => False
  | None => plan_arith_free plan = false
  end.
Proof.
  induction plan as [label| | |source IH predicate|source IH cols]; simpl.
  - unfold execute_scan. destruct (foldl _ _ _). reflexivity.
  - reflexivity.
  - reflexivity.
  - destruct (execute f source s) as [[q|e]|]; simpl; [|contradiction|rewrite IH; reflexivity].
    destruct (execute_filter predicate (rows q)) eqn:E; [reflexivity|].
    destruct (arith_free predicate) eqn:Hd; [|apply andb_false_r].
    exfalso. exact (execute_filter_Some _ _ Hd E).
  - destruct (execute f source s) as [[q|e]|]; simpl; [reflexivity|contradiction|exact IH].
Qed.

(** X27: A Scan returns one row per stored node (with the label, when given);
    each row maps every property of its node to its value and _node_id to
    the node's id string, unless the node has a property named _node_id,
    which wins. The columns start with _node_id, contain no duplicate, and
    are _node_id plus all property keys of the scanned nodes. *)
Theorem execute_scan_rows (f : NodeId -> string) (label : option string) (s : MemoryStorage.t) :
  let nodes := match label with
               | Some l => MemoryStorage.get_nodes_by_label l s
               | None => MemoryStorage.get_all_nodes s
               end in
  (∀ node, node ∈ nodes ↔
     (∃ id, MemoryStorage.nodes s !! id = Some node) ∧
     match label with Some l => Node.has_label node l = true | None => True end) ∧
  ∃ q, execute f (Scan label) s = Some (Ok q) ∧
    Forall2 (fun row node => ∀ k, row !! k =
      match Node.properties node !! k with
      | Some v => Some v
      | None => if decide (k = "_node_id") then Some (PropertyValue.String (f (Node.id node))) else None
      end) (rows q) nodes ∧
    head (columns q) = Some "_node_id" ∧ NoDup (columns q) ∧
    (∀ k, k ∈ columns q ↔
       k = "_node_id" ∨ ∃ node, node ∈ nodes ∧ is_Some (Node.properties node !! k)).
Proof.
  intros nodes. split.
  - intros node.
    assert (Hv : node ∈ MemoryStorage.values (MemoryStorage.nodes s) ↔
                 ∃ id, MemoryStorage.nodes s !! id = Some node).
    { unfold MemoryStorage.values. rewrite list_elem_of_fmap. split.
      - intros [[id n] [-> Hin]]. apply elem_of_map_to_list in Hin. eauto.
      - intros [id Hid]. exists (id, node). split; [reflexivity|]. by apply elem_of_map_to_list. }
    unfold nodes. destruct label as [l|].
    + unfold MemoryStorage.get_nodes_by_label. rewrite list_elem_of_filter, Hv. tauto.
    + unfold MemoryStorage.get_all_nodes. rewrite Hv. tauto.
  - simpl. unfold execute_scan. fold nodes.
    destruct (scan_nodes_spec f nodes ["_node_id"] []) as ([added [Ha Hf]] & Hm & Hn & t & Ht).
    destruct (foldl (scan_node f) (["_node_id"], []) nodes) as [cols rws].
    simpl in Ha, Hm, Hn, Ht. eexists. split; [reflexivity|]. simpl.
    split; [rewrite Ha; exact Hf|]. split; [rewrite Ht; reflexivity|].
    split; [apply Hn, NoDup_singleton|].
    intros k. rewrite Hm, list_elem_of_singleton. reflexivity.
Qed.


End ExecutorExtra.

Section WalExtra.

Lemma u32_le_le_bytes (z : Z) (b0 b1 b2 b3 : Byte.byte) :
  Bytes.le_bytes 4 z = [b0; b1; b2; b3] -> Wal.u32_le b0 b1 b2 b3 = Z.to_N (z mod 2 ^ 32).
Proof.
  intros E. pose proof (le_value_le_bytes 4 z) as H. rewrite E in H. simpl in H.
  change (8 * Z.of_nat 4) with 32 in H.
  unfold Wal.u32_le. rewrite <- H. lia.
Qed.

Lemma read_entries_frames (deserialize : list Byte.byte -> option Wal.WALEntry)
    (serialize : Wal.WALEntry -> list Byte.byte) (es : list Wal.WALEntry)
    (tail : list Byte.byte) (acc : list Wal.WALEntry) (fuel : nat) :
  Forall (fun e => deserialize (serialize e) = Some e ∧
                   Z.of_nat (length (serialize e)) < 2 ^ 32) es ->
  (length tail < 4)%nat ->
  (length (concat (map (fun e => wal_frame (serialize e)) es) ++ tail) <= fuel)%nat ->
  Wal.read_entries deserialize fuel (concat (map (fun e => wal_frame (serialize e)) es) ++ tail) acc
    = Ok (rev acc ++ es).
Proof.
  revert acc fuel. induction es as [|e es IH]; intros acc fuel Hes Ht Hf.
  - rewrite app_nil_r. simpl. destruct fuel; [reflexivity|].
    destruct tail as [|? [|? [|? [|? ?]]]]; simpl in Ht; try lia; reflexivity.
  - inversion Hes as [|? ? [Hd Hl] Hes']; subst.
    cbn [map concat] in *. rewrite <- !app_assoc in *.
    set (R := concat (map (fun e => wal_frame (serialize e)) es) ++ tail) in *.
    unfold wal_frame at 1 in Hf. unfold wal_frame at 1.
    set (p := serialize e) in *.
    pose proof (length_le_bytes 4 (Z.of_nat (length p))) as Hlen.
    destruct (Bytes.le_bytes 4 (Z.of_nat (length p))) as [|b0 [|b1 [|b2 [|b3 [|]]]]] eqn:E;
      simpl in Hlen; try discriminate.
    assert (Hu : N.to_nat (Wal.u32_le b0 b1 b2 b3) = length p).
    { rewrite (u32_le_le_bytes _ _ _ _ _ E), Z.mod_small by lia. lia. }
    rewrite length_app in Hf. cbn [length app] in Hf |- *.
    destruct fuel as [|fuel]; [lia|].
    cbn [Wal.read_entries]. rewrite Hu.
    rewrite decide_True by (rewrite length_app; lia).
    rewrite take_app_length, drop_app_length, Hd.
    rewrite (IH (e :: acc) fuel Hes' Ht) by lia.
    simpl. rewrite <- app_assoc. reflexivity.
Qed.

(** X29: If bincode decodes each entry's serialization back to the entry and each
    serialization is shorter than 2^32 bytes, then the bytes WAL::append
    writes for a sequence of entries, followed by fewer than 4 stray bytes,
    are read back by read_segment as exactly those entries in order. *)
Theorem read_segment_frames (deserialize : list Byte.byte -> option Wal.WALEntry)
    (serialize : Wal.WALEntry -> list Byte.byte) (es : list Wal.WALEntry)
    (tail : list Byte.byte)
    (Hes : Forall (fun e => deserialize (serialize e) = Some e ∧
                            Z.of_nat (length (serialize e)) < 2 ^ 32) es)
    (Ht : (length tail < 4)%nat) :
  Wal.read_segment deserialize (concat (map (fun e => wal_frame (serialize e)) es) ++ tail) = Ok es.
Proof.
  unfold Wal.read_segment. apply (read_entries_frames _ _ _ _ [] _ Hes Ht). lia.
Qed.

Lemma read_segment_frames_witness :
  Wal.read_segment (fun _ => Some (Wal.mkEntry 0 1 Wal.BeginTxn 0))
    (concat (map (fun e => wal_frame ((fun _ => [Byte.x07]) e)) [Wal.mkEntry 0 1 Wal.BeginTxn 0])
       ++ [Byte.x00; Byte.x01]) = Ok [Wal.mkEntry 0 1 Wal.BeginTxn 0].
Proof.
  apply (read_segment_frames (fun _ => Some (Wal.mkEntry 0 1 Wal.BeginTxn 0)) (fun _ => [Byte.x07])).
  - constructor; [split; [reflexivity | simpl; lia] | constructor].
  - simpl. lia.
Defined.

Lemma read_entries_frames_truncated (deserialize : list Byte.byte -> option Wal.WALEntry)
    (serialize : Wal.WALEntry -> list Byte.byte) (es : list Wal.WALEntry)
    (n : Z) (p : list Byte.byte) (acc : list Wal.WALEntry) (fuel : nat) :
  Forall (fun e => deserialize (serialize e) = Some e ∧
                   Z.of_nat (length (serialize e)) < 2 ^ 32) es ->
  Z.of_nat (length p) < n < 2 ^ 32 ->
  (length (concat (map (fun e => wal_frame (serialize e)) es) ++ Bytes.le_bytes 4 n ++ p)
     <= fuel)%nat ->
  Wal.read_entries deserialize fuel
    (concat (map (fun e => wal_frame (serialize e)) es) ++ Bytes.le_bytes 4 n ++ p) acc
    = Err (IoError UnexpectedEof).
Proof.
  revert acc fuel. induction es as [|e es IH]; intros acc fuel Hes Hn Hf.
  - cbn [map concat app] in *.
    pose proof (length_le_bytes 4 n) as Hlen.
    destruct (Bytes.le_bytes 4 n) as [|b0 [|b1 [|b2 [|b3 [|]]]]] eqn:E;
      simpl in Hlen; try discriminate.
    assert (Hu : N.to_nat (Wal.u32_le b0 b1 b2 b3) = Z.to_nat n).
    { rewrite (u32_le_le_bytes _ _ _ _ _ E), Z.mod_small by lia. lia. }
    cbn [length app] in Hf.
    destruct fuel as [|fuel]; [lia|].
    cbn [Wal.read_entries app]. rewrite Hu.
    rewrite decide_False by lia. reflexivity.
  - inversion Hes as [|? ? [Hd Hl] Hes']; subst.
    cbn [map concat] in *. rewrite <- !app_assoc in *.
    set (R := concat (map (fun e => wal_frame (serialize e)) es) ++ Bytes.le_bytes 4 n ++ p) in *.
    unfold wal_frame at 1 in Hf. unfold wal_frame at 1.
    set (q := serialize e) in *.
    pose proof (length_le_bytes 4 (Z.of_nat (length q))) as Hlen.
    destruct (Bytes.le_bytes 4 (Z.of_nat (length q))) as [|b0 [|b1 [|b2 [|b3 [|]]]]] eqn:E;
      simpl in Hlen; try discriminate.
    assert (Hu : N.to_nat (Wal.u32_le b0 b1 b2 b3) = length q).
    { rewrite (u32_le_le_bytes _ _ _ _ _ E), Z.mod_small by lia. lia. }
    rewrite length_app in Hf. cbn [length app] in Hf |- *.
    destruct fuel as [|fuel]; [lia|].
    cbn [Wal.read_entries]. rewrite Hu.
    rewrite decide_True by (rewrite length_app; lia).
    rewrite take_app_length, drop_app_length, Hd.
    apply (IH (e :: acc) fuel Hes' Hn). subst R. lia.
Qed.

(** C5: a segment whose last entry is cut short inside its payload (the
    4-byte length prefix n is complete, but fewer than n bytes follow) is
    not read as ending the log: whatever complete entries come before it
    (each decoding back to itself), read_segment fails with an
    [UnexpectedEof] I/O error instead of returning them, and recovery over
    that segment fails with the same error, leaving the storage untouched.
    The decoder is never applied to the truncated payload. *)
Theorem read_segment_truncated_payload_fails
    (deserialize : list Byte.byte -> option Wal.WALEntry)
    (serialize : Wal.WALEntry -> list Byte.byte) (es : list Wal.WALEntry)
    (n : Z) (p : list Byte.byte)
    (Hes : Forall (fun e => deserialize (serialize e) = Some e ∧
                            Z.of_nat (length (serialize e)) < 2 ^ 32) es)
    (Hn : Z.of_nat (length p) < n < 2 ^ 32)
    {S : Type} `{StorageBackend S} (storage : S) :
  let seg := concat (map (fun e => wal_frame (serialize e)) es) ++ Bytes.le_bytes 4 n ++ p in
  Wal.read_segment deserialize seg = Err (IoError UnexpectedEof) ∧
  Wal.recover (Wal.read_segment deserialize) [seg] storage
    = (Err (IoError UnexpectedEof), storage).
Proof.
  intros seg.
  assert (Hr : Wal.read_segment deserialize seg = Err (IoError UnexpectedEof)).
  { subst seg. unfold Wal.read_segment.
    apply (read_entries_frames_truncated _ _ _ _ _ [] _ Hes Hn). lia. }
  split; [exact Hr|].
  unfold Wal.recover. cbn [Wal.collect_commits]. rewrite Hr. reflexivity.
Qed.

Lemma read_segment_truncated_payload_fails_witness :
  Z.of_nat 10 < 28 < 2 ^ 32 ∧
  Wal.read_segment (fun _ => None) truncated_segment = Err (IoError UnexpectedEof) ∧
  Wal.recover (Wal.read_segment (fun _ => None)) [truncated_segment] MemoryStorage.new
    = (Err (IoError UnexpectedEof), MemoryStorage.new).
Proof.
  assert (Hn : Z.of_nat 10 < 28 < 2 ^ 32) by lia. split; [exact Hn|].
  apply (read_segment_truncated_payload_fails (fun _ => None) (fun _ => []) [] 28
    [Byte.x00; Byte.x00; Byte.x00; Byte.x00; Byte.x00; Byte.x00; Byte.x00; Byte.x00;
     Byte.x01; Byte.x00] (List.Forall_nil _) Hn MemoryStorage.new).
Defined.
End WalExtra.
